(** * prprocessor: commit parsing, policy lookup, check reporting and
      tracker reconciliation of [prprocessor/__main__.py]

    The development embeds the functions of [prprocessor/__main__.py] as
    Rocq functions and states the properties of the design document about
    them.

    Conventions of the embedding.
    - A commit message is the one kind of [str] that the program takes
      apart character by character ([str.splitlines], [re], [str.lower],
      [int]).  It is a text: the list of its code points, each an [N].
      The class [\d] and [int] follow the decimal digits of Unicode 14.0,
      the database of CPython 3.11; [re.IGNORECASE] follows the case
      folding of [re] for the ASCII literals of the patterns, which lets
      [i] stand for U+0130 and U+0131 and [s] for U+017F; [int] has the
      limit of 4300 digits that CPython sets by default.
    - Every other [str] (names, URLs, titles, shas) is a [string] that
      holds its UTF-8 bytes: the program only compares and joins these, or
      tests them for an ASCII prefix, suffix or separator, which gives the
      same on the bytes as on the code points.
    - A Python [int] is a [Z]; a [set] of ints is a [gset Z]; a [dict]
      used as a table is a [gmap]; a [dict] iterated in insertion order is
      an association list.
    - An exception is a value of [exn]; a function that can raise returns
      a [result].  The calls that leave the process (hosting platform,
      tracker, clock, sleep, log) are operations of an environment over an
      abstract world; a run returns the list of the calls it made. *)

From Stdlib Require Import ZArith NArith Ascii String List Bool Lia.
From stdpp Require Import base decidable option list sorting gmap strings pretty.

Local Open Scope Z_scope.

(** ** Exceptions and results *)

Inductive exn : Type :=
| UnconfiguredRepository (msg : string)
| KeyError (key : string)
| ValueError (msg : string)
| IndexError
| AttributeError (name : string)
| UnboundLocalError (name : string)
| BoundaryError (what : string).   (* raised by a call that leaves the process *)

Inductive result (A : Type) : Type :=
| Ok (a : A)
| Raise (e : exn).
Arguments Ok {A} a.
Arguments Raise {A} e.

Definition rbind {A B} (r : result A) (f : A -> result B) : result B :=
  match r with
  | Ok a => f a
  | Raise e => Raise e
  end.

Fixpoint rmapM {A B} (f : A -> result B) (l : list A) : result (list B) :=
  match l with
  | [] => Ok []
  | x :: l' => rbind (f x) (fun y => rbind (rmapM f l') (fun ys => Ok (y :: ys)))
  end.

Definition is_UnconfiguredRepository (e : exn) : bool :=
  match e with UnconfiguredRepository _ => true | _ => false end.

(** ** Strings *)

Abbreviation chars := list_ascii_of_string.
Abbreviation str_of := string_of_list_ascii.

Definition ascii_eqb (a b : ascii) : bool := bool_decide (a = b).

(** [str.startswith(prefix)]. *)
Fixpoint startswith (s p : list ascii) : bool :=
  match p, s with
  | [], _ => true
  | a :: p', b :: s' => ascii_eqb a b && startswith s' p'
  | _ :: _, [] => false
  end.

(** [str.endswith(suffix)]. *)
Definition endswith (s p : list ascii) : bool :=
  startswith (rev s) (rev p).

(** ** Texts *)

(** The code point of an ASCII character, and the text of an ASCII
    literal. *)
Abbreviation pt := N_of_ascii.

Definition codes (s : string) : list N := map N_of_ascii (chars s).

(** The UTF-8 bytes of a text, for the one place where a piece of a
    message becomes a name: the attribute that [getattr] does not find. *)
Definition utf8_point (c : N) : list ascii :=
  (if c <? 128 then [ascii_of_N c]
   else if c <? 2048 then
     [ascii_of_N (192 + c / 64); ascii_of_N (128 + c mod 64)]
   else if c <? 65536 then
     [ascii_of_N (224 + c / 4096); ascii_of_N (128 + (c / 64) mod 64);
      ascii_of_N (128 + c mod 64)]
   else
     [ascii_of_N (240 + c / 262144); ascii_of_N (128 + (c / 4096) mod 64);
      ascii_of_N (128 + (c / 64) mod 64); ascii_of_N (128 + c mod 64)])%N.

Definition utf8 (s : list N) : string := str_of (flat_map utf8_point s).

(** The decimal digits of Unicode 14.0: every run of ten starts at one of
    these code points, at the digit zero of a script. *)
Definition decimal_bases : list N :=
  [48; 1632; 1776; 1984; 2406; 2534; 2662; 2790; 2918; 3046; 3174; 3302; 3430;
   3558; 3664; 3792; 3872; 4160; 4240; 6112; 6160; 6470; 6608; 6784; 6800; 6992;
   7088; 7232; 7248; 42528; 43216; 43264; 43472; 43504; 43600; 44016; 65296;
   66720; 68912; 69734; 69872; 69942; 70096; 70384; 70736; 70864; 71248; 71360;
   71472; 71904; 72016; 72784; 73040; 73120; 92768; 92864; 93008; 120782;
   120792; 120802; 120812; 120822; 123200; 123632; 125264; 130032]%N.

(** The zero of the run of digits that [c] belongs to. *)
Definition decimal_base (c : N) : option N :=
  find (fun b => (b <=? c) && (c <? b + 10))%N decimal_bases.

(** The class [\d] of a [str] pattern, and [str.isdecimal] per character. *)
Definition is_digit (c : N) : bool :=
  match decimal_base c with Some _ => true | None => false end.

Definition is_upper (c : N) : bool := ((65 <=? c) && (c <=? 90))%N.

(** [str.lower] on the characters that a literal of the patterns can stand
    for under [re.IGNORECASE]: the ASCII letters, U+0130 (which becomes
    [i] and U+0307), U+0131 and U+017F (which stay) and U+212A (which
    becomes [k]).  No other character reaches the one call of [lower],
    on which it is left as the identity here. *)
Definition lower_point (c : N) : list N :=
  (if is_upper c then [c + 32]
   else if c =? 304 then [105; 775]
   else if c =? 8490 then [107]
   else [c])%N.

Definition lower (s : list N) : list N := flat_map lower_point s.

(** The line boundaries of [str.splitlines]: LF, VT, FF, CR, FS, GS, RS,
    NEL, LS and PS. *)
Definition is_linebreak (c : N) : bool :=
  ((c =? 10) || (c =? 11) || (c =? 12) || (c =? 13) ||
   (c =? 28) || (c =? 29) || (c =? 30) || (c =? 133) ||
   (c =? 8232) || (c =? 8233))%N.

Definition is_CR (c : N) : bool := (c =? 13)%N.
Definition is_LF (c : N) : bool := (c =? 10)%N.

(** [str.splitlines()]: [cur] is the line being read, [after_cr] tells that
    the previous character was a CR, so that a following LF belongs to the
    same boundary.  A last line is kept only when it is not empty. *)
Fixpoint splitlines_go (cur : list N) (after_cr : bool) (s : list N)
  : list (list N) :=
  match s with
  | [] => match cur with [] => [] | _ => [cur] end
  | c :: s' =>
      if after_cr && is_LF c then splitlines_go cur false s'
      else if is_linebreak c then cur :: splitlines_go [] (is_CR c) s'
      else splitlines_go (cur ++ [c]) false s'
  end.

Definition splitlines (s : list N) : list (list N) :=
  splitlines_go [] false s.

(** [int(s)] for a literal made of decimal digits, the only literals the
    pattern [#(\d+)] hands over; anything else is a [ValueError].  A
    literal of more than [int_max_str_digits] digits is a [ValueError]
    too: the limit of [sys.get_int_max_str_digits()], which the program
    leaves at its default. *)
Definition digit_value (c : N) : Z :=
  match decimal_base c with
  | Some b => Z.of_N (c - b)
  | None => 0
  end.

Definition int_digits (s : list N) : Z :=
  fold_left (fun acc c => 10 * acc + digit_value c) s 0.

Definition int_max_str_digits : Z := 4300.

Definition int_limit_message (n : nat) : string :=
  "Exceeds the limit (4300 digits) for integer string conversion: value has " +:+
  pretty (Z.of_nat n) +:+
  " digits; use sys.set_int_max_str_digits() to increase the limit".

Definition int (s : list N) : result Z :=
  match s with
  | [] => Raise (ValueError "invalid literal for int()")
  | _ =>
      if forallb is_digit s then
        if int_max_str_digits <? Z.of_nat (length s)
        then Raise (ValueError (int_limit_message (length s)))
        else Ok (int_digits s)
      else Raise (ValueError "invalid literal for int()")
  end.

(** ** Regular expressions: the fragment of [re] the patterns use

    A pattern is a syntax tree; [bt] is the backtracking matcher of [re]:
    alternatives are tried left to right, [?] and [*] are greedy, and the
    first way through the pattern that reaches the end wins.  [pos] is the
    offset of the remaining subject [s]; [c] holds the groups closed so far,
    the latest binding first. *)

Inductive regex : Type :=
| Lit (a : ascii)              (* a literal character of the pattern *)
| AnyChar                      (* .   any character but LF *)
| Digit                        (* \d *)
| Bos                          (* \A *)
| Eos                          (* \Z *)
| Cat (r1 r2 : regex)
| Alt (r1 r2 : regex)          (* r1|r2 *)
| Opt (r : regex)              (* r?  *)
| Star (r : regex)             (* r*  *)
| Group (i : nat) (r : regex)  (* the i-th capturing group *)
| Eps.                         (* the empty pattern *)

(** [r+] is one [r] followed by [r*]. *)
Definition Plus (r : regex) : regex := Cat r (Star r).

Fixpoint Lits (s : list ascii) : regex :=
  match s with
  | [] => Eps
  | [a] => Lit a
  | a :: s' => Cat (Lit a) (Lits s')
  end.

Definition caps : Type := list (nat * list N).

Definition lower_ascii (n : N) : N := (if is_upper n then n + 32 else n)%N.

(** What [re.IGNORECASE] lets a lower-case ASCII letter stand for besides
    itself: its capital, and for [i], [s] and [k] the characters whose
    lower case they are or that [re] treats as their equals (U+0130 and
    U+0131, U+017F, U+212A). *)
Definition case_variants (l : N) : list N :=
  (if (97 <=? l) && (l <=? 122) then
     (l - 32) :: (if l =? 105 then [304; 305]
                  else if l =? 115 then [383]
                  else if l =? 107 then [8490]
                  else [])
   else [])%N.

(** The characters that the literal [a] of a pattern matches.  The
    literals of the patterns of the module are ASCII. *)
Definition literal_class (ignorecase : bool) (a : ascii) : list N :=
  let n := N_of_ascii a in
  if ignorecase then n :: lower_ascii n :: case_variants (lower_ascii n) else [n].

Definition lit_matches (ignorecase : bool) (a : ascii) (x : N) : bool :=
  existsb (N.eqb x) (literal_class ignorecase a).

Section Matcher.
Context {R : Type}.
Variable ignorecase : bool.

Definition kont : Type := nat -> list N -> caps -> option R.

(** The rounds of [r*]: [body] matches one [r].  A round has to consume a
    character, so [n = length s] rounds are all there can be. *)
Fixpoint star_rounds (body : nat -> list N -> caps -> kont -> option R)
    (k : kont) (n : nat) (pos : nat) (s : list N) (c : caps) : option R :=
  match n with
  | O => k pos s c
  | S n' =>
      match body pos s c
              (fun pos' s' c' =>
                 if Nat.ltb pos pos' then star_rounds body k n' pos' s' c' else None) with
      | Some m => Some m
      | None => k pos s c
      end
  end.

Fixpoint bt (r : regex) (pos : nat) (s : list N) (c : caps) (k : kont)
  : option R :=
  match r with
  | Lit a =>
      match s with
      | x :: s' => if lit_matches ignorecase a x then k (S pos) s' c else None
      | [] => None
      end
  | AnyChar =>
      match s with
      | x :: s' => if is_LF x then None else k (S pos) s' c
      | [] => None
      end
  | Digit =>
      match s with
      | x :: s' => if is_digit x then k (S pos) s' c else None
      | [] => None
      end
  | Bos => if Nat.eqb pos 0 then k pos s c else None
  | Eos => match s with [] => k pos s c | _ :: _ => None end
  | Cat r1 r2 => bt r1 pos s c (fun pos' s' c' => bt r2 pos' s' c' k)
  | Alt r1 r2 =>
      match bt r1 pos s c k with
      | Some m => Some m
      | None => bt r2 pos s c k
      end
  | Opt r1 =>
      match bt r1 pos s c k with
      | Some m => Some m
      | None => k pos s c
      end
  | Star r1 => star_rounds (bt r1) k (length s) pos s c
  | Group i r1 =>
      bt r1 pos s c
         (fun pos' s' c' => k pos' s' ((i, take (pos' - pos)%nat s) :: c'))
  | Eps => k pos s c
  end.
End Matcher.

(** A match object: the end offset and the groups. *)
Record Match : Type := { m_end : nat; m_groups : caps }.

(** A compiled pattern: its text, the tree, the flag and the names of the
    groups. *)
Record Pattern : Type := {
  p_source : string;
  p_regex : regex;
  p_ignorecase : bool;
  p_groupindex : list (string * nat)
}.

(** [pattern.match(subject)] run at offset [pos] of the subject. *)
Definition match_at (p : Pattern) (pos : nat) (s : list N) : option Match :=
  bt (p_ignorecase p) (p_regex p) pos s []
     (fun pos' _ c => Some {| m_end := pos'; m_groups := c |}).

Definition re_match (p : Pattern) (s : list N) : option Match :=
  match_at p 0 s.

Fixpoint assoc {K V} `{EqDecision K} (k : K) (l : list (K * V)) : option V :=
  match l with
  | [] => None
  | (k', v) :: l' => if decide (k = k') then Some v else assoc k l'
  end.

(** [match.group(i)] and [match.group(name)]; [None] is Python's [None] for
    a group that took no part in the match. *)
Definition group_n (m : Match) (i : nat) : option (list N) :=
  assoc i (m_groups m).

Definition group (p : Pattern) (m : Match) (name : string) : option (list N) :=
  match assoc name (p_groupindex p) with
  | Some i => group_n m i
  | None => None
  end.

(** [pattern.findall(subject)] for a pattern with one group: the text of
    group 1 of every match, scanning left to right; after an empty match
    the scan moves on by one character. *)
Fixpoint findall_go (p : Pattern) (fuel : nat) (pos : nat) (s : list N)
  : list (list N) :=
  match fuel with
  | O => []
  | S fuel' =>
      match match_at p pos s with
      | Some m =>
          default [] (group_n m 1) ::
            (if Nat.ltb pos (m_end m)
             then findall_go p fuel' (m_end m) (drop (m_end m - pos)%nat s)
             else match s with
                  | [] => []
                  | _ :: s' => findall_go p fuel' (S pos) s'
                  end)
      | None =>
          match s with
          | [] => []
          | _ :: s' => findall_go p fuel' (S pos) s'
          end
      end
  end.

Definition findall (p : Pattern) (s : list N) : list (list N) :=
  findall_go p (S (length s)) 0 s.

(** ** The module constants *)

(** The summary pattern, compiled with [re.IGNORECASE]; [p_source] is the
    text of the pattern in the module. *)
Definition COMMIT_VALID_SUMMARY_REGEX : Pattern := {|
  p_source := "\A(?P<action>fixes|refs) (?P<issues>#(\d+)(, ?#(\d+))*)(:| -) .*\Z";
  p_regex :=
    Cat Bos
   (Cat (Group 1 (Alt (Lits (chars "fixes")) (Lits (chars "refs"))))
   (Cat (Lit " ")
   (Cat (Group 2
           (Cat (Lit "#")
           (Cat (Group 3 (Plus Digit))
                (Star (Group 4
                   (Cat (Lit ",")
                   (Cat (Opt (Lit " "))
                   (Cat (Lit "#")
                        (Group 5 (Plus Digit))))))))))
   (Cat (Group 6 (Alt (Lit ":") (Lits (chars " -"))))
   (Cat (Lit " ")
   (Cat (Star AnyChar)
        Eos))))));
  p_ignorecase := true;
  p_groupindex := [("action", 1%nat); ("issues", 2%nat)]
|}.

Definition COMMIT_ISSUES_REGEX : Pattern := {|
  p_source := "#(\d+)";
  p_regex := Cat (Lit "#") (Group 1 (Plus Digit));
  p_ignorecase := false;
  p_groupindex := []
|}.

Definition CHECK_NAME : string := "Redmine issues".

Definition WHITELISTED_ORGANIZATIONS : list string := ["theforeman"; "Katello"].

(** ** Commits *)

Record Commit : Type := {
  sha : string;
  message : list N;
  fixes : gset Z;
  refs : gset Z
}.

(** [Commit.subject]: [self.message.splitlines()[0]]. *)
Definition subject (commit : Commit) : result (list N) :=
  match splitlines (message commit) with
  | line :: _ => Ok line
  | [] => Raise IndexError
  end.

(** The two attributes of a commit that hold a set of issue ids. *)
Inductive action_field : Type := Fixes | Refs.

(** [getattr(commit, name)] as far as the loop uses it: the result must be
    one of the two sets, since [.add] is called on it. *)
Definition getattr_action (name : list N) : result action_field :=
  if decide (name = codes "fixes") then Ok Fixes
  else if decide (name = codes "refs") then Ok Refs
  else Raise (AttributeError (utf8 name)).

Definition action_add (commit : Commit) (f : action_field) (issue : Z) : Commit :=
  match f with
  | Fixes => {| sha := sha commit; message := message commit;
                fixes := {[issue]} ∪ fixes commit; refs := refs commit |}
  | Refs => {| sha := sha commit; message := message commit;
               fixes := fixes commit; refs := {[issue]} ∪ refs commit |}
  end.

(** The body of the loop of [get_commits_from_pull_request] for one item of
    the commit list: build the [Commit], match the subject, fill the set the
    action word names. *)
Definition parse_commit (item_sha : string) (item_message : list N) : result Commit :=
  let commit := {| sha := item_sha; message := item_message;
                   fixes := ∅; refs := ∅ |} in
  rbind (subject commit) (fun subj =>
  match re_match COMMIT_VALID_SUMMARY_REGEX subj with
  | Some m =>
      match group COMMIT_VALID_SUMMARY_REGEX m "action" with
      | None => Raise (AttributeError "lower")
      | Some word =>
          rbind (getattr_action (lower word)) (fun action =>
          rbind (rmapM int
                   (findall COMMIT_ISSUES_REGEX
                      (default [] (group COMMIT_VALID_SUMMARY_REGEX m "issues"))))
                (fun issues => Ok (fold_left (fun cm i => action_add cm action i) issues commit)))
      end
  | None => Ok commit
  end).

(** A commit without a reference. *)
Definition no_reference (commit : Commit) : bool :=
  bool_decide (fixes commit = ∅) && bool_decide (refs commit = ∅).

(** ** Records of the two boundaries *)

(** [Config], one entry of the repository table. *)
Record Config : Type := {
  cfg_project : option string;
  cfg_required : bool;
  cfg_refs : gset string;
  cfg_version_prefix : option string
}.

(** [Config()]: the defaults of the dataclass. *)
Definition Config_default : Config :=
  {| cfg_project := None; cfg_required := false; cfg_refs := ∅;
     cfg_version_prefix := None |}.

(** The keys of a pull request payload the module reads. *)
Record PullRequest : Type := {
  pr_number : Z;
  pr_title : string;
  pr_html_url : string;
  pr_user_login : string;
  pr_merged : bool;
  pr_commits_url : string;
  pr_head_ref : string;
  pr_head_sha : string;
  pr_base_ref : string;
  pr_base_repo_full_name : string;
  pr_base_repo_url : string
}.

(** A check run as the platform returns it: [cr_output_text] is
    [check_run['output'].get('text')]. *)
Record CheckRun : Type := {
  cr_url : string;
  cr_status : string;
  cr_output_text : option string
}.

Record Project : Type := {
  proj_id : Z;
  proj_name : string;
  proj_url : string
}.

Record CustomField : Type := {
  cf_id : Z;
  cf_value : list string
}.

(** A tracker issue; [assigned_to] is [None] when the attribute is absent
    ([hasattr(issue, 'assigned_to')] is false). *)
Record Issue : Type := {
  issue_id : Z;
  issue_subject : string;
  issue_url : string;
  issue_project : Project;
  issue_status_id : Z;
  custom_fields : list CustomField;
  assigned_to : option Z
}.

(** [IssueValidation], the result of [verify_issues]. *)
Record IssueValidation : Type := {
  valid_issues : list Issue;
  invalid_project_issues : list Issue;
  missing_issue_ids : list Z;
  iv_project : Project
}.

Record Version : Type := {
  version_id : Z;
  version_name : string
}.

(** The keyword arguments of [issue.save]: a key is present when its field
    is [Some]. *)
Record Updates : Type := {
  u_custom_fields : option (list CustomField);
  u_assigned_to_id : option Z;
  u_status_id : option Z
}.


(** Truth value of the [updates] dict: it has at least one key. *)
Definition updates_nonempty (u : Updates) : bool :=
  bool_decide (is_Some (u_custom_fields u)) ||
  bool_decide (is_Some (u_assigned_to_id u)) ||
  bool_decide (is_Some (u_status_id u)).

(** The [output] block of a check run; [text] is [None] when the key is
    left out of the payload. *)
Record Output : Type := {
  title : string;
  summary : string;
  text : option string
}.

(** The two payloads sent to the check-run endpoints. *)
Record InProgressData : Type := {
  d_name : string;
  d_head_branch : string;
  d_head_sha : string;
  d_status : string;
  d_started_at : string
}.

Record CompletedData : Type := {
  c_status : string;
  c_head_branch : string;
  c_head_sha : string;
  c_completed_at : string;
  c_conclusion : string;
  c_output : Output
}.

Inductive payload : Type :=
| PInProgress (d : InProgressData)
| PCompleted (d : CompletedData).

Definition payload_status (p : payload) : string :=
  match p with
  | PInProgress d => d_status d
  | PCompleted d => c_status d
  end.

(** The enumeration [Status] of the tracker module: [Status_of_id i] is
    [Status(i)], which raises [ValueError] for a number that is no member. *)
Class StatusEnum : Type := {
  Status : Type;
  Status_eq_dec :: EqDecision Status;
  Status_of_id : Z -> option Status;
  Status_value : Status -> Z;
  Status_of_value : forall s, Status_of_id (Status_value s) = Some s;
  is_rejected : Status -> bool;
  is_closed : Status -> bool;
  READY_FOR_TESTING : Status
}.

(** ** Calls that leave the process *)

Inductive event : Type :=
| GetItem (url : string)
| Post (url : string) (data : payload)
| Patch (url : string) (data : payload)
| Sleep (seconds : Z)
| Log (level : string) (msg : string)
| VerifyIssues (config : Config) (issue_ids : gset Z)
| IssueSave (issue : Z) (updates : Updates)
| ProjectGet (name : string)
| GetLatestOpenVersion (proj : Z) (prefix : string)
| GetIssues (issue_ids : gset Z)
| SetFixedInVersion (issue : Z) (version : Version).

(** The answers of the outside world.  [W] is its state; every operation may
    change it, and the fallible ones may raise. *)
Record Env (W : Type) : Type := {
  api_getitem : string -> W -> result (list (string * list N)) * W;
  api_post : string -> payload -> W -> result CheckRun * W;
  api_patch : string -> payload -> W -> result unit * W;
  clock_now : W -> string * W;
  sleep_for : Z -> W -> W;
  redmine_verify_issues : Config -> gset Z -> W -> result IssueValidation * W;
  redmine_issue_save : Issue -> Updates -> W -> result unit * W;
  redmine_project_get : string -> W -> result Project * W;
  redmine_get_latest_open_version : Project -> string -> W -> result (option Version) * W;
  redmine_get_issues : gset Z -> W -> result (list Issue) * W;
  redmine_set_fixed_in_version : Issue -> Version -> W -> result unit * W
}.
Arguments api_getitem {W}.
Arguments api_post {W}.
Arguments api_patch {W}.
Arguments clock_now {W}.
Arguments sleep_for {W}.
Arguments redmine_verify_issues {W}.
Arguments redmine_issue_save {W}.
Arguments redmine_project_get {W}.
Arguments redmine_get_latest_open_version {W}.
Arguments redmine_get_issues {W}.
Arguments redmine_set_fixed_in_version {W}.

(** ** The monad of the handlers: state of the world, trace, exceptions

    A computation takes the world and returns its result, the world it
    leaves and the calls it has made, in order. *)

Definition M (W A : Type) : Type := W -> result A * W * list event.

Definition ret {W A} (a : A) : M W A := fun w => (Ok a, w, []).

Definition raise {W A} (e : exn) : M W A := fun w => (Raise e, w, []).

Definition bind {W A B} (m : M W A) (f : A -> M W B) : M W B :=
  fun w =>
    match m w with
    | (Ok a, w', t) => let '(r, w'', t') := f a w' in (r, w'', t ++ t')
    | (Raise e, w', t) => (Raise e, w', t)
    end.

(** [try: m except e: h e]. *)
Definition try_except {W A} (m : M W A) (h : exn -> M W A) : M W A :=
  fun w =>
    match m w with
    | (Ok a, w', t) => (Ok a, w', t)
    | (Raise e, w', t) => let '(r, w'', t') := h e w' in (r, w'', t ++ t')
    end.

(** [try: m except e: h e else: els a], where [a] stands for the variables
    the protected block has bound; [els] runs outside the protection. *)
Definition try_except_else {W A B} (m : M W A) (h : exn -> M W B) (els : A -> M W B)
  : M W B :=
  fun w =>
    match m w with
    | (Ok a, w', t) => let '(r, w'', t') := els a w' in (r, w'', t ++ t')
    | (Raise e, w', t) => let '(r, w'', t') := h e w' in (r, w'', t ++ t')
    end.

(** A pure computation that may raise. *)
Definition lift {W A} (r : result A) : M W A := fun w => (r, w, []).

(** A call across a boundary: the world answers, the call is recorded. *)
Definition call {W A} (ev : event) (op : W -> result A * W) : M W A :=
  fun w => let '(r, w') := op w in (r, w', [ev]).

(** A look at the outside that cannot fail and is not recorded (the clock). *)
Definition ask {W A} (op : W -> A * W) : M W A :=
  fun w => let '(a, w') := op w in (Ok a, w', []).

Definition log {W} (level msg : string) : M W unit :=
  fun w => (Ok tt, w, [Log level msg]).

(** [await asyncio.sleep(seconds)]. *)
Definition sleep {W} (sleep_for : Z -> W -> W) (seconds : Z) : M W unit :=
  fun w => (Ok tt, sleep_for seconds w, [Sleep seconds]).

(** What a run returns, the world it leaves, the calls it made. *)
Definition outcome {W A} (x : result A * W * list event) : result A := fst (fst x).
Definition final {W A} (x : result A * W * list event) : W := snd (fst x).
Definition events {W A} (x : result A * W * list event) : list event := snd x.

Declare Scope prp_scope.
Delimit Scope prp_scope with prp.
Notation "x <- m ;; k" := (bind m (fun x => k))
  (at level 100, m at next level, right associativity) : prp_scope.
Notation "m ;; k" := (bind m (fun _ => k))
  (at level 100, k at level 200, right associativity) : prp_scope.

Local Open Scope prp_scope.

(** [for x in l: body x]. *)
Fixpoint for_each {W A} (l : list A) (body : A -> M W unit) : M W unit :=
  match l with
  | [] => ret tt
  | x :: l' => body x ;; for_each l' body
  end.

(** ** More string helpers *)

Definition nl : string := String "010"%char EmptyString.

(** [sep.join(l)]. *)
Fixpoint join (sep : string) (l : list string) : string :=
  match l with
  | [] => ""
  | [x] => x
  | x :: l' => x +:+ sep +:+ join sep l'
  end.

(** [s.split(sep, 1)]: cut at the first separator, if there is one. *)
Fixpoint split1_go (sep : ascii) (acc s : list ascii) : list (list ascii) :=
  match s with
  | [] => [acc]
  | c :: s' => if ascii_eqb c sep then [acc; s'] else split1_go sep (acc ++ [c]) s'
  end.

Definition split1 (sep : ascii) (s : list ascii) : list (list ascii) :=
  split1_go sep [] s.

(** Truth values of optional strings and numbers. *)
Definition truthy_str (o : option string) : bool :=
  match o with
  | Some s => negb (bool_decide (s = ""))
  | None => false
  end.

Definition truthy_int (o : option Z) : bool :=
  match o with
  | Some z => negb (z =? 0)
  | None => false
  end.

(** [range(a, b)]. *)
Definition range (a b : Z) : list Z := seqZ a (b - a).

(** A line of the summary: the formatters give strings, the missing issue
    ids are numbers; [str_line] is what an f-string makes of either. *)
Inductive line : Type :=
| LStr (s : string)
| LInt (i : Z).

Definition str_line (l : line) : string :=
  match l with
  | LStr s => s
  | LInt i => pretty i
  end.

(** ** The functions of the module that touch no boundary *)

(** [pr_is_cherry_pick] *)
Definition pr_is_cherry_pick (pull_request : PullRequest) : bool :=
  let t := chars (pr_title pull_request) in
  startswith t (chars "CP") || startswith t (chars "[CP]") ||
  startswith t (chars "Cherry picks for ").

(** [summarize] *)
Definition summarize (summary : list (string * list line)) (show_headers : bool)
  : list string :=
  flat_map (fun entry =>
    match snd entry with
    | [] => []
    | lines =>
        (if show_headers then ["### " +:+ fst entry] else []) ++
        map (fun l => "* " +:+ str_line l) lines
    end) summary.

(** [format_invalid_commit_messages] *)
Definition format_invalid_commit_messages (commits : list Commit) : list line :=
  map (fun commit =>
         LStr (sha commit +:+ " must be in the format `fixes #redmine - brief description`"))
      commits.

(** [sorted(issues, key=lambda issue: issue.id)]: a stable insertion sort. *)
Fixpoint insert_by_id (x : Issue) (l : list Issue) : list Issue :=
  match l with
  | [] => [x]
  | y :: l' => if issue_id y <=? issue_id x then y :: insert_by_id x l' else x :: y :: l'
  end.

Definition sorted_by_id (issues : list Issue) : list Issue :=
  fold_left (fun acc x => insert_by_id x acc) issues [].

(** [format_redmine_issues] *)
Definition format_redmine_issues (issues : list Issue) : list line :=
  map (fun issue =>
         LStr ("[#" +:+ pretty (issue_id issue) +:+ ": " +:+ issue_subject issue +:+
               "](" +:+ issue_url issue +:+ ")"))
      (sorted_by_id issues).

(** [format_details] *)
Definition format_details (invalid_issues : list Issue) (correct_project : Project)
  : string :=
  join nl
    (map (fun issue =>
       let n := pretty (issue_id issue) in
       let u := issue_url issue in
       "### [#" +:+ n +:+ ": " +:+ issue_subject issue +:+ "](" +:+ u +:+ ")" +:+ nl +:+
       nl +:+
       "* check [#" +:+ n +:+ "](" +:+ u +:+ ") is the intended issue" +:+ nl +:+
       "* move [ticket #" +:+ n +:+ "](" +:+ u +:+ ") from " +:+
         proj_name (issue_project issue) +:+ " to the " +:+ proj_name correct_project +:+
         " project" +:+ nl +:+
       "* or file a new ticket in the [" +:+ proj_name correct_project +:+ " project](" +:+
         proj_url correct_project +:+ "/issues/new)" +:+ nl)
       invalid_issues).

(** The part of [run_pull_request_check] after the tracker update: from the
    findings to the conclusion and the output block. *)
Definition make_summary (issue_results : IssueValidation) (invalid_commits : list Commit)
  : list (string * list line) :=
  [ ("Invalid commits", format_invalid_commit_messages invalid_commits);
    ("Invalid project", format_redmine_issues (invalid_project_issues issue_results));
    ("Issues not found in redmine", map LInt (missing_issue_ids issue_results));
    ("Valid issues", format_redmine_issues (valid_issues issue_results)) ].

Definition non_empty_titles (summary : list (string * list line)) : list string :=
  map fst (filter (fun entry => snd entry <> []) summary).

Definition report (check_run : CheckRun) (issue_results : IssueValidation)
    (invalid_commits : list Commit) : string * Output :=
  let summary := make_summary issue_results invalid_commits in
  let non_empty := non_empty_titles summary in
  let multiple_sections := negb (Nat.eqb (length non_empty) 1) in
  let conclusion :=
    if existsb (fun header => negb (bool_decide (header = "Valid issues"))) non_empty
    then "failure" else "success" in
  let details := format_details (invalid_project_issues issue_results)
                                (iv_project issue_results) in
  (conclusion,
   {| title := if multiple_sections then "Redmine Issue Report"
               else default "" (head non_empty);
      summary := join nl (summarize summary multiple_sections);
      text := if bool_decide (details = "") && negb (truthy_str (cr_output_text check_run))
              then None else Some details |}).

(** The two fixed outputs of [run_pull_request_check] and the payload of
    its closing patch. *)
Definition unknown_repository_output : Output :=
  {| title := "Unknown repository";
     summary := "Contact us via [Discourse](https://community.theforeman.org]";
     text := None |}.

Definition internal_error_output : Output :=
  {| title := "Internal error while testing";
     summary := "Please retry later";
     text := None |}.

Definition completion (pull_request : PullRequest) (completed_at conclusion : string)
    (output : Output) : payload :=
  PCompleted
    {| c_status := "completed";
       c_head_branch := pr_head_ref pull_request;
       c_head_sha := pr_head_sha pull_request;
       c_completed_at := completed_at;
       c_conclusion := conclusion;
       c_output := output |}.

Section Handlers.
Context `{StatusEnum}.
Context {W : Type} (env : Env W).

(** The tables read at import time and the parts of the package that
    the module imports: [CONFIG] and [USERS] come from the two YAML files,
    [PULL_REQUEST] is [Field.PULL_REQUEST], [strip_suffix] is
    [prprocessor.compat.strip_suffix]. *)
Variable CONFIG : gmap string Config.
Variable USERS : gmap string Z.
Variable PULL_REQUEST : Z.
Variable strip_suffix : string -> string -> string.

Abbreviation M := (M W).

(** [get_config] *)
Definition get_config (repository : string) : M Config :=
  match CONFIG !! repository with
  | Some config => ret config
  | None =>
      match split1 "/" (chars repository) with
      | [user; _] =>
          if bool_decide (str_of user ∈ WHITELISTED_ORGANIZATIONS)
          then ret Config_default
          else
            log "info" "The repository %s is unconfigured and user %s not whitelisted" ;;
            raise (UnconfiguredRepository
                     ("The repository " +:+ repository +:+ " is unconfigured"))
      | _ => raise (ValueError "not enough values to unpack (expected 2, got 1)")
      end
  end.

(** [get_commits_from_pull_request].  The generator fetches the list, then
    builds and yields one commit per step; what its consumers do between
    two steps touches local variables only, so the commits are handed over
    as one list. *)
Definition get_commits_from_pull_request (pull_request : PullRequest)
  : M (list Commit) :=
  items <- call (GetItem (pr_commits_url pull_request))
                (api_getitem env (pr_commits_url pull_request)) ;;
  lift (rmapM (fun item => parse_commit (fst item) (snd item)) items).

(** [set_check_in_progress] *)
Definition set_check_in_progress (pull_request : PullRequest)
    (check_run : option CheckRun) : M CheckRun :=
  started_at <- ask (clock_now env) ;;
  let data := PInProgress
    {| d_name := CHECK_NAME;
       d_head_branch := pr_head_ref pull_request;
       d_head_sha := pr_head_sha pull_request;
       d_status := "in_progress";
       d_started_at := started_at |} in
  match check_run with
  | Some check_run =>
      (if negb (bool_decide (cr_status check_run = "in_progress"))
       then call (Patch (cr_url check_run) data) (api_patch env (cr_url check_run) data)
       else ret tt) ;;
      ret check_run
  | None =>
      let url := pr_base_repo_url pull_request +:+ "/check-runs" in
      call (Post url data) (api_post env url data)
  end.

(** [get_issues_from_pr] *)
Definition get_issues_from_pr (pull_request : PullRequest)
  : M (IssueValidation * list Commit) :=
  config <- get_config (pr_base_repo_full_name pull_request) ;;
  commits <- get_commits_from_pull_request pull_request ;;
  let acc :=
    fold_left (fun (acc : gset Z * list Commit) commit =>
      let issue_ids := fst acc ∪ fixes commit ∪ refs commit in
      if cfg_required config && bool_decide (fixes commit = ∅) && bool_decide (refs commit = ∅)
      then (issue_ids, snd acc ++ [commit])
      else (issue_ids, snd acc))
      commits (∅, []) in
  issue_results <- call (VerifyIssues config (fst acc))
                        (redmine_verify_issues env config (fst acc)) ;;
  ret (issue_results, snd acc).

(** The changes [update_redmine_on_issues] wants for one issue whose
    status is not rejected: the body of the loop up to [if updates]. *)
Definition issue_updates (pull_request : PullRequest) (issue : Issue)
    (status : Status) : result Updates :=
  let pr_url := pr_html_url pull_request in
  let assignee := USERS !! pr_user_login pull_request in
  rbind
    (if negb (pr_is_cherry_pick pull_request) then
       match find (fun f => cf_id f =? PULL_REQUEST) (custom_fields issue) with
       | None => Raise (AttributeError "value")
       | Some pr_field =>
           if bool_decide (pr_url ∈ cf_value pr_field) then Ok None
           else Ok (Some [ {| cf_id := cf_id pr_field;
                              cf_value := cf_value pr_field ++ [pr_url] |} ])
       end
     else Ok None)
    (fun fields =>
       Ok {| u_custom_fields := fields;
             u_assigned_to_id :=
               if truthy_int assignee && bool_decide (assigned_to issue = None)
               then assignee else None;
             u_status_id :=
               if negb (is_closed status || bool_decide (status = READY_FOR_TESTING))
               then Some (Status_value READY_FOR_TESTING) else None |}).

(** [update_redmine_on_issues] *)
Definition update_redmine_on_issues (pull_request : PullRequest)
    (issues : list Issue) : M unit :=
  for_each issues (fun issue =>
    match Status_of_id (issue_status_id issue) with
    | None => raise (ValueError "is not a valid Status")
    | Some status =>
        if negb (is_rejected status) then
          updates <- lift (issue_updates pull_request issue status) ;;
          if updates_nonempty updates then
            log "info" "Updating issue %s: %s" ;;
            call (IssueSave (issue_id issue) updates)
                 (redmine_issue_save env issue updates)
          else log "debug" "Redmine issue %s already in sync"
        else ret tt
    end).

(** The retry loop of [run_pull_request_check]: [for attempt in rounds].
    With [rounds = range(1, attempts + 1)] the last round re-raises, so
    the loop never runs out. *)
Fixpoint attempt_loop (pull_request : PullRequest) (attempts : Z)
    (rounds : list Z) : M (IssueValidation * list Commit) :=
  match rounds with
  | [] => raise (UnboundLocalError "issue_results")
  | attempt :: rounds' =>
      try_except (get_issues_from_pr pull_request)
        (fun e =>
           if attempt =? attempts then raise e
           else
             log "exception" "Failure during validation of PR (attempt %s)" ;;
             sleep (sleep_for env) attempt ;;
             attempt_loop pull_request attempts rounds')
  end.

(** [run_pull_request_check] *)
Definition run_pull_request_check (pull_request : PullRequest)
    (check_run : option CheckRun) : M unit :=
  check_run <- set_check_in_progress pull_request check_run ;;
  let conclusion := "failure" in
  let attempts := 3 in
  verdict <-
    try_except_else
      (attempt_loop pull_request attempts (range 1 (attempts + 1)))
      (fun e =>
         if is_UnconfiguredRepository e then
           ret (conclusion, unknown_repository_output)
         else
           log "exception" "Failure during validation of PR" ;;
           ret (conclusion, internal_error_output))
      (fun found =>
         try_except
           (update_redmine_on_issues pull_request (valid_issues (fst found)))
           (fun _ => log "exception" "Failed to update Redmine issues") ;;
         ret (report check_run (fst found) (snd found))) ;;
  completed_at <- ask (clock_now env) ;;
  let data := completion pull_request completed_at (fst verdict) (snd verdict) in
  call (Patch (cr_url check_run) data) (api_patch env (cr_url check_run) data).

(** The branch test of [on_pr_merge]: the version prefix of the target
    branch, [None] for a branch the handler does not act on. *)
Definition branch_version_prefix (target_branch : string) : option string :=
  if endswith (chars target_branch) (chars "-stable")
  then Some (strip_suffix target_branch "-stable" +:+ ".")
  else if bool_decide (target_branch ∈
            ["main"; "master"; "develop"; "deb/develop"; "rpm/develop"])
  then Some ""
  else None.

(** The loop of [on_pr_merge] over the commits:
    [issue_ids.update(commit.fixes)]. *)
Definition fixes_of (commits : list Commit) : gset Z :=
  fold_left (fun (issue_ids : gset Z) commit => issue_ids ∪ fixes commit) commits ∅.

(** The loop of [on_pr_merge] over the issues. *)
Definition set_fixed_in_versions (proj : Project) (fixed_in_version : Version)
    (issues : list Issue) : M unit :=
  for_each issues (fun issue =>
    if proj_id (issue_project issue) =? proj_id proj then
      log "info" "Setting fixed in version for issue %s to %s" ;;
      call (SetFixedInVersion (issue_id issue) fixed_in_version)
           (redmine_set_fixed_in_version env issue fixed_in_version)
    else ret tt).

(** [on_pr_merge].  [get_redmine()] builds the client and
    [redmine.project.get] asks the tracker; the two are one call here. *)
Definition on_pr_merge (pull_request : PullRequest) : M unit :=
  if negb (pr_merged pull_request) then
    log "debug" "Pull request %s was closed, not merged"
  else
    let repository := pr_base_repo_full_name pull_request in
    let target_branch := pr_base_ref pull_request in
    match branch_version_prefix target_branch with
    | None => log "info" "Unable to set fixed in version for %s branch %s in PR %s"
    | Some version_prefix =>
        try_except_else (get_config repository)
          (fun e => if is_UnconfiguredRepository e then ret tt else raise e)
          (fun config =>
             if negb (truthy_str (cfg_project config)) then
               log "info" "Repository for %s not found"
             else
               let version_prefix :=
                 if truthy_str (cfg_version_prefix config)
                 then default "" (cfg_version_prefix config) +:+ version_prefix
                 else version_prefix in
               commits <- get_commits_from_pull_request pull_request ;;
               let issue_ids := fixes_of commits in
               if negb (bool_decide (issue_ids = ∅)) then
                 let key := default "" (cfg_project config) in
                 proj <- call (ProjectGet key) (redmine_project_get env key) ;;
                 fixed_in_version <-
                   call (GetLatestOpenVersion (proj_id proj) version_prefix)
                        (redmine_get_latest_open_version env proj version_prefix) ;;
                 match fixed_in_version with
                 | None => log "info" "Unable to determine latest version for %s; prefix=%s"
                 | Some fixed_in_version =>
                     issues <- call (GetIssues issue_ids) (redmine_get_issues env issue_ids) ;;
                     set_fixed_in_versions proj fixed_in_version issues
                 end
               else ret tt)
    end.

End Handlers.

(** ** The handlers that start a check *)

Section Triggers.
Context `{StatusEnum}.
Context {W : Type} (env : Env W).
Variable CONFIG : gmap string Config.
Variable USERS : gmap string Z.
Variable PULL_REQUEST : Z.

(** [github_api.getitem] on the URL of a pull request, and on the URL of
    the check runs of a suite: the answer to the latter is the list under
    [check_runs], each run with its [name]. *)
Variable api_get_pull_request : string -> W -> result PullRequest * W.
Variable api_get_check_runs : string -> W -> result (list (string * CheckRun)) * W.

(** [on_pr_modified] *)
Definition on_pr_modified (pull_request : PullRequest) : M W unit :=
  run_pull_request_check env CONFIG USERS PULL_REQUEST pull_request None.

(** The loop of [on_check_run] and of [on_suite_run] over the summaries
    of the pull requests, each given by its [url]. *)
Definition check_pull_requests (pull_requests : list string)
    (check_run : option CheckRun) : M W unit :=
  for_each pull_requests (fun url =>
    pull_request <- call (GetItem url) (api_get_pull_request url) ;;
    run_pull_request_check env CONFIG USERS PULL_REQUEST pull_request check_run).

(** [on_check_run]: [pull_requests] is [check_run['pull_requests']]. *)
Definition on_check_run (check_run : CheckRun) (pull_requests : list string)
  : M W unit :=
  (match pull_requests with
   | [] => log "warning" "Received check_run without PRs"
   | _ :: _ => ret tt
   end) ;;
  check_pull_requests pull_requests (Some check_run).

(** [on_suite_run]: [check_runs_url] and [pull_requests] are the two keys
    of the suite; the [for ... else] takes the first run named
    [CHECK_NAME], or [None]. *)
Definition on_suite_run (check_runs_url : string) (pull_requests : list string)
  : M W unit :=
  check_runs <- call (GetItem check_runs_url) (api_get_check_runs check_runs_url) ;;
  let check_run :=
    option_map snd (find (fun run => bool_decide (fst run = CHECK_NAME)) check_runs) in
  (match pull_requests with
   | [] => log "warning" "Received check_suite without PRs"
   | _ :: _ => ret tt
   end) ;;
  check_pull_requests pull_requests check_run.

End Triggers.

(** ** Observations on a list of calls *)

(** A write to a check-run endpoint. *)
Definition check_write (ev : event) : bool :=
  match ev with
  | Post _ _ | Patch _ _ => true
  | _ => false
  end.

(** A patch that completes a check run. *)
Definition is_completion (ev : event) : bool :=
  match ev with
  | Patch _ (PCompleted _) => true
  | _ => false
  end.

Definition is_sleep (ev : event) : bool :=
  match ev with
  | Sleep _ => true
  | _ => false
  end.

(** A write to the tracker. *)
Definition tracker_write (ev : event) : bool :=
  match ev with
  | IssueSave _ _ | SetFixedInVersion _ _ => true
  | _ => false
  end.

(** A post to a check-run endpoint. *)
Definition is_post (ev : event) : bool :=
  match ev with
  | Post _ _ => true
  | _ => false
  end.

(** A call that creates no check run and patches none but the one at
    [url]. *)
Definition writes_to (url : string) (ev : event) : Prop :=
  match ev with
  | Post _ _ => False
  | Patch target _ => target = url
  | _ => True
  end.

(** ** The tracker behind the boundary *)

Module Tracker.

(** The projects by key, the issues by number, the open versions. *)
Record t : Type := {
  projects : gmap string Project;
  issues : gmap Z Issue;
  open_versions : gmap Z (list Version)   (* by project, oldest first *)
}.

Definition sort_ids (ids : list Z) : list Z := merge_sort Z.le ids.

(** Is the issue in the target project or in one of the extra accepted
    projects? *)
Definition accepted (config : Config) (target : Project) (issue : Issue) : bool :=
  bool_decide (proj_name (issue_project issue) = proj_name target) ||
  bool_decide (proj_name (issue_project issue) ∈ cfg_refs config).

(** Modelled from the spec: [verify_issues] of [prprocessor.redmine],
    which the sources at hand do not contain.  The policy's project is
    resolved first (an unset or unknown one fails); then every requested
    id goes to exactly one part: no such issue, issue of a project that is
    neither the target nor an extra accepted one, valid issue; the parts
    are in ascending order of the ids. *)
Definition verify_issues (tr : t) (config : Config) (issue_ids : gset Z)
  : result IssueValidation :=
  match cfg_project config ≫= (fun key => projects tr !! key) with
  | None => Raise (BoundaryError "UnknownProject")
  | Some target =>
      let ids := sort_ids (elements issue_ids) in
      let found := omap (fun i => issues tr !! i) ids in
      Ok {| valid_issues := List.filter (accepted config target) found;
            invalid_project_issues :=
              List.filter (fun issue => negb (accepted config target issue)) found;
            missing_issue_ids :=
              List.filter (fun i => bool_decide (issues tr !! i = None)) ids;
            iv_project := target |}
  end.

(** Modelled from the spec: the partial field update of the tracker's
    issue save.  A listed custom field takes the new value, the assignee
    and the status are set when they are given, the rest stays. *)
Definition apply_updates (u : Updates) (issue : Issue) : Issue :=
  {| issue_id := issue_id issue;
     issue_subject := issue_subject issue;
     issue_url := issue_url issue;
     issue_project := issue_project issue;
     issue_status_id := default (issue_status_id issue) (u_status_id u);
     custom_fields :=
       map (fun f =>
              match find (fun g => cf_id g =? cf_id f) (default [] (u_custom_fields u)) with
              | Some g => g
              | None => f
              end)
           (custom_fields issue);
     assigned_to :=
       match u_assigned_to_id u with
       | Some a => Some a
       | None => assigned_to issue
       end |}.

Definition save (issue : Issue) (u : Updates) (tr : t) : t :=
  {| projects := projects tr;
     issues := <[issue_id issue := apply_updates u issue]> (issues tr);
     open_versions := open_versions tr |}.

(** Modelled from the spec: [get_latest_open_version] of
    [prprocessor.redmine]: the latest open version of the project whose
    name starts with the prefix. *)
Definition get_latest_open_version (tr : t) (proj : Project) (prefix : string)
  : option Version :=
  last (List.filter (fun v => startswith (chars (version_name v)) (chars prefix))
                    (default [] (open_versions tr !! proj_id proj))).

(** Modelled from the spec: [strip_suffix] of [prprocessor.compat]: the
    string without the suffix, when it ends with it. *)
Definition strip_suffix (s suffix : string) : string :=
  if endswith (chars s) (chars suffix)
  then str_of (take (length (chars s) - length (chars suffix)) (chars s))
  else s.

(** A platform that hands out [items] as the commits of every pull
    request and accepts every write, in front of the tracker [t]. *)
Definition env (items : list (string * list N)) : Env t := {|
  api_getitem := fun _ tr => (Ok items, tr);
  api_post := fun url data tr =>
    (Ok {| cr_url := url +:+ "/1"; cr_status := payload_status data;
           cr_output_text := None |}, tr);
  api_patch := fun _ _ tr => (Ok tt, tr);
  clock_now := fun tr => ("2020-02-02T02:02:02+00:00", tr);
  sleep_for := fun _ tr => tr;
  redmine_verify_issues := fun config ids tr => (verify_issues tr config ids, tr);
  redmine_issue_save := fun issue u tr => (Ok tt, save issue u tr);
  redmine_project_get := fun key tr =>
    (match projects tr !! key with
     | Some p => Ok p
     | None => Raise (BoundaryError "ResourceNotFoundError")
     end, tr);
  redmine_get_latest_open_version := fun proj prefix tr =>
    (Ok (get_latest_open_version tr proj prefix), tr);
  redmine_get_issues := fun ids tr =>
    (Ok (omap (fun i => issues tr !! i) (sort_ids (elements ids))), tr);
  redmine_set_fixed_in_version := fun _ _ tr => (Ok tt, tr)
|}.

End Tracker.



Definition is_issue_save (ev : event) : bool :=
  match ev with
  | IssueSave _ _ => true
  | _ => false
  end.

(** An enumeration of statuses for the examples. *)
Inductive example_status : Type :=
| NEW | CLOSED | REJECTED | TESTING.

#[local] Instance example_status_eq_dec : EqDecision example_status.
Proof. solve_decision. Defined.

#[local] Instance example_statuses : StatusEnum := {|
  Status := example_status;
  Status_of_id := fun i =>
    if i =? 1 then Some NEW else if i =? 5 then Some CLOSED
    else if i =? 6 then Some REJECTED else if i =? 7 then Some TESTING else None;
  Status_value := fun s =>
    match s with NEW => 1 | CLOSED => 5 | REJECTED => 6 | TESTING => 7 end;
  Status_of_value := fun s =>
    match s with NEW | CLOSED | REJECTED | TESTING => eq_refl end;
  is_rejected := fun s => bool_decide (s = REJECTED);
  is_closed := fun s => bool_decide (s = CLOSED) || bool_decide (s = REJECTED);
  READY_FOR_TESTING := TESTING
|}.

(** A pull request against [full_name] for the examples. *)
Definition example_pr (full_name title base_ref : string) (merged : bool) : PullRequest :=
  {| pr_number := 42;
     pr_title := title;
     pr_html_url := "https://github.com/" +:+ full_name +:+ "/pull/42";
     pr_user_login := "alice";
     pr_merged := merged;
     pr_commits_url := "https://api.github.com/repos/" +:+ full_name +:+ "/pulls/42/commits";
     pr_head_ref := "topic";
     pr_head_sha := "c0ffee";
     pr_base_ref := base_ref;
     pr_base_repo_full_name := full_name;
     pr_base_repo_url := "https://api.github.com/repos/" +:+ full_name |}.

Definition example_project (id : Z) (name : string) : Project :=
  {| proj_id := id; proj_name := name;
     proj_url := "https://projects.theforeman.org/projects/" +:+ name |}.

(** An issue with an empty linked-PR field (custom field 7) and no
    assignee. *)
Definition example_issue (id : Z) (proj : Project) (status_id : Z) : Issue :=
  {| issue_id := id;
     issue_subject := "Crash on start";
     issue_url := "https://projects.theforeman.org/issues/" +:+ pretty id;
     issue_project := proj;
     issue_status_id := status_id;
     custom_fields := [ {| cf_id := 7; cf_value := [] |} ];
     assigned_to := None |}.

(** A tracker with the projects [foo] and [bar], issue 55 in [bar], issue
    10 in [foo], and three open versions of [foo]. *)
Definition example_tracker : Tracker.t :=
  let foo := example_project 1 "foo" in
  let bar := example_project 2 "bar" in
  {| Tracker.projects := {[ "foo" := foo; "bar" := bar ]};
     Tracker.issues := {[ 55 := example_issue 55 bar 1; 10 := example_issue 10 foo 1 ]};
     Tracker.open_versions :=
       {[ 1 := [ {| version_id := 30; version_name := "3.0.4" |};
                 {| version_id := 31; version_name := "3.0.5" |};
                 {| version_id := 40; version_name := "3.1.0" |} ] ]} |}.

(** The policy table of the examples: one repository, tracker project
    [foo]. *)
Definition example_config (required : bool) : gmap string Config :=
  {[ "theforeman/foo" :=
       {| cfg_project := Some "foo"; cfg_required := required; cfg_refs := ∅;
          cfg_version_prefix := None |} ]}.

Definition empty_tracker : Tracker.t :=
  {| Tracker.projects := ∅; Tracker.issues := ∅; Tracker.open_versions := ∅ |}.

(** ** What a pattern matches

    [Matches ic r pos w rest]: at offset [pos], with [rest] after it, the
    text [w] is one of the texts [r] stands for.  This is the reading of a
    pattern as a set of texts, without the order in which [bt] tries them. *)

Inductive Matches (ic : bool) : regex -> nat -> list N -> list N -> Prop :=
| M_Lit a x pos rest :
    lit_matches ic a x = true -> Matches ic (Lit a) pos [x] rest
| M_AnyChar x pos rest :
    is_LF x = false -> Matches ic AnyChar pos [x] rest
| M_Digit x pos rest :
    is_digit x = true -> Matches ic Digit pos [x] rest
| M_Bos rest : Matches ic Bos 0 [] rest
| M_Eos pos : Matches ic Eos pos [] []
| M_Cat r1 r2 pos w1 w2 rest :
    Matches ic r1 pos w1 (w2 ++ rest) ->
    Matches ic r2 (pos + length w1) w2 rest ->
    Matches ic (Cat r1 r2) pos (w1 ++ w2) rest
| M_AltL r1 r2 pos w rest :
    Matches ic r1 pos w rest -> Matches ic (Alt r1 r2) pos w rest
| M_AltR r1 r2 pos w rest :
    Matches ic r2 pos w rest -> Matches ic (Alt r1 r2) pos w rest
| M_OptSome r pos w rest :
    Matches ic r pos w rest -> Matches ic (Opt r) pos w rest
| M_OptNone r pos rest : Matches ic (Opt r) pos [] rest
| M_StarNil r pos rest : Matches ic (Star r) pos [] rest
| M_StarCons r pos w1 w2 rest :
    Matches ic r pos w1 (w2 ++ rest) ->
    Matches ic (Star r) (pos + length w1) w2 rest ->
    Matches ic (Star r) pos (w1 ++ w2) rest
| M_Group i r pos w rest :
    Matches ic r pos w rest -> Matches ic (Group i r) pos w rest
| M_Eps pos rest : Matches ic Eps pos [] rest.

(** ** Notions of the design document *)

(** The first line of a message; the empty message has none. *)
Definition first_line (message : list N) : option (list N) :=
  head (splitlines message).

(** A number: one digit or more. *)
Definition digits (d : list N) : Prop :=
  d <> [] /\ forallb is_digit d = true.

(** A number that [int] converts: of no more digits than the limit. *)
Definition short (d : list N) : Prop :=
  Z.of_nat (length d) <= int_max_str_digits.

Definition action_name (action : action_field) : string :=
  match action with Fixes => "fixes" | Refs => "refs" end.

(** The action word, whatever the case of its letters. *)
Definition action_word (word : list N) (action : action_field) : Prop :=
  lower word = codes (action_name action).

(** A word that the pattern takes for the action word: letter by letter a
    character that [re.IGNORECASE] lets the letter stand for. *)
Definition spelled (word : list N) (action : action_field) : Prop :=
  Forall2 (fun a x => lit_matches true a x = true) (chars (action_name action)) word.

(** A reference list: [#d0], then [more] tokens, each after a separator. *)
Definition render_more (more : list (list N * list N)) : list N :=
  flat_map (fun sd => fst sd ++ pt "#" :: snd sd) more.

Definition reference_list (sep_ok : list N -> Prop) (reflist : list N)
    (ids : list (list N)) : Prop :=
  exists d0 more,
    reflist = pt "#" :: d0 ++ render_more more /\
    ids = d0 :: map snd more /\
    digits d0 /\
    Forall (fun sd => sep_ok (fst sd) /\ digits (snd sd)) more.

(** A first line [word SPACE reflist mark rest], with [mark] a colon or a
    space and a dash. *)
Definition summary_line (sep_ok rest_ok : list N -> Prop) (line word : list N)
    (ids : list (list N)) : Prop :=
  exists reflist mark rest,
    line = word ++ pt " " :: reflist ++ mark ++ rest /\
    reference_list sep_ok reflist ids /\
    (mark = codes ":" \/ mark = codes " -") /\
    rest_ok rest.

Definition summary_shape (sep_ok rest_ok : list N -> Prop) (line : list N)
    (action : action_field) (ids : list (list N)) : Prop :=
  exists word,
    summary_line sep_ok rest_ok line word ids /\ action_word word action.

(** The grammar in the words of the design document: tokens separated by a
    comma with optional spaces, and any text after the mark. *)
Definition spaced_comma (sep : list N) : Prop :=
  exists n m, sep = replicate n (pt " ") ++ pt "," :: replicate m (pt " ").

Definition claimed_summary : list N -> action_field -> list (list N) -> Prop :=
  summary_shape spaced_comma (fun _ => True).

(** The grammar of the pattern: a comma and at most one space between two
    tokens, and a space (then any text without a line feed) after the
    mark. *)
Definition tight_comma (sep : list N) : Prop :=
  sep = codes "," \/ sep = codes ", ".

Definition spaced_text (rest : list N) : Prop :=
  exists text, rest = pt " " :: text /\ Forall (fun x => is_LF x = false) text.

Definition valid_summary : list N -> action_field -> list (list N) -> Prop :=
  summary_shape tight_comma spaced_text.

(** A line that the summary pattern matches, with the word it takes for
    the action word. *)
Definition matched_summary (line word : list N) (action : action_field)
    (ids : list (list N)) : Prop :=
  summary_line tight_comma spaced_text line word ids /\ spelled word action.

(** The set of the numbers of a list of tokens. *)
Definition ids_of (ids : list (list N)) : gset Z :=
  list_to_set (map int_digits ids).

(** The groups that the rounds of the reference list leave behind. *)
Definition pushes (more : list (list N * list N)) (c : caps) : caps :=
  fold_left (fun acc sd => (4%nat, fst sd ++ pt "#" :: snd sd) :: (5%nat, snd sd) :: acc)
            more c.

(** No finding category other than the valid issues has an entry. *)
Definition only_valid_findings (summary : list (string * list line)) : Prop :=
  forall header lines,
    (header, lines) ∈ summary -> header <> "Valid issues" -> lines = [].

(** ** The way of the matcher through a text

    [takes ic r w push ok]: on [w] followed by a [rest] that [ok] admits,
    the first way that [bt] finds through [r] consumes exactly [w] and adds
    the groups [push], whenever what follows the pattern then succeeds.
    [fails ic r ok]: [r] matches at the start of no [rest] that [ok]
    admits. *)

Definition takes (ic : bool) (r : regex) (w : list N) (push : caps -> caps)
    (ok : list N -> Prop) : Prop :=
  forall (R : Type) (k : @kont R) pos rest c m,
    ok rest ->
    k (pos + length w)%nat rest (push c) = Some m ->
    bt ic r pos (w ++ rest) c k = Some m.

Definition star_takes (ic : bool) (r : regex) (w : list N) (push : caps -> caps)
    (ok : list N -> Prop) : Prop :=
  forall (R : Type) (k : @kont R) n pos rest c m,
    ok rest ->
    (length w <= n)%nat ->
    k (pos + length w)%nat rest (push c) = Some m ->
    star_rounds (bt ic r) k n pos (w ++ rest) c = Some m.

Definition fails (ic : bool) (r : regex) (ok : list N -> Prop) : Prop :=
  forall (R : Type) (k : @kont R) pos rest c,
    ok rest -> bt ic r pos rest c k = None.

(** What may follow a number, and what may follow a reference list. *)
Definition no_digit_ahead (s : list N) : Prop :=
  match s with
  | x :: _ => is_digit x = false
  | [] => True
  end.

Definition first_is (P : N -> Prop) (s : list N) : Prop :=
  match s with
  | x :: _ => P x
  | [] => False
  end.

Definition first_is_not (a : N) (s : list N) : Prop :=
  match s with
  | x :: _ => x <> a
  | [] => True
  end.

(** What may follow a reference list: no comma and no digit. *)
Definition after_reflist (s : list N) : Prop :=
  first_is_not (pt ",") s /\ no_digit_ahead s.

(** One round of the list: a separator and a token. *)
Definition token_round : regex :=
  Group 4 (Cat (Lit ",") (Cat (Opt (Lit " ")) (Cat (Lit "#") (Group 5 (Plus Digit))))).

(** The parts of the summary pattern. *)
Definition reflist_regex : regex :=
  Cat (Lit "#") (Cat (Group 3 (Plus Digit)) (Star token_round)).

Definition mark_regex : regex := Group 6 (Alt (Lit ":") (Lits (chars " -"))).

(** The groups of a match of the summary pattern. *)
Definition summary_groups (word d0 : list N) (more : list (list N * list N))
    (mark : list N) : caps :=
  (6%nat, mark) :: (2%nat, pt "#" :: d0 ++ render_more more)
    :: pushes more [(3%nat, d0); (1%nat, word)].

(** * Properties *)

Example parse_fixes_colon :
  parse_commit "abc" (codes "Fixes #12, #7,#30: do it") =
  Ok {| sha := "abc"; message := codes "Fixes #12, #7,#30: do it";
        fixes := {[12; 7; 30]}; refs := ∅ |}.
Proof. vm_compute. reflexivity. Qed.

(** ** Strings *)

Lemma append_cons c a b : String c a +:+ b = String c (a +:+ b).
Proof. reflexivity. Qed.

Lemma chars_app a b : chars (a +:+ b) = chars a ++ chars b.
Proof.
  induction a as [|c a IH]; [reflexivity|].
  rewrite append_cons. simpl. rewrite IH. reflexivity.
Qed.

Lemma str_of_chars s : str_of (chars s) = s.
Proof. apply string_of_list_ascii_of_string. Qed.

Lemma chars_str_of l : chars (str_of l) = l.
Proof. apply list_ascii_of_string_of_list_ascii. Qed.

Lemma ascii_eqb_true a b : ascii_eqb a b = true <-> a = b.
Proof. unfold ascii_eqb. apply bool_decide_eq_true. Qed.

Lemma ascii_eqb_false a b : ascii_eqb a b = false <-> a <> b.
Proof. unfold ascii_eqb. apply bool_decide_eq_false. Qed.

Lemma split1_go_found sep acc o n :
  sep ∉ o -> split1_go sep acc (o ++ sep :: n) = [acc ++ o; n].
Proof.
  revert acc. induction o as [|c o IH]; intros acc Hsep; simpl.
  - rewrite (proj2 (ascii_eqb_true sep sep) eq_refl), app_nil_r. reflexivity.
  - apply not_elem_of_cons in Hsep as [Hc Ho].
    rewrite (proj2 (ascii_eqb_false c sep)) by congruence.
    rewrite IH by assumption. rewrite <- app_assoc. reflexivity.
Qed.

Lemma split1_go_none sep acc s :
  sep ∉ s -> split1_go sep acc s = [acc ++ s].
Proof.
  revert acc. induction s as [|c s IH]; intros acc Hsep; simpl.
  - rewrite app_nil_r. reflexivity.
  - apply not_elem_of_cons in Hsep as [Hc Hs].
    rewrite (proj2 (ascii_eqb_false c sep)) by congruence.
    rewrite IH by assumption. rewrite <- app_assoc. reflexivity.
Qed.

(** ** The report *)

Lemma sorted_by_id_length issues : length (sorted_by_id issues) = length issues.
Proof.
  unfold sorted_by_id.
  assert (Hins : forall x l, length (insert_by_id x l) = S (length l)).
  { intros x l. induction l as [|y l IH]; simpl; [reflexivity|].
    destruct (issue_id y <=? issue_id x); simpl; rewrite ?IH; reflexivity. }
  assert (Hfold : forall l acc,
             length (fold_left (fun acc x => insert_by_id x acc) l acc)
             = (length l + length acc)%nat).
  { induction l as [|x l IH]; intros acc; simpl; [reflexivity|].
    rewrite IH, Hins. lia. }
  rewrite Hfold. simpl. lia.
Qed.

Lemma format_redmine_issues_nil issues :
  format_redmine_issues issues = [] <-> issues = [].
Proof.
  unfold format_redmine_issues. split.
  - intros Hnil. apply (f_equal length) in Hnil.
    rewrite length_map, sorted_by_id_length in Hnil.
    destruct issues; [reflexivity|discriminate].
  - intros ->. reflexivity.
Qed.

Lemma map_nil_iff {A B} (f : A -> B) l : map f l = [] <-> l = [].
Proof. destruct l; simpl; split; congruence. Qed.

Lemma conclusion_of_lists (a b c d : list line) :
  let summary := [("Invalid commits", a); ("Invalid project", b);
                  ("Issues not found in redmine", c); ("Valid issues", d)] in
  (if existsb (fun header => negb (bool_decide (header = "Valid issues")))
              (non_empty_titles summary)
   then "failure" else "success") =
  (match a, b, c with [], [], [] => "success" | _, _, _ => "failure" end).
Proof.
  destruct a, b, c, d; reflexivity.
Qed.

Lemma only_valid_findings_lists (a b c d : list line) :
  only_valid_findings [("Invalid commits", a); ("Invalid project", b);
                       ("Issues not found in redmine", c); ("Valid issues", d)]
  <-> a = [] /\ b = [] /\ c = [].
Proof.
  unfold only_valid_findings. split.
  - intros Hall. repeat split.
    + apply (Hall "Invalid commits"); [set_solver|discriminate].
    + apply (Hall "Invalid project"); [set_solver|discriminate].
    + apply (Hall "Issues not found in redmine"); [set_solver|discriminate].
  - intros (-> & -> & ->) header lines Hin Hne.
    repeat (apply elem_of_cons in Hin as [Heq|Hin]; [inversion Heq; subst; try congruence|]).
    apply elem_of_nil in Hin. contradiction.
Qed.

Lemma report_conclusion check_run issue_results invalid_commits :
  fst (report check_run issue_results invalid_commits) =
  match invalid_commits, invalid_project_issues issue_results,
        missing_issue_ids issue_results with
  | [], [], [] => "success"
  | _, _, _ => "failure"
  end.
Proof.
  unfold report, make_summary. cbv zeta. unfold fst at 1.
  rewrite conclusion_of_lists.
  unfold format_invalid_commit_messages.
  destruct invalid_commits as [|c0 cs]; [|reflexivity]. simpl map at 1.
  destruct (invalid_project_issues issue_results) as [|i0 is0] eqn:Hinv.
  - simpl format_redmine_issues.
    destruct (missing_issue_ids issue_results); reflexivity.
  - destruct (format_redmine_issues (i0 :: is0)) eqn:Hf; [|reflexivity].
    apply format_redmine_issues_nil in Hf. discriminate.
Qed.

Lemma report_only_valid check_run issue_results invalid_commits :
  fst (report check_run issue_results invalid_commits) = "success"
  <-> only_valid_findings (make_summary issue_results invalid_commits).
Proof.
  rewrite report_conclusion. unfold make_summary.
  rewrite only_valid_findings_lists.
  unfold format_invalid_commit_messages.
  rewrite !map_nil_iff, format_redmine_issues_nil.
  destruct invalid_commits, (invalid_project_issues issue_results),
    (missing_issue_ids issue_results); split; try discriminate; try tauto;
    intros (? & ? & ?); discriminate.
Qed.

(** ** Events of the building blocks *)

Arguments report : simpl never.
Arguments completion : simpl never.

Ltac unfold_monad :=
  unfold bind, try_except, try_except_else, ret, raise, lift, call, ask, log, sleep,
         outcome, final, events in *.

Section HandlerFacts.
Context `{StatusEnum}.
Context {W : Type} (env : Env W).
Variable CONFIG : gmap string Config.
Variable USERS : gmap string Z.
Variable PULL_REQUEST : Z.

Lemma get_config_events repository w :
  Forall (fun ev => check_write ev = false /\ is_sleep ev = false)
         (events (get_config (W:=W) CONFIG repository w)).
Proof.
  unfold get_config.
  destruct (CONFIG !! repository); [constructor|].
  destruct (split1 _ _) as [|user [|rest [|? ?]]]; try constructor.
  case_bool_decide; unfold_monad; simpl; repeat constructor.
Qed.

Lemma get_config_unconfigured owner name (w : W) :
  "/"%char ∉ chars owner ->
  CONFIG !! (owner +:+ "/" +:+ name) = None ->
  owner ∉ WHITELISTED_ORGANIZATIONS ->
  get_config CONFIG (owner +:+ "/" +:+ name) w
  = (Raise (UnconfiguredRepository
              ("The repository " +:+ (owner +:+ "/" +:+ name) +:+ " is unconfigured")),
     w, [Log "info" "The repository %s is unconfigured and user %s not whitelisted"]).
Proof.
  intros Hslash Hnone Hnot. unfold get_config. rewrite Hnone.
  rewrite chars_app. change (chars ("/" +:+ name)) with ("/"%char :: chars name).
  unfold split1. rewrite split1_go_found by assumption. simpl.
  rewrite str_of_chars. rewrite bool_decide_eq_false_2 by assumption.
  reflexivity.
Qed.

Lemma get_config_allowlisted owner name (w : W) :
  "/"%char ∉ chars owner ->
  CONFIG !! (owner +:+ "/" +:+ name) = None ->
  owner ∈ WHITELISTED_ORGANIZATIONS ->
  get_config CONFIG (owner +:+ "/" +:+ name) w = (Ok Config_default, w, []).
Proof.
  intros Hslash Hnone Hin. unfold get_config. rewrite Hnone.
  rewrite chars_app. change (chars ("/" +:+ name)) with ("/"%char :: chars name).
  unfold split1. rewrite split1_go_found by assumption. simpl.
  rewrite str_of_chars. rewrite bool_decide_eq_true_2 by assumption.
  reflexivity.
Qed.

Lemma get_issues_from_pr_events pull_request w :
  Forall (fun ev => check_write ev = false /\ is_sleep ev = false)
         (events (get_issues_from_pr env CONFIG pull_request w)).
Proof.
  unfold get_issues_from_pr, get_commits_from_pull_request.
  pose proof (get_config_events (pr_base_repo_full_name pull_request) w) as Hc.
  unfold_monad.
  destruct (get_config CONFIG _ w) as [[[config|e] w1] t1]; simpl in *; [|done].
  destruct (api_getitem env _ w1) as [[items|e] w2]; simpl.
  - destruct (rmapM _ items) as [commits|e]; simpl.
    + destruct (redmine_verify_issues env _ _ w2) as [[iv|e] w3]; simpl;
        rewrite ?app_nil_r; apply Forall_app; split; auto; repeat constructor.
    + rewrite ?app_nil_r. apply Forall_app; split; auto; repeat constructor.
  - apply Forall_app; split; auto; repeat constructor.
Qed.

Lemma update_redmine_on_issues_events pull_request issues w :
  Forall (fun ev => check_write ev = false /\ is_sleep ev = false)
         (events (update_redmine_on_issues env USERS PULL_REQUEST pull_request issues w)).
Proof.
  unfold update_redmine_on_issues.
  revert w. induction issues as [|issue issues IH]; intros w; simpl; [constructor|].
  unfold_monad.
  destruct (Status_of_id _) as [status|]; [|constructor].
  destruct (is_rejected status); simpl.
  - specialize (IH w). destruct (for_each _ _ w) as [[r w'] t]. exact IH.
  - destruct (issue_updates _ _ _ _ _) as [updates|e]; [|constructor].
    destruct (updates_nonempty updates); simpl.
    + destruct (redmine_issue_save env issue updates w) as [[[]|e] w1]; simpl.
      * specialize (IH w1). destruct (for_each _ _ w1) as [[r w'] t].
        repeat constructor. exact IH.
      * repeat constructor.
    + specialize (IH w). destruct (for_each _ _ w) as [[r w'] t].
      repeat constructor. exact IH.
Qed.

(** The retry loop, round by round. *)
Lemma attempt_loop_rounds pull_request w :
  attempt_loop env CONFIG pull_request 3 (range 1 (3 + 1)) w =
  match get_issues_from_pr env CONFIG pull_request w with
  | (Ok found, w1, t1) => (Ok found, w1, t1)
  | (Raise _, w1, t1) =>
      let retry1 := [Log "exception" "Failure during validation of PR (attempt %s)"; Sleep 1] in
      match get_issues_from_pr env CONFIG pull_request (sleep_for env 1 w1) with
      | (Ok found, w2, t2) => (Ok found, w2, t1 ++ retry1 ++ t2)
      | (Raise _, w2, t2) =>
          let retry2 := [Log "exception" "Failure during validation of PR (attempt %s)"; Sleep 2] in
          match get_issues_from_pr env CONFIG pull_request (sleep_for env 2 w2) with
          | (r, w3, t3) => (r, w3, t1 ++ retry1 ++ t2 ++ retry2 ++ t3)
          end
      end
  end.
Proof.
  change (range 1 (3 + 1)) with [1; 2; 3]. simpl. unfold_monad.
  destruct (get_issues_from_pr env CONFIG pull_request w) as [[[found|e] w1] t1];
    [reflexivity|]. simpl.
  destruct (get_issues_from_pr env CONFIG pull_request (sleep_for env 1 w1))
    as [[[found|e2] w2] t2]; simpl.
  { reflexivity. }
  destruct (get_issues_from_pr env CONFIG pull_request (sleep_for env 2 w2))
    as [[[found|e3] w3] t3]; simpl; rewrite ?app_nil_r; reflexivity.
Qed.

(** [run_pull_request_check], step by step. *)
Lemma run_pull_request_check_steps pull_request check_run w :
  run_pull_request_check env CONFIG USERS PULL_REQUEST pull_request check_run w =
  match set_check_in_progress env pull_request check_run w with
  | (Raise e, w1, t1) => (Raise e, w1, t1)
  | (Ok cr, w1, t1) =>
      let '(verdict, w3, t2) :=
        match attempt_loop env CONFIG pull_request 3 (range 1 (3 + 1)) w1 with
        | (Raise e, w2, t2) =>
            if is_UnconfiguredRepository e
            then ("failure", unknown_repository_output, w2, t2)
            else ("failure", internal_error_output, w2,
                  t2 ++ [Log "exception" "Failure during validation of PR"])
        | (Ok found, w2, t2) =>
            match update_redmine_on_issues env USERS PULL_REQUEST pull_request
                    (valid_issues (fst found)) w2 with
            | (Ok _, w3, t3) => (report cr (fst found) (snd found), w3, t2 ++ t3)
            | (Raise _, w3, t3) =>
                (report cr (fst found) (snd found), w3,
                 t2 ++ t3 ++ [Log "exception" "Failed to update Redmine issues"])
            end
        end in
      let '(completed_at, w4) := clock_now env w3 in
      let data := completion pull_request completed_at (fst verdict) (snd verdict) in
      let '(r, w5) := api_patch env (cr_url cr) data w4 in
      (r, w5, t1 ++ t2 ++ [Patch (cr_url cr) data])
  end.
Proof.
  unfold run_pull_request_check. unfold_monad.
  destruct (set_check_in_progress env pull_request check_run w) as [[[cr|e] w1] t1];
    [|reflexivity].
  destruct (attempt_loop env CONFIG pull_request 3 _ w1) as [[[found|e] w2] t2].
  - destruct (update_redmine_on_issues env USERS PULL_REQUEST pull_request _ w2)
      as [[[[]|e] w3] t3]; simpl;
      destruct (clock_now env w3) as [now w4]; simpl;
      destruct (api_patch env _ _ w4) as [r w5]; simpl;
      rewrite ?app_nil_r, <- ?app_assoc; reflexivity.
  - destruct (is_UnconfiguredRepository e); simpl;
      destruct (clock_now env w2) as [now w4]; simpl;
      destruct (api_patch env _ _ w4) as [r w5]; simpl;
      rewrite ?app_nil_r, <- ?app_assoc; reflexivity.
Qed.

Lemma attempt_loop_events pull_request w :
  Forall (fun ev => check_write ev = false)
         (events (attempt_loop env CONFIG pull_request 3 (range 1 (3 + 1)) w)).
Proof.
  rewrite attempt_loop_rounds.
  pose proof (get_issues_from_pr_events pull_request w) as H1.
  destruct (get_issues_from_pr env CONFIG pull_request w) as [[[found|e] w1] t1];
    simpl in *.
  { eapply Forall_impl; [exact H1|]. intros ev [Hw _]. exact Hw. }
  pose proof (get_issues_from_pr_events pull_request (sleep_for env 1 w1)) as H2.
  destruct (get_issues_from_pr env CONFIG pull_request (sleep_for env 1 w1))
    as [[[found|e2] w2] t2]; simpl in *.
  { apply Forall_app; split; [|repeat constructor];
      eapply Forall_impl; eauto; intros ev [Hw _]; exact Hw. }
  pose proof (get_issues_from_pr_events pull_request (sleep_for env 2 w2)) as H3.
  destruct (get_issues_from_pr env CONFIG pull_request (sleep_for env 2 w2))
    as [[r w3] t3]; simpl in *.
  apply Forall_app; split; [|repeat constructor].
  - eapply Forall_impl; eauto; intros ev [Hw _]; exact Hw.
  - apply Forall_app; split; [|repeat constructor];
      eapply Forall_impl; eauto; intros ev [Hw _]; exact Hw.
Qed.

Lemma set_check_in_progress_events pull_request check_run w :
  Forall (fun ev => is_completion ev = false)
         (events (set_check_in_progress env pull_request check_run w)).
Proof.
  unfold set_check_in_progress. unfold_monad.
  destruct (clock_now env w) as [now w1]. simpl.
  destruct check_run as [cr|].
  - destruct (negb _); simpl.
    + destruct (api_patch env _ _ w1) as [[[]|e] w2]; simpl; repeat constructor.
    + constructor.
  - destruct (api_post env _ _ w1) as [r w2]; simpl. repeat constructor.
Qed.

Lemma check_write_completion ev : check_write ev = false -> is_completion ev = false.
Proof. destruct ev; simpl; congruence. Qed.

(** C10: a check run that is handed in and is already in progress is
    returned as it is, and the transition makes no call at all: no patch,
    no post (it only reads the clock for the payload it then drops). *)
Theorem set_check_in_progress_idle pull_request url output_text w :
  let check_run := {| cr_url := url; cr_status := "in_progress";
                      cr_output_text := output_text |} in
  set_check_in_progress env pull_request (Some check_run) w
  = (Ok check_run, snd (clock_now env w), []).
Proof.
  intros check_run. unfold set_check_in_progress. unfold_monad.
  destruct (clock_now env w) as [now w1]. reflexivity.
Qed.

(** C1: once the in-progress transition is done, the run ends with the
    completing patch; when the retry loop hands over findings, its
    conclusion is [success] exactly when no category of the summary other
    than the valid issues has an entry, and [failure] otherwise; when the
    loop fails for good, the conclusion is [failure]. *)
Theorem conclusion_success_iff pull_request check_run w :
  match set_check_in_progress env pull_request check_run w with
  | (Ok cr, w1, _) =>
      exists completed_at conclusion output,
        last (events (run_pull_request_check env CONFIG USERS PULL_REQUEST
                        pull_request check_run w))
        = Some (Patch (cr_url cr)
                  (completion pull_request completed_at conclusion output)) /\
        match outcome (attempt_loop env CONFIG pull_request 3 (range 1 (3 + 1)) w1) with
        | Ok (issue_results, invalid_commits) =>
            (conclusion = "success" <->
             only_valid_findings (make_summary issue_results invalid_commits)) /\
            (conclusion = "success" <->
             invalid_commits = [] /\
             invalid_project_issues issue_results = [] /\
             missing_issue_ids issue_results = []) /\
            (conclusion <> "success" -> conclusion = "failure")
        | Raise _ => conclusion = "failure"
        end
  | (Raise _, _, _) => True
  end.
Proof.
  rewrite run_pull_request_check_steps.
  destruct (set_check_in_progress env pull_request check_run w) as [[[cr|e] w1] t1];
    [|exact I].
  destruct (attempt_loop env CONFIG pull_request 3 _ w1) as [[[found|e] w2] t2];
    unfold outcome; cbn [fst snd].
  - pose proof (report_only_valid cr (fst found) (snd found)) as Hvalid.
    pose proof (report_conclusion cr (fst found) (snd found)) as Hconcl.
    set (rep := report cr (fst found) (snd found)) in *. clearbody rep.
    destruct found as [iv ic]. cbn [fst snd] in *.
    destruct (update_redmine_on_issues env USERS PULL_REQUEST pull_request _ w2)
      as [[[[]|e] w3] t3];
      destruct (clock_now env w3) as [now w4];
      destruct (api_patch env _ _ w4) as [r w5]; cbn [fst snd];
      exists now, (fst rep), (snd rep);
      (split; [rewrite !app_assoc; apply last_snoc|]);
      (split; [exact Hvalid|]);
      rewrite Hconcl;
      destruct ic, (invalid_project_issues iv), (missing_issue_ids iv);
      (split; [split; [intros; try discriminate; auto | intros (? & ? & ?); congruence]
              |congruence]).
  - destruct (is_UnconfiguredRepository e);
      destruct (clock_now env w2) as [now w4];
      destruct (api_patch env _ _ w4) as [r w5]; simpl;
      eexists now, "failure", _;
      (split; [rewrite !app_assoc; apply last_snoc|reflexivity]).
Qed.

(** C9: once the in-progress transition is done, the run issues exactly
    one patch that completes the check run, as its last call, whether the
    findings were gathered, the repository is unconfigured or the retries
    are used up; its status is [completed]. *)
Theorem one_completion_patch pull_request check_run w :
  let run := run_pull_request_check env CONFIG USERS PULL_REQUEST
               pull_request check_run w in
  match set_check_in_progress env pull_request check_run w with
  | (Ok cr, _, _) =>
      exists before completed_at conclusion output,
        let data := completion pull_request completed_at conclusion output in
        events run = before ++ [Patch (cr_url cr) data] /\
        Forall (fun ev => is_completion ev = false) before /\
        payload_status data = "completed" /\
        filter (fun ev => is_completion ev = true) (events run)
        = [Patch (cr_url cr) data]
  | (Raise e, w1, t1) => run = (Raise e, w1, t1)
  end.
Proof.
  intros run. subst run. rewrite run_pull_request_check_steps.
  pose proof (set_check_in_progress_events pull_request check_run w) as Hset.
  destruct (set_check_in_progress env pull_request check_run w) as [[[cr|e] w1] t1];
    [|reflexivity].
  pose proof (attempt_loop_events pull_request w1) as Hloop.
  assert (Hloop' : Forall (fun ev => is_completion ev = false)
                     (events (attempt_loop env CONFIG pull_request 3 (range 1 (3 + 1)) w1)))
    by (eapply Forall_impl; [exact Hloop|apply check_write_completion]).
  clear Hloop.
  assert (Hfilter : forall before ev,
             Forall (fun ev => is_completion ev = false) before ->
             is_completion ev = true ->
             filter (fun ev => is_completion ev = true) (before ++ [ev]) = [ev]).
  { intros before ev Hb Hev. rewrite filter_app.
    replace (filter _ before) with (@nil event).
    - simpl. rewrite filter_cons_True by exact Hev. reflexivity.
    - symmetry. induction Hb as [|x l Hx Hl IH]; [reflexivity|].
      rewrite filter_cons_False by congruence. exact IH. }
  unfold events in *. simpl in Hset.
  destruct (attempt_loop env CONFIG pull_request 3 _ w1) as [[[found|e] w2] t2];
    simpl in Hloop'.
  - set (rep := report cr (fst found) (snd found)). clearbody rep.
    pose proof (update_redmine_on_issues_events pull_request
                  (valid_issues (fst found)) w2) as Hup.
    apply (Forall_impl _ (fun ev => is_completion ev = false)) in Hup;
      [|intros ev [Hw _]; apply check_write_completion, Hw].
    unfold events in Hup.
    destruct (update_redmine_on_issues env USERS PULL_REQUEST pull_request _ w2)
      as [[[[]|e] w3] t3]; simpl in Hup;
      destruct (clock_now env w3) as [now w4];
      destruct (api_patch env _ _ w4) as [r w5]; simpl;
      eexists _, now, _, _; rewrite !app_assoc;
      (split; [reflexivity|]);
      (split; [|split; [reflexivity|apply Hfilter; [|reflexivity]]]);
      repeat (apply Forall_app; split); auto; repeat constructor.
  - destruct (is_UnconfiguredRepository e);
      destruct (clock_now env w2) as [now w4];
      destruct (api_patch env _ _ w4) as [r w5]; simpl;
      eexists _, now, _, _; rewrite ?app_assoc;
      (split; [reflexivity|]);
      (split; [|split; [reflexivity|apply Hfilter; [|reflexivity]]]);
      repeat (apply Forall_app; split); auto; repeat constructor.
Qed.

(** C8: when the retry loop has handed over findings, whatever the
    tracker update does, the run goes on to the completing patch: an
    exception of the update is logged and dropped, the conclusion and the
    output of the patch are those of [report] on the findings, and what
    the run returns is what the patch returns. *)
Theorem reconciliation_failure_swallowed pull_request check_run w :
  match set_check_in_progress env pull_request check_run w with
  | (Ok cr, w1, t1) =>
      match attempt_loop env CONFIG pull_request 3 (range 1 (3 + 1)) w1 with
      | (Ok found, w2, t2) =>
          let '(synced, w3, t3) :=
            update_redmine_on_issues env USERS PULL_REQUEST pull_request
              (valid_issues (fst found)) w2 in
          let logged :=
            match synced with
            | Ok _ => []
            | Raise _ => [Log "exception" "Failed to update Redmine issues"]
            end in
          let verdict := report cr (fst found) (snd found) in
          let '(completed_at, w4) := clock_now env w3 in
          let data := completion pull_request completed_at (fst verdict) (snd verdict) in
          let '(r, w5) := api_patch env (cr_url cr) data w4 in
          run_pull_request_check env CONFIG USERS PULL_REQUEST pull_request check_run w
          = (r, w5, t1 ++ t2 ++ t3 ++ logged ++ [Patch (cr_url cr) data]) /\
          outcome (try_except
                     (update_redmine_on_issues env USERS PULL_REQUEST pull_request
                        (valid_issues (fst found)))
                     (fun _ => log "exception" "Failed to update Redmine issues") w2)
          = Ok tt
      | (Raise _, _, _) => True
      end
  | (Raise _, _, _) => True
  end.
Proof.
  rewrite run_pull_request_check_steps.
  destruct (set_check_in_progress env pull_request check_run w) as [[[cr|e] w1] t1];
    [|exact I].
  destruct (attempt_loop env CONFIG pull_request 3 _ w1) as [[[found|e] w2] t2];
    [|exact I].
  set (rep := report cr (fst found) (snd found)). clearbody rep.
  unfold_monad.
  destruct (update_redmine_on_issues env USERS PULL_REQUEST pull_request _ w2)
    as [[[[]|e] w3] t3];
    destruct (clock_now env w3) as [now w4];
    destruct (api_patch env _ _ w4) as [r w5]; cbn [fst snd];
    (split; [rewrite ?app_nil_l, <- ?app_assoc; reflexivity|reflexivity]).
Qed.

(** C5: for a repository [owner/name], the lookup raises
    [UnconfiguredRepository] exactly when the table has no entry for it
    and the owner is not one of the whitelisted organizations; without an
    entry and with a whitelisted owner it returns the default policy,
    which requires nothing and names no tracker project; with an entry it
    returns the entry. *)
Theorem get_config_unconfigured_iff owner name (w : W) :
  "/"%char ∉ chars owner ->
  let repository := owner +:+ "/" +:+ name in
  ((exists msg, outcome (get_config CONFIG repository w)
                = Raise (UnconfiguredRepository msg))
   <-> CONFIG !! repository = None /\ owner ∉ WHITELISTED_ORGANIZATIONS) /\
  (CONFIG !! repository = None -> owner ∈ WHITELISTED_ORGANIZATIONS ->
   get_config CONFIG repository w = (Ok Config_default, w, [])) /\
  (forall config, CONFIG !! repository = Some config ->
   get_config CONFIG repository w = (Ok config, w, [])) /\
  cfg_required Config_default = false /\
  cfg_project Config_default = None.
Proof.
  intros Hslash repository. subst repository.
  split; [|split; [|split; [|split; reflexivity]]].
  - split.
    + intros [msg Hraise].
      destruct (CONFIG !! (owner +:+ "/" +:+ name)) as [config|] eqn:Hlook.
      { unfold get_config in Hraise. rewrite Hlook in Hraise. discriminate. }
      split; [reflexivity|]. intros Hin.
      rewrite get_config_allowlisted in Hraise by assumption. discriminate.
    + intros [Hnone Hnot]. eexists.
      rewrite get_config_unconfigured by assumption. reflexivity.
  - intros Hnone Hin. apply get_config_allowlisted; assumption.
  - intros config Hlook. unfold get_config. rewrite Hlook. reflexivity.
Qed.

(** An identifier without a slash has no owner: the lookup of one that
    has no entry fails on the unpacking, not as an unconfigured
    repository. *)
Lemma get_config_no_slash repository (w : W) :
  "/"%char ∉ chars repository ->
  CONFIG !! repository = None ->
  get_config CONFIG repository w
  = (Raise (ValueError "not enough values to unpack (expected 2, got 1)"), w, []).
Proof.
  intros Hslash Hnone. unfold get_config. rewrite Hnone.
  unfold split1. rewrite split1_go_none by assumption. reflexivity.
Qed.

Lemma get_issues_from_pr_unconfigured pull_request owner name (w : W) :
  "/"%char ∉ chars owner ->
  pr_base_repo_full_name pull_request = owner +:+ "/" +:+ name ->
  CONFIG !! (owner +:+ "/" +:+ name) = None ->
  owner ∉ WHITELISTED_ORGANIZATIONS ->
  get_issues_from_pr env CONFIG pull_request w
  = (Raise (UnconfiguredRepository
              ("The repository " +:+ (owner +:+ "/" +:+ name) +:+ " is unconfigured")),
     w, [Log "info" "The repository %s is unconfigured and user %s not whitelisted"]).
Proof.
  intros Hslash Hname Hnone Hnot. unfold get_issues_from_pr, bind.
  rewrite Hname, get_config_unconfigured by assumption. reflexivity.
Qed.

(** C3, as the code has it: the retry loop treats every failure alike.
    Whatever a round raises, a failed round is followed by a sleep of as
    many seconds as its number, up to the third round, whose failure is
    final.  The unconfigured repository is no exception to that: its
    lookup is made three times, with the sleeps of 1 and 2 in between,
    and only the third failure reaches the "Unknown repository"
    report. *)
Theorem unconfigured_repository_is_retried pull_request check_run w :
  (forall w1,
     let round1 := get_issues_from_pr env CONFIG pull_request w1 in
     let round2 := get_issues_from_pr env CONFIG pull_request
                     (sleep_for env 1 (final round1)) in
     let round3 := get_issues_from_pr env CONFIG pull_request
                     (sleep_for env 2 (final round2)) in
     let loop := attempt_loop env CONFIG pull_request 3 (range 1 (3 + 1)) w1 in
     let sleeps := filter (fun ev => is_sleep ev = true) (events loop) in
     let again := Log "exception" "Failure during validation of PR (attempt %s)" in
     match outcome round1, outcome round2 with
     | Ok found, _ =>
         outcome loop = Ok found /\ sleeps = [] /\ events loop = events round1
     | Raise _, Ok found =>
         outcome loop = Ok found /\ sleeps = [Sleep 1] /\
         events loop = events round1 ++ [again; Sleep 1] ++ events round2
     | Raise _, Raise _ =>
         outcome loop = outcome round3 /\ sleeps = [Sleep 1; Sleep 2] /\
         events loop = events round1 ++ [again; Sleep 1] ++ events round2 ++
                       [again; Sleep 2] ++ events round3
     end) /\
  (forall owner name,
     "/"%char ∉ chars owner ->
     pr_base_repo_full_name pull_request = owner +:+ "/" +:+ name ->
     CONFIG !! (owner +:+ "/" +:+ name) = None ->
     owner ∉ WHITELISTED_ORGANIZATIONS ->
     match set_check_in_progress env pull_request check_run w with
     | (Ok cr, _, t1) =>
         let unconfigured :=
           Log "info" "The repository %s is unconfigured and user %s not whitelisted" in
         let again := Log "exception" "Failure during validation of PR (attempt %s)" in
         exists completed_at,
           events (run_pull_request_check env CONFIG USERS PULL_REQUEST
                     pull_request check_run w)
           = t1 ++ [unconfigured; again; Sleep 1; unconfigured; again; Sleep 2;
                    unconfigured;
                    Patch (cr_url cr)
                      (completion pull_request completed_at "failure"
                         unknown_repository_output)]
     | (Raise _, _, _) => True
     end).
Proof.
  split.
  - intros w1. cbv zeta. rewrite attempt_loop_rounds.
    assert (Hquiet : forall l : list event,
               Forall (fun ev => check_write ev = false /\ is_sleep ev = false) l ->
               filter (fun ev => is_sleep ev = true) l = []).
    { intros l Hl. induction Hl as [|ev l [_ Hev] _ IH]; [reflexivity|].
      rewrite filter_cons_False by congruence. exact IH. }
    pose proof (Hquiet _ (get_issues_from_pr_events pull_request w1)) as H1.
    unfold outcome, final, events in *.
    destruct (get_issues_from_pr env CONFIG pull_request w1) as [[[found|e] w2] t1];
      simpl in *; [split; [reflexivity|split; [exact H1|reflexivity]]|].
    pose proof (Hquiet _ (get_issues_from_pr_events pull_request (sleep_for env 1 w2)))
      as H2.
    unfold events in H2.
    destruct (get_issues_from_pr env CONFIG pull_request (sleep_for env 1 w2))
      as [[[found|e2] w3] t2]; simpl in *.
    { split; [reflexivity|]. split; [|reflexivity].
      rewrite filter_app, H1. simpl. rewrite filter_cons_False by (simpl; congruence).
      rewrite filter_cons_True by reflexivity. rewrite H2. reflexivity. }
    pose proof (Hquiet _ (get_issues_from_pr_events pull_request (sleep_for env 2 w3)))
      as H3.
    unfold events in H3.
    destruct (get_issues_from_pr env CONFIG pull_request (sleep_for env 2 w3))
      as [[r w4] t3]; simpl in *.
    split; [reflexivity|]. split; [|reflexivity].
    rewrite filter_app, H1. simpl. rewrite filter_cons_False by (simpl; congruence).
    rewrite filter_cons_True by reflexivity.
    rewrite filter_app, H2. simpl. rewrite filter_cons_False by (simpl; congruence).
    rewrite filter_cons_True by reflexivity. rewrite H3. reflexivity.
  - intros owner name Hslash Hname Hnone Hnot.
    rewrite run_pull_request_check_steps.
    destruct (set_check_in_progress env pull_request check_run w) as [[[cr|e] w1] t1];
      [|exact I].
    rewrite attempt_loop_rounds.
    rewrite !(get_issues_from_pr_unconfigured pull_request owner name) by assumption.
    cbn [is_UnconfiguredRepository].
    destruct (clock_now env _) as [now w4].
    destruct (api_patch env _ _ w4) as [r w5].
    exists now. reflexivity.
Qed.

End HandlerFacts.

(** ** Reconciliation *)

Section ReconcilerFacts.
Context `{StatusEnum}.
Context {W : Type} (env : Env W).
Variable USERS : gmap string Z.
Variable PULL_REQUEST : Z.
Variable pull_request : PullRequest.





Lemma update_redmine_on_issues_cons issue issues w :
  update_redmine_on_issues env USERS PULL_REQUEST pull_request (issue :: issues) w =
  match Status_of_id (issue_status_id issue) with
  | None => (Raise (ValueError "is not a valid Status"), w, [])
  | Some status =>
      if is_rejected status
      then update_redmine_on_issues env USERS PULL_REQUEST pull_request issues w
      else
        match issue_updates USERS PULL_REQUEST pull_request issue status with
        | Raise e => (Raise e, w, [])
        | Ok updates =>
            if updates_nonempty updates then
              match redmine_issue_save env issue updates w with
              | (Ok _, w1) =>
                  let '(r, w2, t) :=
                    update_redmine_on_issues env USERS PULL_REQUEST pull_request issues w1 in
                  (r, w2, Log "info" "Updating issue %s: %s"
                            :: IssueSave (issue_id issue) updates :: t)
              | (Raise e, w1) =>
                  (Raise e, w1, [Log "info" "Updating issue %s: %s";
                                 IssueSave (issue_id issue) updates])
              end
            else
              let '(r, w2, t) :=
                update_redmine_on_issues env USERS PULL_REQUEST pull_request issues w in
              (r, w2, Log "debug" "Redmine issue %s already in sync" :: t)
        end
  end.
Proof.
  unfold update_redmine_on_issues. simpl. unfold_monad.
  destruct (Status_of_id _) as [status|]; [|reflexivity].
  destruct (is_rejected status); simpl.
  - destruct (for_each _ _ w) as [[r w'] t]. reflexivity.
  - destruct (issue_updates _ _ _ _ _) as [updates|e]; [|reflexivity].
    destruct (updates_nonempty updates); simpl.
    + destruct (redmine_issue_save env issue updates w) as [[[]|e] w1]; simpl.
      * destruct (for_each _ _ w1) as [[r w'] t]. reflexivity.
      * reflexivity.
    + destruct (for_each _ _ w) as [[r w'] t]. reflexivity.
Qed.




End ReconcilerFacts.

(** ** The merge handler *)



Section MergeFacts.
Context {W : Type} (env : Env W).
Variable CONFIG : gmap string Config.
Variable strip_suffix : string -> string -> string.

Lemma fixes_of_spec commits x :
  x ∈ fixes_of commits <-> exists commit, commit ∈ commits /\ x ∈ fixes commit.
Proof.
  unfold fixes_of.
  assert (Hgen : forall acc,
             x ∈ fold_left (fun (ids : gset Z) commit => ids ∪ fixes commit) commits acc
             <-> x ∈ acc \/ exists commit, commit ∈ commits /\ x ∈ fixes commit).
  { induction commits as [|c commits IH]; intros acc; simpl.
    - split; [auto|]. intros [Hacc|(c & Hc & _)]; [exact Hacc|].
      apply elem_of_nil in Hc. contradiction.
    - rewrite IH. rewrite elem_of_union. split.
      + intros [[Hacc|Hc]|(c' & Hc' & Hx)]; [auto| |].
        * right. exists c. split; [left|exact Hc].
        * right. exists c'. split; [right; exact Hc'|exact Hx].
      + intros [Hacc|(c' & Hc' & Hx)]; [auto|].
        apply elem_of_cons in Hc' as [->|Hc']; [auto|].
        right. exists c'. auto. }
  rewrite Hgen. split; [|auto]. intros [Hempty|Hex]; [|exact Hex].
  apply elem_of_empty in Hempty. contradiction.
Qed.


Lemma get_config_logs repository (w : W) :
  Forall (fun ev => exists level msg, ev = Log level msg)
         (events (get_config CONFIG repository w)).
Proof.
  unfold get_config.
  destruct (CONFIG !! repository); [constructor|].
  destruct (split1 _ _) as [|user [|rest [|? ?]]]; try constructor.
  case_bool_decide; unfold_monad; simpl; repeat constructor. eauto.
Qed.


(** [on_pr_merge], step by step. *)
Lemma on_pr_merge_steps pull_request w :
  on_pr_merge env CONFIG strip_suffix pull_request w =
  if negb (pr_merged pull_request)
  then (Ok tt, w, [Log "debug" "Pull request %s was closed, not merged"])
  else
    match branch_version_prefix strip_suffix (pr_base_ref pull_request) with
    | None =>
        (Ok tt, w, [Log "info" "Unable to set fixed in version for %s branch %s in PR %s"])
    | Some branch_prefix =>
        match get_config CONFIG (pr_base_repo_full_name pull_request) w with
        | (Raise e, w0, t0) =>
            if is_UnconfiguredRepository e then (Ok tt, w0, t0) else (Raise e, w0, t0)
        | (Ok config, w0, t0) =>
            if negb (truthy_str (cfg_project config))
            then (Ok tt, w0, t0 ++ [Log "info" "Repository for %s not found"])
            else
              let prefix :=
                if truthy_str (cfg_version_prefix config)
                then default "" (cfg_version_prefix config) +:+ branch_prefix
                else branch_prefix in
              let key := default "" (cfg_project config) in
              let fetch := GetItem (pr_commits_url pull_request) in
              match api_getitem env (pr_commits_url pull_request) w0 with
              | (Raise e, w1) => (Raise e, w1, t0 ++ [fetch])
              | (Ok items, w1) =>
                  match rmapM (fun item => parse_commit (fst item) (snd item)) items with
                  | Raise e => (Raise e, w1, t0 ++ [fetch])
                  | Ok commits =>
                      if bool_decide (fixes_of commits = ∅)
                      then (Ok tt, w1, t0 ++ [fetch])
                      else
                        match redmine_project_get env key w1 with
                        | (Raise e, w2) => (Raise e, w2, t0 ++ [fetch; ProjectGet key])
                        | (Ok proj, w2) =>
                            let ask_version := GetLatestOpenVersion (proj_id proj) prefix in
                            match redmine_get_latest_open_version env proj prefix w2 with
                            | (Raise e, w3) =>
                                (Raise e, w3, t0 ++ [fetch; ProjectGet key; ask_version])
                            | (Ok None, w3) =>
                                (Ok tt, w3,
                                 t0 ++ [fetch; ProjectGet key; ask_version;
                                        Log "info" "Unable to determine latest version for %s; prefix=%s"])
                            | (Ok (Some version), w3) =>
                                match redmine_get_issues env (fixes_of commits) w3 with
                                | (Raise e, w4) =>
                                    (Raise e, w4,
                                     t0 ++ [fetch; ProjectGet key; ask_version;
                                            GetIssues (fixes_of commits)])
                                | (Ok issues, w4) =>
                                    let '(r, w5, t5) :=
                                      set_fixed_in_versions env proj version issues w4 in
                                    (r, w5,
                                     t0 ++ [fetch; ProjectGet key; ask_version;
                                            GetIssues (fixes_of commits)] ++ t5)
                                end
                            end
                        end
                  end
              end
        end
    end.
Proof.
  unfold on_pr_merge, get_commits_from_pull_request.
  destruct (negb (pr_merged pull_request)); [reflexivity|].
  destruct (branch_version_prefix _ _) as [branch_prefix|]; [|reflexivity].
  unfold_monad.
  destruct (get_config CONFIG _ w) as [[[config|e] w0] t0].
  2: { destruct (is_UnconfiguredRepository e); simpl; rewrite ?app_nil_r; reflexivity. }
  destruct (negb (truthy_str (cfg_project config))); [reflexivity|].
  cbv zeta.
  destruct (api_getitem env _ w0) as [[items|e] w1]; simpl; [|reflexivity].
  destruct (rmapM _ items) as [commits|e]; simpl; [|rewrite ?app_nil_r; reflexivity].
  destruct (bool_decide (fixes_of commits = ∅)); simpl; [rewrite ?app_nil_r; reflexivity|].
  destruct (redmine_project_get env _ w1) as [[proj|e] w2]; simpl; [|reflexivity].
  destruct (redmine_get_latest_open_version env proj _ w2) as [[[version|]|e] w3];
    simpl; [|reflexivity|reflexivity].
  destruct (redmine_get_issues env _ w3) as [[issues|e] w4]; simpl; [|reflexivity].
  destruct (set_fixed_in_versions env proj version issues w4) as [[r w5] t5].
  reflexivity.
Qed.



End MergeFacts.

(** ** The retry loop on an unconfigured repository *)

Ltac by_decision := apply (bool_decide_unpack _); vm_compute; exact I.

Lemma get_config_unconfigured_iff_witness :
  ("/"%char ∉ chars "someone") /\
  ((exists msg, outcome (get_config (W:=unit) ∅ "someone/project" tt)
                = Raise (UnconfiguredRepository msg))
   <-> (∅ : gmap string Config) !! "someone/project" = None /\
       "someone" ∉ WHITELISTED_ORGANIZATIONS).
Proof.
  assert (Hslash : "/"%char ∉ chars "someone") by by_decision.
  split; [exact Hslash|].
  exact (proj1 (get_config_unconfigured_iff (W:=unit) ∅ "someone" "project" tt Hslash)).
Defined.

(** C3, as the document has it, fails: a pull request against a repository
    that is not in the table and whose owner is not whitelisted.  Every
    round raises [UnconfiguredRepository], and the run still sleeps 1 and 2
    seconds and looks the repository up three times before it reports. *)
Lemma unconfigured_repository_not_short_circuited :
  let pull_request := example_pr "someone/project" "Add a thing" "develop" false in
  let env := Tracker.env [] in
  let unconfigured :=
    Log "info" "The repository %s is unconfigured and user %s not whitelisted" in
  let again := Log "exception" "Failure during validation of PR (attempt %s)" in
  outcome (get_issues_from_pr env ∅ pull_request empty_tracker)
  = Raise (UnconfiguredRepository "The repository someone/project is unconfigured") /\
  filter (fun ev => is_sleep ev = true)
    (events (run_pull_request_check env ∅ ∅ 0 pull_request None empty_tracker))
  = [Sleep 1; Sleep 2] /\
  exists in_progress,
    events (run_pull_request_check env ∅ ∅ 0 pull_request None empty_tracker)
    = [Post "https://api.github.com/repos/someone/project/check-runs" in_progress;
       unconfigured; again; Sleep 1; unconfigured; again; Sleep 2; unconfigured;
       Patch "https://api.github.com/repos/someone/project/check-runs/1"
         (completion pull_request "2020-02-02T02:02:02+00:00" "failure"
            unknown_repository_output)].
Proof.
  cbv zeta. split; [vm_compute; reflexivity|].
  split; [vm_compute; reflexivity|].
  eexists. vm_compute. reflexivity.
Qed.

Lemma unconfigured_repository_is_retried_witness :
  let pull_request := example_pr "someone/project" "Add a thing" "develop" false in
  ("/"%char ∉ chars "someone") /\
  pr_base_repo_full_name pull_request = "someone" +:+ "/" +:+ "project" /\
  (∅ : gmap string Config) !! ("someone" +:+ "/" +:+ "project") = None /\
  ("someone" ∉ WHITELISTED_ORGANIZATIONS) /\
  exists completed_at,
    events (run_pull_request_check (Tracker.env []) ∅ ∅ 0 pull_request None empty_tracker)
    = events (set_check_in_progress (Tracker.env []) pull_request None empty_tracker) ++
      [Log "info" "The repository %s is unconfigured and user %s not whitelisted";
       Log "exception" "Failure during validation of PR (attempt %s)"; Sleep 1;
       Log "info" "The repository %s is unconfigured and user %s not whitelisted";
       Log "exception" "Failure during validation of PR (attempt %s)"; Sleep 2;
       Log "info" "The repository %s is unconfigured and user %s not whitelisted";
       Patch "https://api.github.com/repos/someone/project/check-runs/1"
         (completion pull_request completed_at "failure" unknown_repository_output)].
Proof.
  cbv zeta.
  assert (Hslash : "/"%char ∉ chars "someone") by by_decision.
  assert (Hnot : "someone" ∉ WHITELISTED_ORGANIZATIONS) by by_decision.
  split; [exact Hslash|]. split; [reflexivity|]. split; [reflexivity|].
  split; [exact Hnot|].
  exact (proj2 (unconfigured_repository_is_retried (Tracker.env []) ∅ ∅ 0
                  (example_pr "someone/project" "Add a thing" "develop" false) None
                  empty_tracker) "someone" "project" Hslash eq_refl eq_refl Hnot).
Defined.

(** ** The handlers on the example tracker *)


(** Two reconciliations in a row on the example tracker: the first saves
    the three changes of issue 10, the second finds it in sync. *)
Example reconcile_twice :
  let pull_request := example_pr "theforeman/foo" "Fix crash" "develop" false in
  let users : gmap string Z := {[ "alice" := 3 ]} in
  let fetch (tr : Tracker.t) := omap (fun i => Tracker.issues tr !! i) [10] in
  let first := update_redmine_on_issues (Tracker.env []) users 7 pull_request
                 (fetch example_tracker) example_tracker in
  let second := update_redmine_on_issues (Tracker.env []) users 7 pull_request
                  (fetch (final first)) (final first) in
  filter (fun ev => is_issue_save ev = true) (events first)
  = [IssueSave 10
       {| u_custom_fields :=
            Some [ {| cf_id := 7;
                      cf_value := ["https://github.com/theforeman/foo/pull/42"] |} ];
          u_assigned_to_id := Some 3;
          u_status_id := Some 7 |}] /\
  events second = [Log "debug" "Redmine issue %s already in sync"] /\
  final second = final first.
Proof. cbv zeta. repeat split; vm_compute; reflexivity. Qed.


(** ** The matcher along a text of the grammar *)

Section MatcherFacts.
Variable ic : bool.

Lemma take_span {A} (pos : nat) (w rest : list A) :
  take (pos + length w - pos) (w ++ rest) = w.
Proof.
  replace (pos + length w - pos)%nat with (length w) by lia.
  apply take_app_length.
Qed.

Lemma takes_weaken r w push (ok ok' : list N -> Prop) :
  takes ic r w push ok -> (forall rest, ok' rest -> ok rest) -> takes ic r w push ok'.
Proof. intros Ht Hok R k pos rest c m Hrest Hk. apply Ht; auto. Qed.

Lemma takes_lit a x :
  lit_matches ic a x = true -> takes ic (Lit a) [x] id (fun _ => True).
Proof.
  intros Hm R k pos rest c m _ Hk. cbn [bt app]. rewrite Hm.
  rewrite <- Hk. f_equal. simpl. lia.
Qed.

Lemma takes_digit x :
  is_digit x = true -> takes ic Digit [x] id (fun _ => True).
Proof.
  intros Hm R k pos rest c m _ Hk. cbn [bt app]. rewrite Hm.
  rewrite <- Hk. f_equal. simpl. lia.
Qed.

Lemma takes_anychar x :
  is_LF x = false -> takes ic AnyChar [x] id (fun _ => True).
Proof.
  intros Hm R k pos rest c m _ Hk. cbn [bt app]. rewrite Hm.
  rewrite <- Hk. f_equal. simpl. lia.
Qed.

Lemma takes_eos : takes ic Eos [] id (fun rest => rest = []).
Proof.
  intros R k pos rest c m -> Hk. simpl in *. rewrite Nat.add_0_r in Hk. exact Hk.
Qed.

Lemma takes_cat r1 r2 w1 w2 p1 p2 (ok1 ok2 : list N -> Prop) :
  takes ic r1 w1 p1 ok1 ->
  takes ic r2 w2 p2 ok2 ->
  (forall rest, ok2 rest -> ok1 (w2 ++ rest)) ->
  takes ic (Cat r1 r2) (w1 ++ w2) (fun c => p2 (p1 c)) ok2.
Proof.
  intros H1 H2 Hok R k pos rest c m Hrest Hk. cbn [bt].
  rewrite <- app_assoc. apply H1; [apply Hok, Hrest|].
  apply H2; [exact Hrest|]. rewrite <- Hk. f_equal.
  rewrite length_app. lia.
Qed.

Lemma takes_group i r w push ok :
  takes ic r w push ok ->
  takes ic (Group i r) w (fun c => (i, w) :: push c) ok.
Proof.
  intros Hr R k pos rest c m Hrest Hk. cbn [bt].
  apply Hr; [exact Hrest|]. rewrite take_span. exact Hk.
Qed.

Lemma takes_alt_l r1 r2 w push ok :
  takes ic r1 w push ok -> takes ic (Alt r1 r2) w push ok.
Proof.
  intros Hr R k pos rest c m Hrest Hk. cbn [bt].
  rewrite (Hr R k pos rest c m Hrest Hk). reflexivity.
Qed.

Lemma takes_alt_r r1 r2 w push (ok : list N -> Prop) :
  fails ic r1 (fun s => exists rest, s = w ++ rest /\ ok rest) ->
  takes ic r2 w push ok -> takes ic (Alt r1 r2) w push ok.
Proof.
  intros Hf Hr R k pos rest c m Hrest Hk. cbn [bt].
  rewrite (Hf R k pos (w ++ rest) c) by eauto.
  apply Hr; assumption.
Qed.

Lemma takes_opt_some r w push ok :
  takes ic r w push ok -> takes ic (Opt r) w push ok.
Proof.
  intros Hr R k pos rest c m Hrest Hk. cbn [bt].
  rewrite (Hr R k pos rest c m Hrest Hk). reflexivity.
Qed.

Lemma takes_opt_none r ok :
  fails ic r ok -> takes ic (Opt r) [] id ok.
Proof.
  intros Hf R k pos rest c m Hrest Hk. cbn [bt app].
  rewrite (Hf R k pos rest c Hrest). rewrite Nat.add_0_r in Hk. exact Hk.
Qed.

Lemma star_takes_nil r ok :
  fails ic r ok -> star_takes ic r [] id ok.
Proof.
  intros Hf R k n pos rest c m Hrest _ Hk. simpl in *.
  rewrite Nat.add_0_r in Hk.
  destruct n; simpl; [exact Hk|].
  rewrite (Hf R _ pos rest c Hrest). exact Hk.
Qed.

Lemma star_takes_cons r w1 w2 p1 p2 (ok1 ok : list N -> Prop) :
  takes ic r w1 p1 ok1 ->
  w1 <> [] ->
  star_takes ic r w2 p2 ok ->
  (forall rest, ok rest -> ok1 (w2 ++ rest)) ->
  star_takes ic r (w1 ++ w2) (fun c => p2 (p1 c)) ok.
Proof.
  intros H1 Hne H2 Hok R k n pos rest c m Hrest Hn Hk.
  rewrite length_app in Hn.
  assert (0 < length w1)%nat by (destruct w1; [congruence|simpl; lia]).
  destruct n as [|n]; [lia|]. cbn [star_rounds]. rewrite <- app_assoc.
  erewrite H1; [reflexivity|apply Hok, Hrest|].
  rewrite (proj2 (Nat.ltb_lt pos (pos + length w1))) by lia.
  apply H2; [exact Hrest|lia|].
  rewrite <- Hk. f_equal. rewrite length_app. lia.
Qed.

Lemma takes_star r w push ok :
  star_takes ic r w push ok -> takes ic (Star r) w push ok.
Proof.
  intros Hs R k pos rest c m Hrest Hk. cbn [bt].
  apply Hs; [exact Hrest|rewrite length_app; lia|exact Hk].
Qed.

Lemma fails_lit a ok :
  (forall rest, ok rest -> match rest with
                           | x :: _ => lit_matches ic a x = false
                           | [] => True
                           end) ->
  fails ic (Lit a) ok.
Proof.
  intros Hok R k pos rest c Hrest. specialize (Hok rest Hrest).
  destruct rest as [|x rest]; cbn [bt]; [reflexivity|]. rewrite Hok. reflexivity.
Qed.

Lemma fails_digit : fails ic Digit no_digit_ahead.
Proof.
  intros R k pos rest c Hrest.
  destruct rest as [|x rest]; cbn [bt no_digit_ahead] in *; [reflexivity|].
  rewrite Hrest. reflexivity.
Qed.

Lemma fails_anychar : fails ic AnyChar (fun rest => rest = []).
Proof. intros R k pos rest c ->. reflexivity. Qed.

Lemma fails_cat r1 r2 ok : fails ic r1 ok -> fails ic (Cat r1 r2) ok.
Proof. intros Hf R k pos rest c Hrest. cbn [bt]. apply Hf, Hrest. Qed.

Lemma fails_group i r ok : fails ic r ok -> fails ic (Group i r) ok.
Proof. intros Hf R k pos rest c Hrest. cbn [bt]. apply Hf, Hrest. Qed.

(** A number is taken whole. *)
Lemma star_takes_digits d :
  forallb is_digit d = true -> star_takes ic Digit d id no_digit_ahead.
Proof.
  induction d as [|x d IH]; intros Hd.
  - apply star_takes_nil, fails_digit.
  - cbn [forallb] in Hd. apply andb_true_iff in Hd as [Hx Hd].
    change (x :: d) with ([x] ++ d).
    apply (star_takes_cons Digit [x] d id id (fun _ => True));
      [apply takes_digit, Hx|discriminate|apply IH, Hd|auto].
Qed.

Lemma takes_plus_digit d :
  digits d -> takes ic (Plus Digit) d id no_digit_ahead.
Proof.
  intros [Hne Hd]. destruct d as [|x d]; [congruence|].
  cbn [forallb] in Hd. apply andb_true_iff in Hd as [Hx Hd].
  change (x :: d) with ([x] ++ d).
  apply (takes_cat Digit (Star Digit) [x] d id id (fun _ => True));
    [apply takes_digit, Hx|apply takes_star, star_takes_digits, Hd|auto].
Qed.

(** The rest of a line is taken to its end. *)
Lemma star_takes_any text :
  Forall (fun x => is_LF x = false) text ->
  star_takes ic AnyChar text id (fun rest => rest = []).
Proof.
  induction 1 as [|x text Hx Htext IH].
  - apply star_takes_nil, fails_anychar.
  - change (x :: text) with ([x] ++ text).
    apply (star_takes_cons AnyChar [x] text id id (fun _ => True));
      [apply takes_anychar, Hx|discriminate|exact IH|auto].
Qed.

End MatcherFacts.

(** ** The characters of a literal *)

Lemma lit_matches_In ic a x : lit_matches ic a x = true <-> In x (literal_class ic a).
Proof.
  unfold lit_matches. rewrite existsb_exists. split.
  - intros (y & Hy & Hxy). apply N.eqb_eq in Hxy. subst y. exact Hy.
  - intros Hin. exists x. split; [exact Hin|apply N.eqb_refl].
Qed.

(** The characters that the literal of [H] stands for, one goal each. *)
Ltac class_cases H :=
  apply lit_matches_In in H; vm_compute in H;
  repeat match type of H with
         | _ \/ _ => destruct H as [H|H]
         end;
  first [contradiction | symmetry in H; subst].

Lemma lit_comma x : lit_matches true "," x = true -> x = pt ",".
Proof. intros H. class_cases H; reflexivity. Qed.

Lemma lit_colon x : lit_matches true ":" x = true -> x = pt ":".
Proof. intros H. class_cases H; reflexivity. Qed.

Lemma lit_space x : lit_matches true " " x = true -> x = pt " ".
Proof. intros H. class_cases H; reflexivity. Qed.

Lemma lit_hash x : lit_matches true "#" x = true -> x = pt "#".
Proof. intros H. class_cases H; reflexivity. Qed.

Lemma lit_dash x : lit_matches true "-" x = true -> x = pt "-".
Proof. intros H. class_cases H; reflexivity. Qed.

(** ** The action word *)

Lemma lower_cons x w : lower (x :: w) = lower_point x ++ lower w.
Proof. reflexivity. Qed.

(** A text whose lower case is a word of lower-case ASCII letters. *)
Lemma lower_inv w : forall l,
  lower w = l ->
  Forall (fun a => 97 <= a <= 122)%N l ->
  Forall2 (fun a x => (97 <= a <= 122)%N /\ lower_point x = [a]) l w.
Proof.
  induction w as [|x w IH]; intros l Hw Hl.
  - cbn in Hw. subst l. constructor.
  - rewrite lower_cons in Hw.
    destruct (lower_point x) as [|a [|b rest]] eqn:Hx.
    + exfalso. unfold lower_point in Hx.
      destruct (is_upper x); [discriminate|].
      destruct (x =? 304)%N; [discriminate|].
      destruct (x =? 8490)%N; discriminate.
    + cbn [app] in Hw. subst l. inversion Hl as [|? ? Ha Hl']; subst.
      constructor; [split; [exact Ha|exact Hx]|]. apply IH; [reflexivity|exact Hl'].
    + exfalso. unfold lower_point in Hx.
      destruct (is_upper x); [discriminate|].
      destruct (x =? 304)%N.
      * injection Hx as <- <- <-. cbn [app] in Hw. subst l.
        inversion Hl as [|? ? _ Hl']; subst.
        inversion Hl' as [|? ? Hb _]; subst. lia.
      * destruct (x =? 8490)%N; discriminate.
Qed.

Lemma lower_point_matches a x :
  (97 <= pt a <= 122)%N -> lower_point x = [pt a] -> lit_matches true a x = true.
Proof.
  intros Ha Hx. apply lit_matches_In. unfold literal_class.
  assert (Hlo : lower_ascii (pt a) = pt a).
  { unfold lower_ascii, is_upper.
    destruct (65 <=? pt a)%N eqn:H1; destruct (pt a <=? 90)%N eqn:H2; cbn [andb];
      try reflexivity.
    apply N.leb_le in H2. lia. }
  rewrite Hlo. unfold case_variants.
  rewrite (proj2 (N.leb_le 97 (pt a))) by lia.
  rewrite (proj2 (N.leb_le (pt a) 122)) by lia. cbn [andb].
  unfold lower_point in Hx. destruct (is_upper x) eqn:Hup.
  - injection Hx as Hx. right. right. left. lia.
  - destruct (x =? 304)%N; [discriminate|].
    destruct (x =? 8490)%N eqn:Hk.
    + injection Hx as Hx. apply N.eqb_eq in Hk. subst x. rewrite <- Hx.
      right. right. right. cbn. left. reflexivity.
    + injection Hx as Hx. left. symmetry. exact Hx.
Qed.

Lemma action_word_spelled word action : action_word word action -> spelled word action.
Proof.
  unfold action_word, spelled. intros Hword.
  apply lower_inv in Hword.
  2: { destruct action; repeat constructor; vm_compute; discriminate. }
  unfold codes in Hword. apply Forall2_fmap_l in Hword.
  eapply Forall2_impl; [exact Hword|].
  intros a x [Ha Hx]. apply lower_point_matches; assumption.
Qed.

(** The lower case of a spelling of one action word is not the other
    action word. *)
Lemma spelled_lower word action action' :
  spelled word action -> lower word = codes (action_name action') -> action' = action.
Proof.
  unfold spelled. intros Hword Hlower.
  destruct action, action'; try reflexivity; exfalso;
    inversion Hword as [|a x l w Hx _]; subst;
    rewrite lower_cons in Hlower; class_cases Hx; discriminate Hlower.
Qed.

Lemma getattr_of_word word action :
  action_word word action -> getattr_action (lower word) = Ok action.
Proof.
  unfold action_word, getattr_action. intros ->. destruct action; reflexivity.
Qed.

Lemma getattr_of_spelling word action :
  spelled word action -> ~ action_word word action ->
  getattr_action (lower word) = Raise (AttributeError (utf8 (lower word))).
Proof.
  intros Hword Hnot. unfold getattr_action.
  destruct (decide (lower word = codes "fixes")) as [Hf|_].
  - apply (spelled_lower word action Fixes Hword) in Hf as Heq. subst action.
    contradiction.
  - destruct (decide (lower word = codes "refs")) as [Hr|_]; [|reflexivity].
    apply (spelled_lower word action Refs Hword) in Hr as Heq. subst action.
    contradiction.
Qed.

(** ** The summary pattern along a line of the grammar *)

Lemma takes_lits l :
  l <> [] -> forall w,
  Forall2 (fun a x => lit_matches true a x = true) l w ->
  takes true (Lits l) w id (fun _ => True).
Proof.
  induction l as [|a l IH]; [congruence|]. intros _ w Hw.
  inversion Hw as [|a' x l' w' Hx Hrest]; subst.
  destruct l as [|b l].
  - inversion Hrest; subst. apply takes_lit. exact Hx.
  - change (Lits (a :: b :: l)) with (Cat (Lit a) (Lits (b :: l))).
    change (x :: w') with ([x] ++ w').
    apply (takes_cat true (Lit a) (Lits (b :: l)) [x] w' id id (fun _ => True));
      [apply takes_lit; exact Hx|apply IH; [discriminate|exact Hrest]|auto].
Qed.

Lemma fails_lits a l (ok : list N -> Prop) :
  (forall rest, ok rest -> match rest with
                           | x :: _ => lit_matches true a x = false
                           | [] => True
                           end) ->
  fails true (Lits (a :: l)) ok.
Proof.
  intros Hok.
  assert (Hlit : fails true (Lit a) ok) by (apply fails_lit, Hok).
  destruct l as [|b l]; [exact Hlit|].
  change (Lits (a :: b :: l)) with (Cat (Lit a) (Lits (b :: l))).
  apply fails_cat, Hlit.
Qed.

Lemma takes_word word action :
  spelled word action ->
  takes true (Alt (Lits (chars "fixes")) (Lits (chars "refs"))) word id (fun _ => True).
Proof.
  unfold spelled. intros Hword. destruct action.
  - apply takes_alt_l, takes_lits; [discriminate|exact Hword].
  - apply takes_alt_r; [|apply takes_lits; [discriminate|exact Hword]].
    apply fails_lits. intros s (rest & -> & _).
    inversion Hword as [|a x l w Hx _]; subst. cbn [app].
    class_cases Hx; reflexivity.
Qed.

Lemma takes_token_round sep d :
  tight_comma sep -> digits d ->
  takes true token_round (sep ++ pt "#" :: d)
        (fun c => (4%nat, sep ++ pt "#" :: d) :: (5%nat, d) :: c) no_digit_ahead.
Proof.
  intros Hsep Hd. apply takes_group.
  assert (Hhash : takes true (Cat (Lit "#") (Group 5 (Plus Digit))) (pt "#" :: d)
                        (fun c => (5%nat, d) :: c) no_digit_ahead).
  { change (pt "#" :: d) with ([pt "#"] ++ d).
    apply (takes_cat true (Lit "#") (Group 5 (Plus Digit)) [pt "#"] d id
             (fun c => (5%nat, d) :: c) (fun _ => True));
      [apply takes_lit; reflexivity|apply takes_group, takes_plus_digit, Hd|auto]. }
  destruct Hsep as [-> | ->].
  - change (codes "," ++ pt "#" :: d) with ([pt ","] ++ [] ++ pt "#" :: d).
    apply (takes_cat true (Lit ",") _ [pt ","] ([] ++ pt "#" :: d) id
             (fun c => (5%nat, d) :: c) (fun _ => True));
      [apply takes_lit; reflexivity| |auto].
    apply (takes_cat true (Opt (Lit " ")) _ [] (pt "#" :: d) id
             (fun c => (5%nat, d) :: c) (first_is (fun x => x = pt "#")));
      [|exact Hhash|intros rest _; reflexivity].
    apply takes_opt_none, fails_lit. intros [|x rest]; cbn [first_is]; [tauto|].
    intros ->. reflexivity.
  - change (codes ", " ++ pt "#" :: d) with ([pt ","] ++ [pt " "] ++ pt "#" :: d).
    apply (takes_cat true (Lit ",") _ [pt ","] ([pt " "] ++ pt "#" :: d) id
             (fun c => (5%nat, d) :: c) (fun _ => True));
      [apply takes_lit; reflexivity| |auto].
    apply (takes_cat true (Opt (Lit " ")) _ [pt " "] (pt "#" :: d) id
             (fun c => (5%nat, d) :: c) (fun _ => True));
      [|exact Hhash|auto].
    apply takes_opt_some, takes_lit. reflexivity.
Qed.

Lemma fails_token_round : fails true token_round after_reflist.
Proof.
  apply fails_group, fails_cat, fails_lit.
  intros [|x rest] [Hcomma _]; [exact I|]. cbn [first_is_not] in Hcomma.
  destruct (lit_matches true "," x) eqn:Hm; [|reflexivity].
  apply lit_comma in Hm. contradiction.
Qed.

Lemma render_more_cons sep d more :
  render_more ((sep, d) :: more) = (sep ++ pt "#" :: d) ++ render_more more.
Proof. reflexivity. Qed.

Lemma render_more_no_digit more rest :
  Forall (fun sd => tight_comma (fst sd) /\ digits (snd sd)) more ->
  no_digit_ahead rest ->
  no_digit_ahead (render_more more ++ rest).
Proof.
  intros Hmore Hrest. destruct Hmore as [|[sep d] more [Hsep _] _]; [exact Hrest|].
  rewrite render_more_cons. cbn [fst] in Hsep.
  destruct Hsep as [-> | ->]; reflexivity.
Qed.

Lemma star_takes_more more :
  Forall (fun sd => tight_comma (fst sd) /\ digits (snd sd)) more ->
  star_takes true token_round (render_more more) (pushes more) after_reflist.
Proof.
  induction 1 as [|[sep d] more [Hsep Hd] Hmore IH].
  - apply star_takes_nil, fails_token_round.
  - cbn [fst snd] in Hsep, Hd. rewrite render_more_cons.
    apply (star_takes_cons true token_round (sep ++ pt "#" :: d) (render_more more)
             (fun c => (4%nat, sep ++ pt "#" :: d) :: (5%nat, d) :: c)
             (pushes more) no_digit_ahead after_reflist).
    + apply takes_token_round; assumption.
    + destruct sep; discriminate.
    + exact IH.
    + intros rest [_ Hrest]. apply render_more_no_digit; assumption.
Qed.

Lemma summary_regex_tree :
  p_regex COMMIT_VALID_SUMMARY_REGEX =
  Cat Bos
 (Cat (Group 1 (Alt (Lits (chars "fixes")) (Lits (chars "refs"))))
 (Cat (Lit " ")
 (Cat (Group 2 reflist_regex)
 (Cat mark_regex
 (Cat (Lit " ")
 (Cat (Star AnyChar) Eos)))))).
Proof. reflexivity. Qed.

Lemma takes_reflist d0 more :
  digits d0 ->
  Forall (fun sd => tight_comma (fst sd) /\ digits (snd sd)) more ->
  takes true reflist_regex (pt "#" :: d0 ++ render_more more)
        (fun c => pushes more ((3%nat, d0) :: c)) after_reflist.
Proof.
  intros Hd0 Hmore.
  change (pt "#" :: d0 ++ render_more more) with ([pt "#"] ++ d0 ++ render_more more).
  apply (takes_cat true (Lit "#") _ [pt "#"] (d0 ++ render_more more) id
           (fun c => pushes more ((3%nat, d0) :: c)) (fun _ => True));
    [apply takes_lit; reflexivity| |auto].
  apply (takes_cat true (Group 3 (Plus Digit)) (Star token_round) d0 (render_more more)
           (fun c => (3%nat, d0) :: c) (pushes more) no_digit_ahead).
  - apply takes_group, takes_plus_digit, Hd0.
  - apply takes_star, star_takes_more, Hmore.
  - intros rest [_ Hrest]. apply render_more_no_digit; assumption.
Qed.

Lemma takes_mark mark :
  mark = codes ":" \/ mark = codes " -" ->
  takes true mark_regex mark (fun c => (6%nat, mark) :: c) (fun _ => True).
Proof.
  intros [-> | ->]; apply takes_group.
  - apply takes_alt_l, takes_lit. reflexivity.
  - apply takes_alt_r; [|apply takes_lits; [discriminate|repeat constructor]].
    apply fails_lit. intros s (rest & -> & _). reflexivity.
Qed.

Lemma mark_after_reflist mark rest :
  mark = codes ":" \/ mark = codes " -" -> after_reflist (mark ++ rest).
Proof.
  intros [-> | ->]; split; cbn; solve [discriminate|reflexivity].
Qed.

Lemma summary_match word action d0 more mark text :
  spelled word action ->
  digits d0 ->
  Forall (fun sd => tight_comma (fst sd) /\ digits (snd sd)) more ->
  mark = codes ":" \/ mark = codes " -" ->
  Forall (fun x => is_LF x = false) text ->
  let line := word ++ pt " " :: (pt "#" :: d0 ++ render_more more) ++ mark
                   ++ pt " " :: text in
  re_match COMMIT_VALID_SUMMARY_REGEX line
  = Some {| m_end := length line; m_groups := summary_groups word d0 more mark |}.
Proof.
  intros Hword Hd0 Hmore Hmark Htext line.
  unfold re_match, match_at. rewrite summary_regex_tree.
  change (p_ignorecase COMMIT_VALID_SUMMARY_REGEX) with true.
  change (bt true (Cat Bos ?r) 0 ?s ?c ?k) with (bt true r 0 s c k).
  assert (Htail : takes true (Cat (Lit " ") (Cat (Star AnyChar) Eos)) (pt " " :: text)
                        id (fun rest => rest = [])).
  { change (pt " " :: text) with ([pt " "] ++ text).
    apply (takes_cat true (Lit " ") _ [pt " "] text id id (fun _ => True));
      [apply takes_lit; reflexivity| |auto].
    rewrite <- (app_nil_r text).
    apply (takes_cat true (Star AnyChar) Eos text [] id id (fun rest => rest = []));
      [apply takes_star, star_takes_any, Htext|apply takes_eos|auto]. }
  assert (Hall :
    takes true
      (Cat (Group 1 (Alt (Lits (chars "fixes")) (Lits (chars "refs"))))
      (Cat (Lit " ")
      (Cat (Group 2 reflist_regex)
      (Cat mark_regex
      (Cat (Lit " ") (Cat (Star AnyChar) Eos))))))
      (word ++ [pt " "] ++ (pt "#" :: d0 ++ render_more more) ++ mark
            ++ pt " " :: text)
      (fun c => (6%nat, mark) :: (2%nat, pt "#" :: d0 ++ render_more more)
                  :: pushes more ((3%nat, d0) :: (1%nat, word) :: c))
      (fun rest => rest = [])).
  { apply (takes_cat true _ _ word _ (fun c => (1%nat, word) :: c)
             (fun c => (6%nat, mark) :: (2%nat, pt "#" :: d0 ++ render_more more)
                         :: pushes more ((3%nat, d0) :: c))
             (fun _ => True));
      [apply takes_group, (takes_word word action), Hword| |auto].
    apply (takes_cat true (Lit " ") _ [pt " "] _ id
             (fun c => (6%nat, mark) :: (2%nat, pt "#" :: d0 ++ render_more more)
                         :: pushes more ((3%nat, d0) :: c))
             (fun _ => True));
      [apply takes_lit; reflexivity| |auto].
    apply (takes_cat true (Group 2 reflist_regex) _ _ _
             (fun c => (2%nat, pt "#" :: d0 ++ render_more more)
                         :: pushes more ((3%nat, d0) :: c))
             (fun c => (6%nat, mark) :: c)
             after_reflist).
    - apply takes_group, takes_reflist; assumption.
    - apply (takes_cat true mark_regex _ mark _ (fun c => (6%nat, mark) :: c) id
               (fun _ => True));
        [apply takes_mark, Hmark|exact Htail|auto].
    - intros rest _. rewrite <- app_assoc. apply mark_after_reflist, Hmark. }
  specialize (Hall _ (fun pos' _ c => Some {| m_end := pos'; m_groups := c |})
                0%nat [] [] _ eq_refl eq_refl).
  rewrite app_nil_r in Hall. exact Hall.
Qed.

Lemma assoc_pushes (i : nat) more c :
  i <> 4%nat -> i <> 5%nat -> assoc i (pushes more c) = assoc i c.
Proof.
  intros H4 H5. revert c. induction more as [|[sep d] more IH]; intros c; [reflexivity|].
  cbn [pushes fold_left]. fold (pushes more). rewrite IH. cbn [assoc fst snd].
  destruct (decide (i = 4%nat)); [contradiction|].
  destruct (decide (i = 5%nat)); [contradiction|]. reflexivity.
Qed.

Lemma summary_group_action word d0 more mark n :
  group COMMIT_VALID_SUMMARY_REGEX
    {| m_end := n; m_groups := summary_groups word d0 more mark |} "action" = Some word.
Proof.
  unfold group, group_n, summary_groups. simpl.
  rewrite assoc_pushes by discriminate. reflexivity.
Qed.

Lemma summary_group_issues word d0 more mark n :
  group COMMIT_VALID_SUMMARY_REGEX
    {| m_end := n; m_groups := summary_groups word d0 more mark |} "issues"
  = Some (pt "#" :: d0 ++ render_more more).
Proof. reflexivity. Qed.

(** ** The issue pattern along a reference list *)

Lemma issue_match pos d rest :
  digits d -> no_digit_ahead rest ->
  match_at COMMIT_ISSUES_REGEX pos (pt "#" :: d ++ rest)
  = Some {| m_end := pos + S (length d); m_groups := [(1%nat, d)] |}.
Proof.
  intros Hd Hrest. unfold match_at.
  change (p_regex COMMIT_ISSUES_REGEX) with (Cat (Lit "#") (Group 1 (Plus Digit))).
  change (p_ignorecase COMMIT_ISSUES_REGEX) with false.
  assert (Ht : takes false (Cat (Lit "#") (Group 1 (Plus Digit))) ([pt "#"] ++ d)
                     (fun c => (1%nat, d) :: c) no_digit_ahead).
  { apply (takes_cat false (Lit "#") (Group 1 (Plus Digit)) [pt "#"] d id
             (fun c => (1%nat, d) :: c) (fun _ => True));
      [apply takes_lit; reflexivity|apply takes_group, takes_plus_digit, Hd|auto]. }
  apply (Ht _ (fun pos' _ c => Some {| m_end := pos'; m_groups := c |}) pos rest []);
    [exact Hrest|reflexivity].
Qed.

Lemma issue_no_match pos x rest :
  x <> pt "#" -> match_at COMMIT_ISSUES_REGEX pos (x :: rest) = None.
Proof.
  intros Hx. unfold match_at.
  change (p_regex COMMIT_ISSUES_REGEX) with (Cat (Lit "#") (Group 1 (Plus Digit))).
  change (p_ignorecase COMMIT_ISSUES_REGEX) with false.
  cbn [bt].
  assert (Hm : lit_matches false "#" x = false).
  { destruct (lit_matches false "#" x) eqn:Hm; [|reflexivity].
    class_cases Hm. contradiction Hx. reflexivity. }
  rewrite Hm. reflexivity.
Qed.

Lemma findall_token fuel pos d rest :
  digits d -> no_digit_ahead rest ->
  findall_go COMMIT_ISSUES_REGEX (S fuel) pos (pt "#" :: d ++ rest)
  = d :: findall_go COMMIT_ISSUES_REGEX fuel (pos + S (length d)) rest.
Proof.
  intros Hd Hrest. cbn [findall_go]. rewrite issue_match by assumption.
  cbn [m_end m_groups group_n assoc default].
  destruct (decide (1%nat = 1%nat)); [|congruence]. cbn [default].
  rewrite (proj2 (Nat.ltb_lt pos (pos + S (length d)))) by lia.
  replace (pos + S (length d) - pos)%nat with (S (length d)) by lia.
  cbn [drop]. rewrite drop_app_length. reflexivity.
Qed.

Lemma findall_skip fuel pos x rest :
  x <> pt "#" ->
  findall_go COMMIT_ISSUES_REGEX (S fuel) pos (x :: rest)
  = findall_go COMMIT_ISSUES_REGEX fuel (S pos) rest.
Proof. intros Hx. cbn [findall_go]. rewrite issue_no_match by assumption. reflexivity. Qed.

Lemma findall_more more :
  Forall (fun sd => tight_comma (fst sd) /\ digits (snd sd)) more ->
  forall fuel pos,
    (length (render_more more) < fuel)%nat ->
    findall_go COMMIT_ISSUES_REGEX fuel pos (render_more more) = map snd more.
Proof.
  induction 1 as [|[sep d] more [Hsep Hd] Hmore IH]; intros fuel pos Hfuel.
  - destruct fuel; [simpl in Hfuel; lia|]. reflexivity.
  - cbn [fst snd] in Hsep, Hd.
    rewrite render_more_cons in *.
    rewrite <- app_assoc in *.
    assert (Hnext : no_digit_ahead (render_more more)).
    { rewrite <- (app_nil_r (render_more more)).
      apply render_more_no_digit; [exact Hmore|exact I]. }
    destruct Hsep as [-> | ->]; rewrite length_app in Hfuel;
      cbn [length codes chars map] in Hfuel.
    + destruct fuel as [|[|fuel]]; [simpl in Hfuel; lia|simpl in Hfuel; lia|].
      change (codes "," ++ (pt "#" :: d) ++ render_more more)
        with (pt "," :: pt "#" :: d ++ render_more more).
      rewrite findall_skip by (vm_compute; discriminate).
      rewrite findall_token by assumption.
      cbn [map snd]. f_equal. apply IH. simpl in Hfuel. rewrite length_app in Hfuel. lia.
    + destruct fuel as [|[|[|fuel]]];
        [simpl in Hfuel; lia|simpl in Hfuel; lia|simpl in Hfuel; lia|].
      change (codes ", " ++ (pt "#" :: d) ++ render_more more)
        with (pt "," :: pt " " :: pt "#" :: d ++ render_more more).
      rewrite findall_skip by (vm_compute; discriminate).
      rewrite findall_skip by (vm_compute; discriminate).
      rewrite findall_token by assumption.
      cbn [map snd]. f_equal. apply IH. simpl in Hfuel. rewrite length_app in Hfuel. lia.
Qed.

Lemma findall_reflist d0 more :
  digits d0 ->
  Forall (fun sd => tight_comma (fst sd) /\ digits (snd sd)) more ->
  findall COMMIT_ISSUES_REGEX (pt "#" :: d0 ++ render_more more) = d0 :: map snd more.
Proof.
  intros Hd0 Hmore. unfold findall.
  assert (Hnext : no_digit_ahead (render_more more)).
  { rewrite <- (app_nil_r (render_more more)).
    apply render_more_no_digit; [exact Hmore|exact I]. }
  rewrite findall_token by assumption. f_equal.
  apply findall_more; [exact Hmore|]. cbn [length]. rewrite length_app. lia.
Qed.

(** ** The numbers of the tokens *)

Lemma int_of_digits d : digits d -> short d -> int d = Ok (int_digits d).
Proof.
  intros [Hne Hd] Hshort. unfold int. destruct d; [congruence|]. rewrite Hd.
  unfold short in Hshort.
  rewrite (proj2 (Z.ltb_ge _ _)) by exact Hshort. reflexivity.
Qed.

Lemma int_of_long d :
  digits d -> ~ short d -> int d = Raise (ValueError (int_limit_message (length d))).
Proof.
  intros [Hne Hd] Hlong. unfold int. destruct d; [congruence|]. rewrite Hd.
  unfold short in Hlong.
  rewrite (proj2 (Z.ltb_lt _ _)) by lia. reflexivity.
Qed.

Lemma ints_of_digits ids :
  Forall digits ids -> Forall short ids -> rmapM int ids = Ok (map int_digits ids).
Proof.
  induction 1 as [|d ids Hd Hids IH]; intros Hshort; [reflexivity|].
  inversion Hshort as [|? ? Hs Hshort']; subst.
  cbn [rmapM map]. rewrite (int_of_digits d Hd Hs). cbn [rbind].
  rewrite IH by exact Hshort'. reflexivity.
Qed.

Lemma ints_of_long before d after :
  Forall digits before -> Forall short before -> digits d -> ~ short d ->
  rmapM int (before ++ d :: after) = Raise (ValueError (int_limit_message (length d))).
Proof.
  induction 1 as [|d' before Hd' Hbefore IH]; intros Hshort Hd Hlong.
  - cbn [app rmapM]. rewrite (int_of_long d Hd Hlong). reflexivity.
  - inversion Hshort as [|? ? Hs Hshort']; subst.
    cbn [app rmapM]. rewrite (int_of_digits d' Hd' Hs). cbn [rbind].
    rewrite IH by assumption. reflexivity.
Qed.

Lemma short_dec d : {short d} + {~ short d}.
Proof. unfold short. destruct (Z_le_dec (Z.of_nat (length d)) int_max_str_digits); auto. Qed.

(** The first number that is too long. *)
Lemma first_long ids :
  ~ Forall short ids ->
  exists before d after, ids = before ++ d :: after /\ Forall short before /\ ~ short d.
Proof.
  induction ids as [|d ids IH]; intros Hnot.
  - destruct Hnot. constructor.
  - destruct (short_dec d) as [Hs|Hl].
    + destruct IH as (before & d' & after & -> & Hbefore & Hlong).
      { intros Hall. apply Hnot. constructor; assumption. }
      exists (d :: before), d', after. split; [reflexivity|].
      split; [constructor; assumption|exact Hlong].
    + exists [], d, ids. split; [reflexivity|]. split; [constructor|exact Hl].
Qed.

Lemma all_short_dec ids : {Forall short ids} + {~ Forall short ids}.
Proof. apply Forall_dec. intros d. apply short_dec. Qed.

(** ** Parsing one commit *)

Lemma fold_action_add action issues : forall commit,
  fold_left (fun cm i => action_add cm action i) issues commit =
  {| sha := sha commit; message := message commit;
     fixes := match action with
              | Fixes => list_to_set issues ∪ fixes commit
              | Refs => fixes commit
              end;
     refs := match action with
             | Fixes => refs commit
             | Refs => list_to_set issues ∪ refs commit
             end |}.
Proof.
  induction issues as [|i issues IH]; intros commit; simpl.
  - destruct commit, action; simpl; f_equal; rewrite (left_id_L ∅ (∪)); reflexivity.
  - rewrite IH. destruct action; simpl; f_equal;
      rewrite (comm_L (∪) {[i]} (list_to_set issues)), <- (assoc_L (∪)); reflexivity.
Qed.

Lemma subject_first_line item_sha item_message line fx rf :
  first_line item_message = Some line ->
  subject {| sha := item_sha; message := item_message; fixes := fx; refs := rf |}
  = Ok line.
Proof.
  unfold first_line, subject. cbn [message].
  destruct (splitlines item_message); simpl; congruence.
Qed.

Lemma reference_list_digits sep_ok reflist ids :
  reference_list sep_ok reflist ids -> ids <> [] /\ Forall digits ids.
Proof.
  intros (d0 & more & _ & -> & Hd0 & Hmore).
  split; [discriminate|]. constructor; [exact Hd0|].
  apply Forall_map. eapply Forall_impl; [exact Hmore|]. intros sd [_ Hd]. exact Hd.
Qed.

(** A line that the pattern matches: the attribute is looked up under the
    lower case of the word, then the numbers are converted one by one. *)
Lemma parse_commit_matched item_sha item_message line word action ids :
  first_line item_message = Some line ->
  matched_summary line word action ids ->
  parse_commit item_sha item_message =
  rbind (getattr_action (lower word)) (fun field =>
  rbind (rmapM int ids) (fun issues =>
    Ok (fold_left (fun cm i => action_add cm field i) issues
          {| sha := item_sha; message := item_message; fixes := ∅; refs := ∅ |}))).
Proof.
  intros Hline [(reflist & mark & rest & -> & Hrefs & Hmark & Hrest) Hword].
  destruct Hrefs as (d0 & more & -> & -> & Hd0 & Hmore).
  destruct Hrest as (text & -> & Htext).
  unfold parse_commit. rewrite (subject_first_line _ _ _ _ _ Hline). cbn [rbind].
  rewrite (summary_match word action d0 more mark text) by assumption.
  rewrite summary_group_action, summary_group_issues.
  change (default [] (Some ?x)) with x.
  rewrite findall_reflist by assumption. reflexivity.
Qed.

Lemma parse_commit_valid item_sha item_message line action ids :
  first_line item_message = Some line ->
  valid_summary line action ids ->
  Forall short ids ->
  parse_commit item_sha item_message =
  Ok {| sha := item_sha; message := item_message;
        fixes := match action with Fixes => ids_of ids | Refs => ∅ end;
        refs := match action with Fixes => ∅ | Refs => ids_of ids end |}.
Proof.
  intros Hline (word & Hshape & Hword) Hshort.
  rewrite (parse_commit_matched item_sha item_message line word action ids Hline)
    by (split; [exact Hshape|apply action_word_spelled, Hword]).
  rewrite (getattr_of_word word action Hword). cbn [rbind].
  destruct Hshape as (reflist & mark & rest & _ & Hrefs & _).
  apply reference_list_digits in Hrefs as [_ Hdigits].
  rewrite ints_of_digits by assumption.
  cbn [rbind]. rewrite fold_action_add. unfold ids_of. cbn [sha message fixes refs].
  f_equal. destruct action; f_equal; apply (right_id_L ∅ (∪)).
Qed.

Lemma parse_commit_long item_sha item_message line action before d after :
  first_line item_message = Some line ->
  valid_summary line action (before ++ d :: after) ->
  Forall short before -> ~ short d ->
  parse_commit item_sha item_message
  = Raise (ValueError (int_limit_message (length d))).
Proof.
  intros Hline (word & Hshape & Hword) Hshort Hlong.
  rewrite (parse_commit_matched item_sha item_message line word action _ Hline)
    by (split; [exact Hshape|apply action_word_spelled, Hword]).
  rewrite (getattr_of_word word action Hword). cbn [rbind].
  destruct Hshape as (reflist & mark & rest & _ & Hrefs & _).
  apply reference_list_digits in Hrefs as [_ Hdigits].
  apply Forall_app in Hdigits as [Hbefore Hrest].
  inversion Hrest as [|? ? Hd _]; subst.
  rewrite ints_of_long by assumption. reflexivity.
Qed.

Lemma parse_commit_misspelled item_sha item_message line word action ids :
  first_line item_message = Some line ->
  matched_summary line word action ids ->
  ~ action_word word action ->
  parse_commit item_sha item_message = Raise (AttributeError (utf8 (lower word))).
Proof.
  intros Hline Hmatched Hnot.
  rewrite (parse_commit_matched item_sha item_message line word action ids Hline Hmatched).
  rewrite (getattr_of_spelling word action (proj2 Hmatched) Hnot). reflexivity.
Qed.

(** ** What the matcher accepts is a text of the pattern *)

Section Soundness.
Context {R : Type}.
Variable ic : bool.

Lemma star_rounds_sound (r : regex)
    (IH : forall pos s c (k : @kont R) m,
        bt ic r pos s c k = Some m ->
        exists w s' c', s = w ++ s' /\ Matches ic r pos w s' /\
                        k (pos + length w)%nat s' c' = Some m)
    (k : @kont R) n : forall pos s c m,
  star_rounds (bt ic r) k n pos s c = Some m ->
  exists w s' c', s = w ++ s' /\ Matches ic (Star r) pos w s' /\
                  k (pos + length w)%nat s' c' = Some m.
Proof.
  induction n as [|n IHn]; intros pos s c m Hm; simpl in Hm.
  - exists [], s, c. rewrite Nat.add_0_r. repeat split; [constructor|exact Hm].
  - destruct (bt ic r pos s c _) as [m'|] eqn:Hround.
    + injection Hm as ->.
      apply IH in Hround as (w1 & s1 & c1 & -> & Hw1 & Hk).
      destruct (Nat.ltb pos (pos + length w1)); [|discriminate].
      apply IHn in Hk as (w2 & s2 & c2 & -> & Hw2 & Hk).
      exists (w1 ++ w2), s2, c2. rewrite <- app_assoc. split; [reflexivity|].
      split; [constructor; assumption|].
      rewrite <- Hk. f_equal. rewrite length_app. lia.
    + exists [], s, c. rewrite Nat.add_0_r. repeat split; [constructor|exact Hm].
Qed.

Lemma bt_sound (r : regex) : forall pos s c (k : @kont R) m,
  bt ic r pos s c k = Some m ->
  exists w s' c', s = w ++ s' /\ Matches ic r pos w s' /\
                  k (pos + length w)%nat s' c' = Some m.
Proof.
  induction r as [a| | | | |r1 IH1 r2 IH2|r1 IH1 r2 IH2|r1 IH1|r1 IH1|i r1 IH1|];
    intros pos s c k m Hm; cbn [bt] in Hm.
  - destruct s as [|x s]; [discriminate|].
    destruct (lit_matches ic a x) eqn:Hx; [|discriminate].
    exists [x], s, c. simpl. rewrite Nat.add_1_r. repeat split; [constructor|]; assumption.
  - destruct s as [|x s]; [discriminate|].
    destruct (is_LF x) eqn:Hx; [discriminate|].
    exists [x], s, c. simpl. rewrite Nat.add_1_r. repeat split; [constructor|]; assumption.
  - destruct s as [|x s]; [discriminate|].
    destruct (is_digit x) eqn:Hx; [|discriminate].
    exists [x], s, c. simpl. rewrite Nat.add_1_r. repeat split; [constructor|]; assumption.
  - destruct (Nat.eqb pos 0) eqn:Hpos; [|discriminate].
    apply Nat.eqb_eq in Hpos as ->.
    exists [], s, c. repeat split; [constructor|exact Hm].
  - destruct s; [|discriminate].
    exists [], [], c. rewrite Nat.add_0_r. repeat split; [constructor|exact Hm].
  - apply IH1 in Hm as (w1 & s1 & c1 & -> & Hw1 & Hm).
    apply IH2 in Hm as (w2 & s2 & c2 & -> & Hw2 & Hm).
    exists (w1 ++ w2), s2, c2. rewrite <- app_assoc. split; [reflexivity|].
    split; [constructor; assumption|].
    rewrite <- Hm. f_equal. rewrite length_app. lia.
  - destruct (bt ic r1 pos s c k) as [m'|] eqn:H1.
    + injection Hm as ->. apply IH1 in H1 as (w & s' & c' & -> & Hw & Hk).
      exists w, s', c'. repeat split; [apply M_AltL|]; assumption.
    + apply IH2 in Hm as (w & s' & c' & -> & Hw & Hk).
      exists w, s', c'. repeat split; [apply M_AltR|]; assumption.
  - destruct (bt ic r1 pos s c k) as [m'|] eqn:H1.
    + injection Hm as ->. apply IH1 in H1 as (w & s' & c' & -> & Hw & Hk).
      exists w, s', c'. repeat split; [apply M_OptSome|]; assumption.
    + exists [], s, c. rewrite Nat.add_0_r. repeat split; [apply M_OptNone|exact Hm].
  - apply (star_rounds_sound r1 IH1) in Hm. exact Hm.
  - apply IH1 in Hm as (w & s' & c' & -> & Hw & Hk).
    exists w, s', (((i, take (pos + length w - pos) (w ++ s')) :: c')).
    repeat split; [constructor|]; assumption.
  - exists [], s, c. rewrite Nat.add_0_r. repeat split; [constructor|exact Hm].
Qed.

End Soundness.

(** ** The texts of the summary pattern *)

Lemma Matches_lits l : l <> [] -> forall pos w rest,
  Matches true (Lits l) pos w rest ->
  Forall2 (fun a x => lit_matches true a x = true) l w.
Proof.
  induction l as [|a l IH]; [congruence|]. intros _ pos w rest Hm.
  destruct l as [|b l].
  - inversion Hm; subst. repeat constructor. assumption.
  - change (Lits (a :: b :: l)) with (Cat (Lit a) (Lits (b :: l))) in Hm.
    inversion Hm as [| | | | |? ? ? w1 w2 ? H1 H2| | | | | | | |]; subst.
    inversion H1; subst. cbn [app]. constructor; [assumption|].
    eapply IH; [discriminate|exact H2].
Qed.

Lemma Matches_star_digit pos w rest :
  Matches true (Star Digit) pos w rest -> forallb is_digit w = true.
Proof.
  remember (Star Digit) as r eqn:Hr. intros Hm.
  induction Hm; try discriminate; [reflexivity|].
  injection Hr as ->. rewrite forallb_app. apply andb_true_iff. split; [|auto].
  inversion Hm1; subst. cbn [forallb]. rewrite andb_true_r. assumption.
Qed.

Lemma Matches_plus_digit pos w rest :
  Matches true (Plus Digit) pos w rest -> digits w.
Proof.
  intros Hm. inversion Hm as [| | | | |? ? ? w1 w2 ? H1 H2| | | | | | | |]; subst.
  inversion H1; subst. split; [discriminate|]. cbn [app forallb].
  apply andb_true_iff. split; [assumption|].
  eapply Matches_star_digit. exact H2.
Qed.

Lemma Matches_star_any pos w rest :
  Matches true (Star AnyChar) pos w rest -> Forall (fun x => is_LF x = false) w.
Proof.
  remember (Star AnyChar) as r eqn:Hr. intros Hm.
  induction Hm; try discriminate; [constructor|].
  injection Hr as ->. apply Forall_app. split; [|auto].
  inversion Hm1; subst. repeat constructor. assumption.
Qed.

Lemma Matches_cat_inv ic r1 r2 pos w rest :
  Matches ic (Cat r1 r2) pos w rest ->
  exists w1 w2, w = w1 ++ w2 /\ Matches ic r1 pos w1 (w2 ++ rest) /\
                Matches ic r2 (pos + length w1) w2 rest.
Proof. intros Hm. inversion Hm; subst. eauto. Qed.

Lemma Matches_group_inv ic i r pos w rest :
  Matches ic (Group i r) pos w rest -> Matches ic r pos w rest.
Proof. intros Hm. inversion Hm; subst. assumption. Qed.

Lemma Matches_alt_inv ic r1 r2 pos w rest :
  Matches ic (Alt r1 r2) pos w rest ->
  Matches ic r1 pos w rest \/ Matches ic r2 pos w rest.
Proof. intros Hm. inversion Hm; subst; auto. Qed.

Lemma Matches_opt_inv ic r pos w rest :
  Matches ic (Opt r) pos w rest -> Matches ic r pos w rest \/ w = [].
Proof. intros Hm. inversion Hm; subst; auto. Qed.

Lemma Matches_eos_inv ic pos w rest :
  Matches ic Eos pos w rest -> w = [] /\ rest = [].
Proof. intros Hm. inversion Hm; subst. auto. Qed.

Lemma Matches_word pos w rest :
  Matches true (Alt (Lits (chars "fixes")) (Lits (chars "refs"))) pos w rest ->
  exists action, spelled w action.
Proof.
  intros Hm. apply Matches_alt_inv in Hm as [Hm|Hm];
    apply Matches_lits in Hm; try discriminate.
  - exists Fixes. exact Hm.
  - exists Refs. exact Hm.
Qed.

Lemma Matches_comma pos w rest : Matches true (Lit ",") pos w rest -> w = [pt ","].
Proof. intros Hm. inversion Hm; subst. f_equal. apply lit_comma. assumption. Qed.

Lemma Matches_space pos w rest : Matches true (Lit " ") pos w rest -> w = [pt " "].
Proof. intros Hm. inversion Hm; subst. f_equal. apply lit_space. assumption. Qed.

Lemma Matches_hash pos w rest : Matches true (Lit "#") pos w rest -> w = [pt "#"].
Proof. intros Hm. inversion Hm; subst. f_equal. apply lit_hash. assumption. Qed.

Lemma Matches_colon pos w rest : Matches true (Lit ":") pos w rest -> w = [pt ":"].
Proof. intros Hm. inversion Hm; subst. f_equal. apply lit_colon. assumption. Qed.

Lemma Matches_token_round pos w rest :
  Matches true token_round pos w rest ->
  exists sep d, w = sep ++ pt "#" :: d /\ tight_comma sep /\ digits d.
Proof.
  intros Hm. apply Matches_group_inv in Hm.
  apply Matches_cat_inv in Hm as (w1 & w' & -> & H1 & Hm).
  apply Matches_cat_inv in Hm as (w2 & w'' & -> & H2 & Hm).
  apply Matches_cat_inv in Hm as (w3 & w4 & -> & H3 & H4).
  apply Matches_comma in H1 as ->. apply Matches_hash in H3 as ->.
  apply Matches_group_inv, Matches_plus_digit in H4.
  apply Matches_opt_inv in H2 as [H2 | ->].
  - apply Matches_space in H2 as ->. exists (codes ", "), w4.
    split; [reflexivity|]. split; [right; reflexivity|exact H4].
  - exists (codes ","), w4.
    split; [reflexivity|]. split; [left; reflexivity|exact H4].
Qed.

Lemma Matches_token_rounds pos w rest :
  Matches true (Star token_round) pos w rest ->
  exists more, w = render_more more /\
               Forall (fun sd => tight_comma (fst sd) /\ digits (snd sd)) more.
Proof.
  remember (Star token_round) as r eqn:Hr. intros Hm.
  induction Hm; try discriminate.
  - exists []. split; [reflexivity|constructor].
  - injection Hr as ->.
    apply Matches_token_round in Hm1 as (sep & d & -> & Hsep & Hd).
    destruct (IHHm2 eq_refl) as (more & -> & Hmore).
    exists ((sep, d) :: more). split; [reflexivity|].
    constructor; [split; assumption|exact Hmore].
Qed.

Lemma Matches_reflist pos w rest :
  Matches true reflist_regex pos w rest ->
  exists ids, reference_list tight_comma w ids.
Proof.
  intros Hm.
  apply Matches_cat_inv in Hm as (w1 & w' & -> & H1 & Hm).
  apply Matches_cat_inv in Hm as (w2 & w3 & -> & H2 & H3).
  apply Matches_hash in H1 as ->.
  apply Matches_group_inv, Matches_plus_digit in H2.
  apply Matches_token_rounds in H3 as (more & -> & Hmore).
  exists (w2 :: map snd more), w2, more. auto.
Qed.

Lemma Matches_mark pos w rest :
  Matches true mark_regex pos w rest -> w = codes ":" \/ w = codes " -".
Proof.
  intros Hm. apply Matches_group_inv, Matches_alt_inv in Hm as [Hm|Hm].
  - left. apply Matches_colon in Hm. exact Hm.
  - right. apply Matches_lits in Hm; [|discriminate].
    inversion Hm as [|a x l w' Hx Hrest]; subst.
    inversion Hrest as [|b y l' w'' Hy Hnil]; subst.
    inversion Hnil; subst.
    apply lit_space in Hx. apply lit_dash in Hy. subst. reflexivity.
Qed.

(** A subject that the summary pattern matches is a line of its grammar,
    with a spelling of an action word. *)
Lemma summary_sound line m :
  re_match COMMIT_VALID_SUMMARY_REGEX line = Some m ->
  exists word action ids, matched_summary line word action ids.
Proof.
  unfold re_match, match_at. intros Hm.
  apply bt_sound in Hm as (w & s' & c' & -> & Hm & _).
  rewrite summary_regex_tree in Hm.
  change (p_ignorecase COMMIT_VALID_SUMMARY_REGEX) with true in Hm.
  apply Matches_cat_inv in Hm as (w0 & w1 & -> & H0 & Hm).
  apply Matches_cat_inv in Hm as (word & w2 & -> & Hword & Hm).
  apply Matches_cat_inv in Hm as (sp & w3 & -> & Hsp & Hm).
  apply Matches_cat_inv in Hm as (reflist & w4 & -> & Hrefs & Hm).
  apply Matches_cat_inv in Hm as (mark & w5 & -> & Hmark & Hm).
  apply Matches_cat_inv in Hm as (sp' & w6 & -> & Hsp' & Hm).
  apply Matches_cat_inv in Hm as (text & w7 & -> & Htext & Heos).
  apply Matches_eos_inv in Heos as [-> ->].
  inversion H0; subst.
  apply Matches_group_inv, Matches_word in Hword as [action Hword].
  apply Matches_space in Hsp as ->. apply Matches_space in Hsp' as ->.
  apply Matches_group_inv, Matches_reflist in Hrefs as [ids Hrefs].
  apply Matches_mark in Hmark. apply Matches_star_any in Htext.
  exists word, action, ids. split; [|exact Hword].
  exists reflist, mark, (pt " " :: text).
  rewrite !app_nil_r. cbn [app]. repeat split; auto.
  exists text. auto.
Qed.

(** A line that the pattern does not match is no line of its grammar. *)
Lemma summary_complete line :
  re_match COMMIT_VALID_SUMMARY_REGEX line = None ->
  forall word action ids, ~ matched_summary line word action ids.
Proof.
  intros Hm word action ids [(reflist & mark & rest & -> & Hrefs & Hmark & Hrest) Hword].
  destruct Hrefs as (d0 & more & -> & -> & Hd0 & Hmore).
  destruct Hrest as (text & -> & Htext).
  rewrite (summary_match word action d0 more mark text) in Hm by assumption.
  discriminate.
Qed.

Lemma valid_summary_matched line action ids :
  valid_summary line action ids <->
  exists word, matched_summary line word action ids /\ action_word word action.
Proof.
  split.
  - intros (word & Hshape & Hword). exists word.
    split; [split; [exact Hshape|apply action_word_spelled, Hword]|exact Hword].
  - intros (word & [Hshape _] & Hword). exists word. auto.
Qed.

(** ** The first line of a message *)

Lemma is_LF_linebreak c : is_LF c = true -> is_linebreak c = true.
Proof.
  unfold is_LF, is_linebreak. intros Hc. apply N.eqb_eq in Hc. rewrite Hc. reflexivity.
Qed.

Lemma splitlines_go_prefix prefix : forall cur s,
  Forall (fun c => is_linebreak c = false) prefix ->
  splitlines_go cur false (prefix ++ s) = splitlines_go (cur ++ prefix) false s.
Proof.
  induction prefix as [|c prefix IH]; intros cur s Hp; cbn [app splitlines_go andb].
  - rewrite app_nil_r. reflexivity.
  - inversion Hp as [|? ? Hc Hp']; subst. rewrite Hc.
    rewrite IH by assumption. rewrite <- app_assoc. reflexivity.
Qed.

Lemma splitlines_go_head s : forall cur,
  cur <> [] ->
  exists text, head (splitlines_go cur false s) = Some (cur ++ text) /\
               Forall (fun x => is_LF x = false) text.
Proof.
  induction s as [|c s IH]; intros cur Hcur; cbn [splitlines_go andb].
  - exists []. rewrite app_nil_r. destruct cur; [congruence|]. split; [reflexivity|constructor].
  - destruct (is_linebreak c) eqn:Hc.
    + exists []. rewrite app_nil_r. split; [reflexivity|constructor].
    + destruct (IH (cur ++ [c])) as (text & Hhead & Htext).
      { destruct cur; discriminate. }
      exists (c :: text). rewrite Hhead, <- app_assoc. split; [reflexivity|].
      constructor; [|exact Htext].
      destruct (is_LF c) eqn:Hlf; [|reflexivity].
      apply is_LF_linebreak in Hlf. congruence.
Qed.

(** A message that starts with a text without line boundaries: its first
    line is that text and what follows it up to the first boundary. *)
Lemma first_line_prefix prefix description :
  prefix <> [] ->
  Forall (fun c => is_linebreak c = false) prefix ->
  exists text, first_line (prefix ++ description) = Some (prefix ++ text) /\
               Forall (fun x => is_LF x = false) text.
Proof.
  intros Hne Hp. unfold first_line, splitlines.
  rewrite splitlines_go_prefix by assumption.
  apply splitlines_go_head. exact Hne.
Qed.

Lemma splitlines_go_nonempty s cur : cur <> [] -> splitlines_go cur false s <> [].
Proof.
  intros Hcur Hnil. destruct (splitlines_go_head s cur Hcur) as (text & Hhead & _).
  rewrite Hnil in Hhead. discriminate.
Qed.

Lemma first_line_None message : first_line message = None <-> message = [].
Proof.
  unfold first_line, splitlines. split.
  - destruct message as [|c message]; [reflexivity|]. cbn [splitlines_go andb].
    destruct (is_linebreak c); [discriminate|]. intros Hhead.
    destruct (splitlines_go ([] ++ [c]) false message) eqn:Hgo; [|discriminate].
    apply splitlines_go_nonempty in Hgo; [contradiction|discriminate].
  - intros ->. reflexivity.
Qed.

(** The empty message has no first line: [subject] raises [IndexError]. *)
Lemma parse_commit_empty_message item_sha :
  first_line [] = None /\ parse_commit item_sha [] = Raise IndexError.
Proof. split; reflexivity. Qed.

(** The ways a message with a first line is parsed. *)
Lemma parse_commit_cases item_sha item_message line :
  first_line item_message = Some line ->
  (exists word action ids,
     matched_summary line word action ids /\
     parse_commit item_sha item_message =
     rbind (getattr_action (lower word)) (fun field =>
     rbind (rmapM int ids) (fun issues =>
       Ok (fold_left (fun cm i => action_add cm field i) issues
             {| sha := item_sha; message := item_message;
                fixes := ∅; refs := ∅ |})))) \/
  ((forall word action ids, ~ matched_summary line word action ids) /\
   parse_commit item_sha item_message =
   Ok {| sha := item_sha; message := item_message; fixes := ∅; refs := ∅ |}).
Proof.
  intros Hline.
  destruct (re_match COMMIT_VALID_SUMMARY_REGEX line) as [m|] eqn:Hm.
  - left. apply summary_sound in Hm as (word & action & ids & Hmatched).
    exists word, action, ids. split; [exact Hmatched|].
    eapply parse_commit_matched; eassumption.
  - right. split; [apply summary_complete, Hm|].
    unfold parse_commit. rewrite (subject_first_line _ _ _ _ _ Hline). cbn [rbind].
    rewrite Hm. reflexivity.
Qed.

Lemma matched_summary_digits line word action ids :
  matched_summary line word action ids -> ids <> [] /\ Forall digits ids.
Proof.
  intros [(reflist & mark & rest & _ & Hrefs & _) _].
  eapply reference_list_digits. exact Hrefs.
Qed.

(** What a parse of a message with a first line comes to: the sets of a
    line of the grammar with an action word and numbers within the limit;
    the [ValueError] of the first number beyond the limit; the
    [AttributeError] of a word that only spells an action word; two empty
    sets for any other line. *)
Lemma parse_commit_outcome item_sha item_message line :
  first_line item_message = Some line ->
  (exists action ids,
     valid_summary line action ids /\ Forall short ids /\
     parse_commit item_sha item_message =
     Ok {| sha := item_sha; message := item_message;
           fixes := match action with Fixes => ids_of ids | Refs => ∅ end;
           refs := match action with Fixes => ∅ | Refs => ids_of ids end |}) \/
  (exists action before d after,
     valid_summary line action (before ++ d :: after) /\
     Forall short before /\ ~ short d /\
     parse_commit item_sha item_message
     = Raise (ValueError (int_limit_message (length d)))) \/
  (exists word action ids,
     matched_summary line word action ids /\ ~ action_word word action /\
     parse_commit item_sha item_message = Raise (AttributeError (utf8 (lower word)))) \/
  ((forall word action ids, ~ matched_summary line word action ids) /\
   parse_commit item_sha item_message =
   Ok {| sha := item_sha; message := item_message; fixes := ∅; refs := ∅ |}).
Proof.
  intros Hline.
  destruct (parse_commit_cases item_sha item_message line Hline)
    as [(word & action & ids & Hmatched & _)|Hnone]; [|auto].
  destruct (decide (lower word = codes (action_name action))) as [Hword|Hnot].
  - assert (Hvalid : valid_summary line action ids).
    { apply valid_summary_matched. exists word. auto. }
    destruct (all_short_dec ids) as [Hshort|Hlong].
    + left. exists action, ids. split; [exact Hvalid|]. split; [exact Hshort|].
      eapply parse_commit_valid; eassumption.
    + right. left. apply first_long in Hlong as (before & d & after & -> & Hbefore & Hd).
      exists action, before, d, after. split; [exact Hvalid|].
      split; [exact Hbefore|]. split; [exact Hd|].
      eapply parse_commit_long; eassumption.
  - right. right. left. exists word, action, ids.
    split; [exact Hmatched|]. split; [exact Hnot|].
    eapply parse_commit_misspelled; eassumption.
Qed.

(** C2, as the code has it: a message with a first line of the grammar of
    the pattern (comma and at most one space between the tokens, a space
    after the colon or the dash), an action word in ASCII letters of any
    case and numbers of at most 4300 decimal digits is parsed to exactly
    the numbers of its tokens, in [fixes] or in [refs] as the action word
    says; with a number of more digits the parse raises the [ValueError]
    of [int]; with a word that the pattern takes for an action word
    without its lower case being one (a spelling with U+0130, U+0131 or
    U+017F) it raises the [AttributeError] of [getattr]; a message with
    any other first line is parsed to two empty sets, without an
    exception. *)
Theorem parse_commit_grammar item_sha item_message line :
  first_line item_message = Some line ->
  (forall action ids,
     valid_summary line action ids -> Forall short ids ->
     parse_commit item_sha item_message =
     Ok {| sha := item_sha; message := item_message;
           fixes := match action with Fixes => ids_of ids | Refs => ∅ end;
           refs := match action with Fixes => ∅ | Refs => ids_of ids end |}) /\
  (forall action before d after,
     valid_summary line action (before ++ d :: after) ->
     Forall short before -> ~ short d ->
     parse_commit item_sha item_message
     = Raise (ValueError (int_limit_message (length d)))) /\
  (forall word action ids,
     matched_summary line word action ids -> ~ action_word word action ->
     parse_commit item_sha item_message
     = Raise (AttributeError (utf8 (lower word)))) /\
  ((forall word action ids, ~ matched_summary line word action ids) ->
   parse_commit item_sha item_message =
   Ok {| sha := item_sha; message := item_message; fixes := ∅; refs := ∅ |}) /\
  (forall action ids,
     valid_summary line action ids <->
     exists word, matched_summary line word action ids /\ action_word word action).
Proof.
  intros Hline. split; [|split; [|split; [|split]]].
  - intros action ids Hvalid Hshort. eapply parse_commit_valid; eassumption.
  - intros action before d after Hvalid Hbefore Hd.
    eapply parse_commit_long; eassumption.
  - intros word action ids Hmatched Hnot.
    eapply parse_commit_misspelled; eassumption.
  - intros Hnone.
    destruct (parse_commit_cases item_sha item_message line Hline)
      as [(word & action & ids & Hmatched & _)|[_ Hparse]]; [|exact Hparse].
    destruct (Hnone word action ids Hmatched).
  - intros action ids. apply valid_summary_matched.
Qed.

Lemma refs_12_7_30_valid :
  valid_summary (codes "Refs #12, #7,#30 - do it") Refs [codes "12"; codes "7"; codes "30"].
Proof.
  exists (codes "Refs"). split; [|reflexivity].
  exists (codes "#12, #7,#30"), (codes " -"), (codes " do it").
  split; [reflexivity|]. split.
  - exists (codes "12"), [(codes ", ", codes "7"); (codes ",", codes "30")].
    split; [reflexivity|]. split; [reflexivity|].
    split; [split; [discriminate|reflexivity]|].
    repeat constructor; cbn [fst snd]; solve [left; reflexivity | right; reflexivity
                                             | discriminate | reflexivity].
  - split; [right; reflexivity|]. exists (codes "do it").
    split; [reflexivity|]. repeat constructor.
Qed.

Lemma parse_commit_grammar_witness :
  first_line (codes "Refs #12, #7,#30 - do it") = Some (codes "Refs #12, #7,#30 - do it") /\
  parse_commit "abc" (codes "Refs #12, #7,#30 - do it") =
  Ok {| sha := "abc"; message := codes "Refs #12, #7,#30 - do it";
        fixes := ∅; refs := ids_of [codes "12"; codes "7"; codes "30"] |}.
Proof.
  assert (Hline : first_line (codes "Refs #12, #7,#30 - do it")
                  = Some (codes "Refs #12, #7,#30 - do it")) by reflexivity.
  split; [exact Hline|].
  apply (proj1 (parse_commit_grammar "abc" _ _ Hline) Refs _ refs_12_7_30_valid).
  repeat constructor; vm_compute; discriminate.
Defined.

(** C2, as the document has it, fails: a first line with no space after
    the colon, and one with a space before the comma, are lines of the
    grammar of the document, with the tokens 1 and 1, 2; the code takes
    neither and leaves both sets empty.  A first line of the grammar with
    a number of 4301 digits is not parsed to that number: [int] raises. *)
Lemma claimed_grammar_not_parsed :
  (first_line (codes "fixes #1:foo") = Some (codes "fixes #1:foo") /\
   claimed_summary (codes "fixes #1:foo") Fixes [codes "1"] /\
   ids_of [codes "1"] = {[ 1 ]} /\
   parse_commit "abc" (codes "fixes #1:foo") =
   Ok {| sha := "abc"; message := codes "fixes #1:foo"; fixes := ∅; refs := ∅ |}) /\
  (first_line (codes "fixes #1 , #2: foo") = Some (codes "fixes #1 , #2: foo") /\
   claimed_summary (codes "fixes #1 , #2: foo") Fixes [codes "1"; codes "2"] /\
   ids_of [codes "1"; codes "2"] = {[ 1; 2 ]} /\
   parse_commit "abc" (codes "fixes #1 , #2: foo") =
   Ok {| sha := "abc"; message := codes "fixes #1 , #2: foo"; fixes := ∅; refs := ∅ |}) /\
  (let number := replicate 4301 (pt "7") in
   let line := codes "fixes #" ++ number ++ codes ": x" in
   first_line line = Some line /\
   claimed_summary line Fixes [number] /\
   parse_commit "abc" line = Raise (ValueError (int_limit_message 4301))).
Proof.
  split; [|split].
  - split; [reflexivity|]. split; [|split; [vm_compute; reflexivity|vm_compute; reflexivity]].
    exists (codes "fixes"). split; [|reflexivity].
    exists (codes "#1"), (codes ":"), (codes "foo").
    split; [reflexivity|]. split; [|auto].
    exists (codes "1"), []. split; [reflexivity|]. split; [reflexivity|].
    split; [split; [discriminate|reflexivity]|constructor].
  - split; [reflexivity|]. split; [|split; [vm_compute; reflexivity|vm_compute; reflexivity]].
    exists (codes "fixes"). split; [|reflexivity].
    exists (codes "#1 , #2"), (codes ":"), (codes " foo").
    split; [reflexivity|]. split; [|auto].
    exists (codes "1"), [(codes " , ", codes "2")].
    split; [reflexivity|]. split; [reflexivity|].
    split; [split; [discriminate|reflexivity]|].
    constructor; [|constructor]. split; [|split; [discriminate|reflexivity]].
    exists 1%nat, 1%nat. reflexivity.
  - cbv zeta.
    assert (Hdigits : digits (replicate 4301 (pt "7"))).
    { split; [discriminate|]. vm_compute. reflexivity. }
    assert (Hshape : forall rest_ok : list N -> Prop,
               rest_ok (codes " x") ->
               summary_shape tight_comma rest_ok
                 (codes "fixes #" ++ replicate 4301 (pt "7") ++ codes ": x") Fixes
                 [replicate 4301 (pt "7")]).
    { intros rest_ok Hrest. exists (codes "fixes"). split; [|reflexivity].
      exists (pt "#" :: replicate 4301 (pt "7")), (codes ":"), (codes " x").
      split; [|split; [|auto]].
      - reflexivity.
      - exists (replicate 4301 (pt "7")), [].
        split; [cbn [render_more flat_map]; rewrite app_nil_r; reflexivity|].
        split; [reflexivity|]. split; [exact Hdigits|constructor]. }
    assert (Hline : first_line (codes "fixes #" ++ replicate 4301 (pt "7") ++ codes ": x")
                    = Some (codes "fixes #" ++ replicate 4301 (pt "7") ++ codes ": x")).
    { vm_compute. reflexivity. }
    split; [exact Hline|]. split.
    + destruct (Hshape (fun _ => True) I) as (word & (reflist & mark & rest & Heq & Hrefs
                                                     & Hmark & _) & Hword).
      exists word. split; [|exact Hword]. exists reflist, mark, rest.
      split; [exact Heq|]. split; [|auto].
      destruct Hrefs as (d0 & more & Hr & Hids & Hd0 & Hmore).
      exists d0, more. split; [exact Hr|]. split; [exact Hids|]. split; [exact Hd0|].
      eapply Forall_impl; [exact Hmore|]. intros sd [[Hs|Hs] Hd]; (split; [|exact Hd]).
      * exists 0%nat, 0%nat. exact Hs.
      * exists 0%nat, 1%nat. exact Hs.
    + rewrite (parse_commit_long "abc" _ _ Fixes [] (replicate 4301 (pt "7")) [] Hline).
      * rewrite length_replicate. reflexivity.
      * apply Hshape. exists (codes "x"). split; [reflexivity|repeat constructor].
      * constructor.
      * unfold short. rewrite length_replicate. vm_compute. intros H. apply H. reflexivity.
Qed.

(** ** The scenario of the issue in another project *)

Lemma fixes_55_first_line mark description :
  mark = ":" \/ mark = " -" ->
  exists line,
    first_line (codes "fixes #55" ++ codes mark ++ codes " " ++ description) = Some line /\
    valid_summary line Fixes [codes "55"].
Proof.
  intros Hmark.
  assert (Hprefix : exists text,
             first_line ((codes "fixes #55" ++ codes mark ++ codes " ") ++ description)
             = Some ((codes "fixes #55" ++ codes mark ++ codes " ") ++ text) /\
             Forall (fun x => is_LF x = false) text).
  { apply first_line_prefix; destruct Hmark as [-> | ->];
      solve [discriminate | repeat constructor]. }
  destruct Hprefix as (text & Hline & Htext).
  exists ((codes "fixes #55" ++ codes mark ++ codes " ") ++ text). split.
  - rewrite <- Hline. f_equal. rewrite <- !app_assoc. reflexivity.
  - exists (codes "fixes"). split; [|reflexivity].
    exists (codes "#55"), (codes mark), (pt " " :: text).
    split; [destruct Hmark as [-> | ->]; reflexivity|].
    split.
    + exists (codes "55"), []. split; [reflexivity|]. split; [reflexivity|].
      split; [split; [discriminate|reflexivity]|constructor].
    + split; [destruct Hmark as [-> | ->]; auto|]. exists text. auto.
Qed.

Lemma get_issues_from_pr_single item_sha item_message commit CONFIG pull_request
    config tr :
  CONFIG !! pr_base_repo_full_name pull_request = Some config ->
  parse_commit item_sha item_message = Ok commit ->
  let issue_ids := fixes commit ∪ refs commit in
  get_issues_from_pr (Tracker.env [(item_sha, item_message)]) CONFIG pull_request tr =
  (match Tracker.verify_issues tr config issue_ids with
   | Ok issue_results =>
       Ok (issue_results,
           if cfg_required config && bool_decide (fixes commit = ∅)
              && bool_decide (refs commit = ∅)
           then [commit] else [])
   | Raise e => Raise e
   end, tr,
   [GetItem (pr_commits_url pull_request); VerifyIssues config issue_ids]).
Proof.
  intros Hconfig Hparse. cbv zeta.
  unfold get_issues_from_pr, get_commits_from_pull_request, get_config.
  rewrite Hconfig. unfold_monad. cbn [Tracker.env api_getitem fst snd rmapM].
  rewrite Hparse. cbn [rbind fold_left fst snd app].
  replace (∅ ∪ fixes commit ∪ refs commit) with (fixes commit ∪ refs commit)
    by (rewrite (left_id_L ∅ (∪)); reflexivity).
  cbn [redmine_verify_issues Tracker.env].
  destruct (cfg_required config && _ && _); cbn [fst snd];
    destruct (Tracker.verify_issues tr config (fixes commit ∪ refs commit));
    reflexivity.
Qed.

(** C4, as the code has it: with a description after the reference
    ("fixes #55: ..." or "fixes #55 - ..."), issue 55 of project [bar] is
    reported under "Invalid project", with the remediation text, and the
    conclusion is [failure]. *)
Theorem fixes_55_invalid_project item_sha mark description required :
  mark = ":" \/ mark = " -" ->
  let item_message := codes "fixes #55" ++ codes mark ++ codes " " ++ description in
  let pull_request := example_pr "theforeman/foo" "Fix crash" "develop" false in
  let run := run_pull_request_check (Tracker.env [(item_sha, item_message)])
               (example_config required) ∅ 7 pull_request None example_tracker in
  let issue := "[#55: Crash on start](https://projects.theforeman.org/issues/55)" in
  last (events run)
  = Some (Patch "https://api.github.com/repos/theforeman/foo/check-runs/1"
            (completion pull_request "2020-02-02T02:02:02+00:00" "failure"
               {| title := "Invalid project";
                  summary := "* " +:+ issue;
                  text := Some
                    ("### " +:+ issue +:+ nl +:+ nl +:+
                     "* check [#55](https://projects.theforeman.org/issues/55) is the intended issue" +:+ nl +:+
                     "* move [ticket #55](https://projects.theforeman.org/issues/55) from bar to the foo project" +:+ nl +:+
                     "* or file a new ticket in the [foo project](https://projects.theforeman.org/projects/foo/issues/new)" +:+ nl) |})).
Proof.
  intros Hmark. cbv zeta.
  destruct (fixes_55_first_line mark description Hmark) as (line & Hline & Hvalid).
  assert (Hshort : Forall short [codes "55"])
    by (repeat constructor; vm_compute; discriminate).
  pose proof (parse_commit_valid item_sha _ line Fixes _ Hline Hvalid Hshort) as Hparse.
  rewrite run_pull_request_check_steps.
  set (item_message := codes "fixes #55" ++ codes mark ++ codes " " ++ description) in *.
  clearbody item_message.
  assert (Hconfig : forall req,
             example_config req !! pr_base_repo_full_name
               (example_pr "theforeman/foo" "Fix crash" "develop" false)
             = Some {| cfg_project := Some "foo"; cfg_required := req; cfg_refs := ∅;
                       cfg_version_prefix := None |}).
  { intros req. apply lookup_singleton_eq. }
  assert (Hset : set_check_in_progress (Tracker.env [(item_sha, item_message)])
                   (example_pr "theforeman/foo" "Fix crash" "develop" false) None
                   example_tracker
                 = (Ok {| cr_url := "https://api.github.com/repos/theforeman/foo/check-runs/1";
                          cr_status := "in_progress"; cr_output_text := None |},
                    example_tracker,
                    [Post "https://api.github.com/repos/theforeman/foo/check-runs"
                       (PInProgress
                          {| d_name := CHECK_NAME; d_head_branch := "topic";
                             d_head_sha := "c0ffee"; d_status := "in_progress";
                             d_started_at := "2020-02-02T02:02:02+00:00" |})]))
    by reflexivity.
  rewrite Hset. cbv beta iota. rewrite attempt_loop_rounds.
  rewrite (get_issues_from_pr_single item_sha item_message _ _ _ _ example_tracker
             (Hconfig required) Hparse).
  cbn [fixes refs cfg_required].
  replace (ids_of [codes "55"] ∪ ∅) with ({[ 55 ]} : gset Z) by (vm_compute; reflexivity).
  replace (bool_decide (ids_of [codes "55"] = ∅)) with false by (vm_compute; reflexivity).
  rewrite andb_false_r. cbn [andb].
  destruct required; vm_compute; reflexivity.
Qed.

Lemma fixes_55_invalid_project_witness :
  let pull_request := example_pr "theforeman/foo" "Fix crash" "develop" false in
  let run := run_pull_request_check
               (Tracker.env [("abc", codes "fixes #55" ++ codes ":" ++ codes " "
                                       ++ codes "fix crash")])
               (example_config true) ∅ 7 pull_request None example_tracker in
  (":" = ":" \/ ":" = " -") /\
  exists output,
    last (events run)
    = Some (Patch "https://api.github.com/repos/theforeman/foo/check-runs/1"
              (completion pull_request "2020-02-02T02:02:02+00:00" "failure" output)) /\
    title output = "Invalid project".
Proof.
  cbv zeta. split; [left; reflexivity|].
  eexists. split.
  - exact (fixes_55_invalid_project "abc" ":" (codes "fix crash") true (or_introl eq_refl)).
  - reflexivity.
Defined.

(** C4, as the document has it, fails: the message "fixes #55" has no
    colon or dash and no description, so the pattern rejects it and issue
    55 is never asked for, although the tracker would class it as an issue
    of another project.  Where issues are not required the check succeeds
    with an empty report; where they are required it fails, on an invalid
    commit, and the report has no "Invalid project" entry and no
    remediation text. *)
Lemma fixes_55_without_description :
  let pull_request := example_pr "theforeman/foo" "Fix crash" "develop" false in
  let run required :=
    run_pull_request_check (Tracker.env [("abc", codes "fixes #55")])
      (example_config required) ∅ 7 pull_request None example_tracker in
  let policy :=
    {| cfg_project := Some "foo"; cfg_required := true; cfg_refs := ∅;
       cfg_version_prefix := None |} in
  Tracker.verify_issues example_tracker policy {[ 55 ]}
  = Ok {| valid_issues := [];
          invalid_project_issues := [example_issue 55 (example_project 2 "bar") 1];
          missing_issue_ids := [];
          iv_project := example_project 1 "foo" |} /\
  parse_commit "abc" (codes "fixes #55")
  = Ok {| sha := "abc"; message := codes "fixes #55"; fixes := ∅; refs := ∅ |} /\
  last (events (run false))
  = Some (Patch "https://api.github.com/repos/theforeman/foo/check-runs/1"
            (completion pull_request "2020-02-02T02:02:02+00:00" "success"
               {| title := "Redmine Issue Report"; summary := ""; text := None |})) /\
  last (events (run true))
  = Some (Patch "https://api.github.com/repos/theforeman/foo/check-runs/1"
            (completion pull_request "2020-02-02T02:02:02+00:00" "failure"
               {| title := "Invalid commits";
                  summary := "* abc must be in the format `fixes #redmine - brief description`";
                  text := None |})).
Proof. cbv zeta. repeat split; vm_compute; reflexivity. Qed.

(** * Further properties *)

(** ** Parsing, continued *)

Lemma decimal_base_bounds c b : decimal_base c = Some b -> (b <= c < b + 10)%N.
Proof.
  unfold decimal_base. intros Hfind. apply find_some in Hfind as [_ Hb].
  apply andb_true_iff in Hb as [Hlo Hhi].
  apply N.leb_le in Hlo. apply N.ltb_lt in Hhi. lia.
Qed.

Lemma digit_value_bounds c : is_digit c = true -> 0 <= digit_value c <= 9.
Proof.
  unfold is_digit, digit_value. destruct (decimal_base c) as [b|] eqn:Hb; [|discriminate].
  intros _. apply decimal_base_bounds in Hb. lia.
Qed.

Lemma int_digits_nonneg d : forallb is_digit d = true -> 0 <= int_digits d.
Proof.
  unfold int_digits.
  assert (Hgen : forall acc, 0 <= acc -> forallb is_digit d = true ->
                             0 <= fold_left (fun acc c => 10 * acc + digit_value c) d acc).
  { induction d as [|c d IH]; intros acc Hacc Hd; cbn [fold_left forallb] in *;
      [exact Hacc|].
    apply andb_true_iff in Hd as [Hc Hd]. apply IH; [|exact Hd].
    pose proof (digit_value_bounds c Hc). lia. }
  apply Hgen. lia.
Qed.

Lemma valid_summary_digits line action ids :
  valid_summary line action ids -> ids <> [] /\ Forall digits ids.
Proof.
  intros (word & (reflist & mark & rest & _ & Hrefs & _) & _).
  eapply reference_list_digits. exact Hrefs.
Qed.

Lemma ids_of_nonempty ids : ids <> [] -> ids_of ids <> ∅.
Proof.
  destruct ids as [|d ids]; [congruence|]. intros _ Hempty.
  unfold ids_of in Hempty. cbn [map list_to_set] in Hempty.
  assert (Hin : int_digits d ∈ ({[int_digits d]} ∪ list_to_set (map int_digits ids) : gset Z))
    by (apply elem_of_union; left; apply elem_of_singleton; reflexivity).
  rewrite Hempty in Hin. apply elem_of_empty in Hin. exact Hin.
Qed.

Lemma ids_of_nonneg ids z : Forall digits ids -> z ∈ ids_of ids -> 0 <= z.
Proof.
  unfold ids_of. intros Hids Hz. apply elem_of_list_to_set in Hz.
  apply list_elem_of_fmap in Hz as (d & -> & Hd).
  rewrite Forall_forall in Hids. destruct (Hids d Hd) as [_ Hdig].
  apply int_digits_nonneg, Hdig.
Qed.

(** X1: parsing a commit keeps the sha and the message of its item, and
    it fails in three ways only: on the empty message, with the
    [IndexError] of [subject]; on a first line that the pattern matches
    with a word whose lower case is no action word, with the
    [AttributeError] of [getattr]; on a first line of the grammar with a
    number beyond the limit of [int], with the [ValueError] of the first
    such number. *)
Theorem parse_commit_failures item_sha item_message :
  match parse_commit item_sha item_message with
  | Ok commit =>
      item_message <> [] /\ sha commit = item_sha /\ message commit = item_message
  | Raise e =>
      (item_message = [] /\ e = IndexError) \/
      exists line word action ids,
        first_line item_message = Some line /\
        matched_summary line word action ids /\
        ((~ action_word word action /\ e = AttributeError (utf8 (lower word))) \/
         (action_word word action /\
          exists before d after,
            ids = before ++ d :: after /\ Forall short before /\ ~ short d /\
            e = ValueError (int_limit_message (length d))))
  end.
Proof.
  destruct (first_line item_message) as [line|] eqn:Hline.
  - assert (Hne : item_message <> []).
    { intros Hempty. apply first_line_None in Hempty. congruence. }
    destruct (parse_commit_outcome item_sha item_message line Hline)
      as [(action & ids & _ & _ & ->)
         |[(action & before & d & after & Hvalid & Hbefore & Hd & ->)
          |[(word & action & ids & Hmatched & Hnot & ->)|[_ ->]]]]; auto.
    + right. apply valid_summary_matched in Hvalid as (word & Hmatched & Hword).
      exists line, word, action, (before ++ d :: after).
      split; [reflexivity|]. split; [exact Hmatched|]. right.
      split; [exact Hword|]. exists before, d, after. auto.
    + right. exists line, word, action, ids. auto.
  - apply first_line_None in Hline as ->. left. split; reflexivity.
Qed.

(** X2: a parsed commit never has numbers in both sets: the action word
    fills one of them and the other stays empty. *)
Theorem parse_commit_one_action item_sha item_message :
  match parse_commit item_sha item_message with
  | Ok commit => fixes commit = ∅ \/ refs commit = ∅
  | Raise _ => True
  end.
Proof.
  destruct (first_line item_message) as [line|] eqn:Hline.
  - destruct (parse_commit_outcome item_sha item_message line Hline)
      as [(action & ids & _ & _ & ->)
         |[(action & before & d & after & _ & _ & _ & ->)
          |[(word & action & ids & _ & _ & ->)|[_ ->]]]];
      try exact I; [destruct action|]; cbn [fixes refs]; auto.
  - apply first_line_None in Hline as ->. exact I.
Qed.

(** X3: a message with a first line is parsed to a commit that refers to
    an issue exactly when the line is a line of the grammar of the
    pattern, with an action word and numbers within the limit of
    [int]. *)
Theorem parse_commit_refers_iff_valid item_sha item_message line :
  first_line item_message = Some line ->
  (exists commit,
     parse_commit item_sha item_message = Ok commit /\
     fixes commit ∪ refs commit <> ∅) <->
  (exists action ids, valid_summary line action ids /\ Forall short ids).
Proof.
  intros Hline. split.
  - intros (commit & Hparse & Hrefers).
    destruct (parse_commit_outcome item_sha item_message line Hline)
      as [(action & ids & Hvalid & Hshort & _)
         |[(action & before & d & after & _ & _ & _ & Heq)
          |[(word & action & ids & _ & _ & Heq)|[_ Heq]]]];
      [eauto|congruence|congruence|].
    rewrite Heq in Hparse. injection Hparse as <-. cbn [fixes refs] in Hrefers.
    rewrite (left_id_L ∅ (∪)) in Hrefers. congruence.
  - intros (action & ids & Hvalid & Hshort).
    eexists. split; [eapply parse_commit_valid; eassumption|].
    destruct (valid_summary_digits _ _ _ Hvalid) as [Hne _].
    apply ids_of_nonempty in Hne.
    destruct action; cbn [fixes refs];
      [rewrite (right_id_L ∅ (∪))|rewrite (left_id_L ∅ (∪))]; exact Hne.
Qed.

Lemma parse_commit_refers_iff_valid_witness :
  first_line (codes "refs #3 - tidy up") = Some (codes "refs #3 - tidy up") /\
  ((exists commit,
      parse_commit "abc" (codes "refs #3 - tidy up") = Ok commit /\
      fixes commit ∪ refs commit <> ∅) <->
   (exists action ids,
      valid_summary (codes "refs #3 - tidy up") action ids /\ Forall short ids)).
Proof.
  split; [reflexivity|].
  exact (parse_commit_refers_iff_valid "abc" (codes "refs #3 - tidy up") _ eq_refl).
Defined.

(** X4: the numbers of a parsed commit are not negative. *)
Theorem parse_commit_ids_nonneg item_sha item_message :
  match parse_commit item_sha item_message with
  | Ok commit => forall z, z ∈ fixes commit ∪ refs commit -> 0 <= z
  | Raise _ => True
  end.
Proof.
  destruct (first_line item_message) as [line|] eqn:Hline.
  - destruct (parse_commit_outcome item_sha item_message line Hline)
      as [(action & ids & Hvalid & _ & ->)
         |[(action & before & d & after & _ & _ & _ & ->)
          |[(word & action & ids & _ & _ & ->)|[_ ->]]]]; try exact I.
    + destruct (valid_summary_digits _ _ _ Hvalid) as [_ Hdigits].
      intros z Hz. destruct action; cbn [fixes refs] in Hz;
        [rewrite (right_id_L ∅ (∪)) in Hz|rewrite (left_id_L ∅ (∪)) in Hz];
        eapply ids_of_nonneg; eassumption.
    + cbn [fixes refs]. intros z Hz. rewrite (left_id_L ∅ (∪)) in Hz.
      apply elem_of_empty in Hz. contradiction.
  - apply first_line_None in Hline as ->. exact I.
Qed.

Lemma first_line_only summary_line boundary body :
  summary_line <> [] ->
  Forall (fun c => is_linebreak c = false) summary_line ->
  is_linebreak boundary = true ->
  first_line summary_line = Some summary_line /\
  first_line (summary_line ++ boundary :: body) = Some summary_line.
Proof.
  intros Hne Hline Hb. unfold first_line, splitlines. split.
  - rewrite <- (app_nil_r summary_line) at 1.
    rewrite splitlines_go_prefix by assumption. cbn [app splitlines_go].
    destruct summary_line; [congruence|reflexivity].
  - rewrite splitlines_go_prefix by assumption. cbn [app splitlines_go andb].
    rewrite Hb. reflexivity.
Qed.

(** Two messages with the same first line are parsed alike. *)
Lemma parse_commit_same_line item_sha first second line :
  first_line first = Some line ->
  first_line second = Some line ->
  match parse_commit item_sha first, parse_commit item_sha second with
  | Ok short, Ok long => fixes long = fixes short /\ refs long = refs short
  | Raise e, Raise e' => e' = e
  | _, _ => False
  end.
Proof.
  intros Hfirst Hsecond. unfold parse_commit.
  rewrite (subject_first_line _ _ _ _ _ Hfirst), (subject_first_line _ _ _ _ _ Hsecond).
  cbn [rbind].
  destruct (re_match COMMIT_VALID_SUMMARY_REGEX line) as [m|]; [|split; reflexivity].
  destruct (group COMMIT_VALID_SUMMARY_REGEX m "action") as [word|]; [|reflexivity].
  destruct (getattr_action (lower word)) as [field|e]; cbn [rbind]; [|reflexivity].
  destruct (rmapM int _) as [issues|e]; cbn [rbind]; [|reflexivity].
  rewrite !fold_action_add. cbn [fixes refs]. split; reflexivity.
Qed.

(** X5: only the first line of a message counts: a message of one line
    and the same line followed by a line boundary and any further text
    are parsed to the same two sets, or fail with the same exception. *)
Theorem parse_commit_first_line_only item_sha summary_line boundary body :
  summary_line <> [] ->
  Forall (fun c => is_linebreak c = false) summary_line ->
  is_linebreak boundary = true ->
  match parse_commit item_sha summary_line,
        parse_commit item_sha (summary_line ++ boundary :: body) with
  | Ok short, Ok long => fixes long = fixes short /\ refs long = refs short
  | Raise e, Raise e' => e' = e
  | _, _ => False
  end.
Proof.
  intros Hne Hline Hb.
  destruct (first_line_only summary_line boundary body Hne Hline Hb) as [Hshort Hlong].
  exact (parse_commit_same_line item_sha _ _ _ Hshort Hlong).
Qed.

Lemma parse_commit_first_line_only_witness :
  codes "fixes #8: x" <> [] /\
  Forall (fun c => is_linebreak c = false) (codes "fixes #8: x") /\
  is_linebreak 10 = true /\
  match parse_commit "abc" (codes "fixes #8: x"),
        parse_commit "abc" (codes "fixes #8: x" ++ 10%N :: codes "refs #9: y") with
  | Ok short, Ok long => fixes long = fixes short /\ refs long = refs short
  | Raise e, Raise e' => e' = e
  | _, _ => False
  end.
Proof.
  assert (Hne : codes "fixes #8: x" <> []) by discriminate.
  assert (Hline : Forall (fun c => is_linebreak c = false) (codes "fixes #8: x"))
    by (repeat constructor).
  split; [exact Hne|]. split; [exact Hline|]. split; [reflexivity|].
  exact (parse_commit_first_line_only "abc" (codes "fixes #8: x") 10%N
           (codes "refs #9: y") Hne Hline eq_refl).
Defined.

(** ** The commits of a pull request *)

Lemma rmapM_Ok {A B} (f : A -> result B) l l' :
  rmapM f l = Ok l' -> Forall2 (fun x y => f x = Ok y) l l'.
Proof.
  revert l'. induction l as [|x l IH]; intros l' Hl; cbn [rmapM] in Hl.
  - injection Hl as <-. constructor.
  - destruct (f x) as [y|e] eqn:Hx; [|discriminate]. cbn [rbind] in Hl.
    destruct (rmapM f l) as [ys|e]; [|discriminate]. cbn [rbind] in Hl.
    injection Hl as <-. constructor; [exact Hx|apply IH; reflexivity].
Qed.

(** A list is mapped up to its first element that fails. *)
Lemma rmapM_Raise {A B} (f : A -> result B) l e :
  rmapM f l = Raise e <->
  exists before x after ys,
    l = before ++ x :: after /\ rmapM f before = Ok ys /\ f x = Raise e.
Proof.
  split.
  - induction l as [|x l IH]; intros Hl; cbn [rmapM] in Hl; [discriminate|].
    destruct (f x) as [y|e'] eqn:Hx; cbn [rbind] in Hl.
    + destruct (rmapM f l) as [ys|e'']; cbn [rbind] in Hl; [discriminate|].
      injection Hl as ->.
      destruct (IH eq_refl) as (before & x' & after & ys & -> & Hbefore & Hx').
      exists (x :: before), x', after, (y :: ys). split; [reflexivity|].
      split; [|exact Hx']. cbn [rmapM]. rewrite Hx, Hbefore. reflexivity.
    + injection Hl as ->. exists [], x, l, []. auto.
  - intros (before & x & after & ys & -> & Hbefore & Hx).
    revert ys Hbefore. induction before as [|b before IH]; intros ys Hbefore.
    + cbn [app rmapM]. rewrite Hx. reflexivity.
    + cbn [app rmapM] in *. destruct (f b) as [y|e']; [|discriminate].
      cbn [rbind] in *. destruct (rmapM f before) as [ys'|e']; [|discriminate].
      rewrite (IH ys' eq_refl). reflexivity.
Qed.

Lemma parse_commit_Ok item_sha item_message commit :
  parse_commit item_sha item_message = Ok commit ->
  sha commit = item_sha /\ message commit = item_message /\ item_message <> [].
Proof.
  intros Hparse.
  destruct (first_line item_message) as [line|] eqn:Hline.
  - assert (Hne : item_message <> []).
    { intros Hempty. apply first_line_None in Hempty. congruence. }
    destruct (parse_commit_outcome item_sha item_message line Hline)
      as [(action & ids & _ & _ & Heq)
         |[(action & before & d & after & _ & _ & _ & Heq)
          |[(word & action & ids & _ & _ & Heq)|[_ Heq]]]];
      rewrite Heq in Hparse; try discriminate; injection Hparse as <-; auto.
  - apply first_line_None in Hline as ->. discriminate.
Qed.

(** A list of items with an empty message, after items that parse. *)
Lemma rmapM_parse_empty before item_sha after parsed :
  rmapM (fun item => parse_commit (fst item) (snd item)) before = Ok parsed ->
  rmapM (fun item => parse_commit (fst item) (snd item))
    (before ++ (item_sha, []) :: after) = Raise IndexError.
Proof.
  intros Hbefore. apply rmapM_Raise.
  exists before, (item_sha, []), after, parsed. auto.
Qed.

Section CommitFacts.
Context {W : Type} (env : Env W).

(** X6: fetching the commits makes the one call for the list; when it
    returns, there is one commit per item, in the order of the list, each
    with the sha and the message of its item; it raises when the call
    does, or what the parse of the first item that does not parse
    raises. *)
Theorem get_commits_from_pull_request_items pull_request w :
  let url := pr_commits_url pull_request in
  let fetched := api_getitem env url w in
  let run := get_commits_from_pull_request env pull_request w in
  final run = snd fetched /\
  events run = [GetItem url] /\
  match outcome run with
  | Ok commits =>
      fst fetched = Ok (map (fun commit => (sha commit, message commit)) commits)
  | Raise e =>
      fst fetched = Raise e \/
      exists before item after commits,
        fst fetched = Ok (before ++ item :: after) /\
        rmapM (fun item => parse_commit (fst item) (snd item)) before = Ok commits /\
        parse_commit (fst item) (snd item) = Raise e
  end.
Proof.
  cbv zeta. unfold get_commits_from_pull_request. unfold_monad.
  destruct (api_getitem env (pr_commits_url pull_request) w) as [[items|e] w1];
    cbn [fst snd]; [|auto].
  split; [reflexivity|]. split; [reflexivity|].
  destruct (rmapM _ items) as [commits|e] eqn:Hmap.
  - f_equal. apply rmapM_Ok in Hmap.
    induction Hmap as [|[item_sha item_message] commit items commits Hx _ IH];
      [reflexivity|].
    cbn [fst snd] in Hx. apply parse_commit_Ok in Hx as (Hsha & Hmessage & _).
    cbn [map]. rewrite Hsha, Hmessage, <- IH. reflexivity.
  - right. apply rmapM_Raise in Hmap as (before & item & after & commits & -> & Hb & Hx).
    exists before, item, after, commits. auto.
Qed.

End CommitFacts.

(** ** Titles, summaries and details *)

Lemma startswith_spec s p : startswith s p = true <-> exists rest, s = p ++ rest.
Proof.
  revert s. induction p as [|a p IH]; intros s.
  - split; [eauto|]. intros _. destruct s; reflexivity.
  - destruct s as [|b s].
    + simpl. split; [discriminate|]. intros (rest & Hrest). discriminate.
    + simpl. rewrite andb_true_iff, ascii_eqb_true, IH. split.
      * intros [-> (rest & ->)]. eauto.
      * intros (rest & Heq). injection Heq as -> ->. eauto.
Qed.

Lemma chars_inj a b : chars a = chars b -> a = b.
Proof. intros Heq. rewrite <- (str_of_chars a), <- (str_of_chars b), Heq. reflexivity. Qed.

Lemma startswith_string s p :
  startswith (chars s) (chars p) = true <-> exists rest, s = p +:+ rest.
Proof.
  rewrite startswith_spec. split.
  - intros (rest & Heq). exists (str_of rest). apply chars_inj.
    rewrite chars_app, chars_str_of. exact Heq.
  - intros (rest & ->). exists (chars rest). apply chars_app.
Qed.

(** X7: a pull request counts as a cherry pick exactly when its title
    starts with [CP], [[CP]] or [Cherry picks for ], letter for letter. *)
Theorem pr_is_cherry_pick_prefixes pull_request :
  pr_is_cherry_pick pull_request = true <->
  exists rest,
    pr_title pull_request = "CP" +:+ rest \/
    pr_title pull_request = "[CP]" +:+ rest \/
    pr_title pull_request = "Cherry picks for " +:+ rest.
Proof.
  unfold pr_is_cherry_pick. cbv zeta.
  rewrite !orb_true_iff, !startswith_string. split.
  - intros [[(rest & ->)|(rest & ->)]|(rest & ->)]; eauto.
  - intros (rest & [Ht | [Ht | Ht]]); rewrite Ht; eauto.
Qed.

Lemma summarize_length summary show_headers :
  length (summarize summary show_headers) =
  (length (concat (map snd summary)) +
   (if show_headers then length (non_empty_titles summary) else 0))%nat.
Proof.
  unfold summarize, non_empty_titles.
  induction summary as [|[header lines] summary IH]; [destruct show_headers; reflexivity|].
  change (flat_map ?f (?x :: ?l)) with (f x ++ flat_map f l).
  rewrite length_app, IH. cbn [map concat snd fst]. rewrite length_app.
  destruct lines as [|l lines].
  - rewrite filter_cons_False by (simpl; congruence). simpl. reflexivity.
  - rewrite filter_cons_True by (simpl; congruence).
    rewrite length_app.
    destruct show_headers; simpl; rewrite ?length_map; lia.
Qed.

(** X8: without headers the summary is the bullets of all findings, in
    the order of the categories; with headers it is, for every category
    that has a finding and in their order, the header line of the
    category followed by the bullets of its findings, and nothing for a
    category without findings. *)
Theorem summarize_bullets summary :
  let bullet (l : line) := "* " +:+ str_line l in
  summarize summary false = map bullet (concat (map snd summary)) /\
  summarize summary true
  = concat (map (fun entry => ("### " +:+ fst entry) :: map bullet (snd entry))
                (filter (fun entry => snd entry <> []) summary)) /\
  length (summarize summary true)
  = (length (concat (map snd summary)) + length (non_empty_titles summary))%nat /\
  (Forall (fun entry => snd entry = []) summary -> summarize summary true = []).
Proof.
  cbv zeta. split; [|split; [|split]].
  - unfold summarize.
    induction summary as [|[header lines] summary IH]; [reflexivity|].
    change (flat_map ?f (?x :: ?l)) with (f x ++ flat_map f l).
    rewrite IH. cbn [map concat snd fst]. rewrite map_app.
    destruct lines; reflexivity.
  - unfold summarize.
    induction summary as [|[header lines] summary IH]; [reflexivity|].
    change (flat_map ?f (?x :: ?l)) with (f x ++ flat_map f l).
    rewrite IH. cbn [snd fst].
    destruct lines as [|l lines].
    + rewrite filter_cons_False by (cbn [snd]; congruence). reflexivity.
    + rewrite filter_cons_True by (cbn [snd]; congruence).
      cbn [map concat fst snd app]. reflexivity.
  - apply summarize_length.
  - intros Hempty. unfold summarize.
    induction Hempty as [|[header lines] summary Hlines _ IH]; [reflexivity|].
    simpl in Hlines. subst lines.
    change (flat_map ?f (?x :: ?l)) with (f x ++ flat_map f l). exact IH.
Qed.

Lemma summarize_bullets_witness :
  summarize [("Invalid commits", []); ("Valid issues", [])] true = [].
Proof.
  apply (proj2 (proj2 (proj2
           (summarize_bullets [("Invalid commits", []); ("Valid issues", [])])))).
  repeat constructor.
Defined.

Lemma insert_by_id_perm x l : Permutation (insert_by_id x l) (x :: l).
Proof.
  induction l as [|y l IH]; simpl; [reflexivity|].
  destruct (issue_id y <=? issue_id x); [|reflexivity].
  rewrite IH. apply perm_swap.
Qed.

Lemma insert_by_id_sorted x l :
  StronglySorted (fun a b => issue_id a <= issue_id b) l ->
  StronglySorted (fun a b => issue_id a <= issue_id b) (insert_by_id x l).
Proof.
  induction 1 as [|y l Hl IH Hy]; simpl; [repeat constructor|].
  destruct (issue_id y <=? issue_id x) eqn:Hle.
  - apply Z.leb_le in Hle. constructor; [exact IH|].
    rewrite (insert_by_id_perm x l). constructor; assumption.
  - apply Z.leb_gt in Hle. constructor; [constructor; assumption|].
    constructor; [lia|]. eapply Forall_impl; [exact Hy|]. simpl. intros; lia.
Qed.

(** X9: the issues are listed in ascending order of their numbers, each
    issue of the input once. *)
Theorem format_redmine_issues_sorted issues :
  exists sorted,
    format_redmine_issues issues
    = map (fun issue =>
             LStr ("[#" +:+ pretty (issue_id issue) +:+ ": " +:+ issue_subject issue +:+
                   "](" +:+ issue_url issue +:+ ")")) sorted /\
    Permutation sorted issues /\
    StronglySorted (fun a b => issue_id a <= issue_id b) sorted.
Proof.
  exists (sorted_by_id issues). split; [reflexivity|].
  unfold sorted_by_id.
  assert (Hgen : forall acc,
             StronglySorted (fun a b => issue_id a <= issue_id b) acc ->
             Permutation (fold_left (fun acc x => insert_by_id x acc) issues acc)
                         (issues ++ acc) /\
             StronglySorted (fun a b => issue_id a <= issue_id b)
               (fold_left (fun acc x => insert_by_id x acc) issues acc)).
  { induction issues as [|x issues IH]; intros acc Hacc; simpl; [auto|].
    destruct (IH (insert_by_id x acc) (insert_by_id_sorted x acc Hacc)) as [Hperm Hsorted].
    split; [|exact Hsorted].
    rewrite Hperm, insert_by_id_perm. symmetry. apply Permutation_middle. }
  destruct (Hgen [] (SSorted_nil _)) as [Hperm Hsorted].
  rewrite app_nil_r in Hperm. auto.
Qed.

Lemma join_cons_nonempty sep c x l : join sep (String c x :: l) <> "".
Proof. destruct l; simpl; [discriminate|]. rewrite append_cons. discriminate. Qed.

Lemma format_details_empty invalid_issues correct_project :
  format_details invalid_issues correct_project = "" <-> invalid_issues = [].
Proof.
  split; [|intros ->; reflexivity].
  destruct invalid_issues as [|issue invalid_issues]; [reflexivity|].
  unfold format_details. cbn [map]. intros Hjoin. exfalso.
  revert Hjoin. apply join_cons_nonempty.
Qed.

(** X10: the [text] key is left out of the output exactly when there is no
    issue of another project to explain and the check run had no text
    before; otherwise it is sent, empty if there is nothing to explain. *)
Theorem report_text_omitted check_run issue_results invalid_commits :
  let output := snd (report check_run issue_results invalid_commits) in
  (text output = None <->
   invalid_project_issues issue_results = [] /\
   truthy_str (cr_output_text check_run) = false) /\
  (invalid_project_issues issue_results = [] ->
   truthy_str (cr_output_text check_run) = true ->
   text output = Some "").
Proof.
  unfold report. cbv zeta. cbn [snd text].
  pose proof (format_details_empty (invalid_project_issues issue_results)
                (iv_project issue_results)) as Hdetails.
  split.
  - case_bool_decide as Hd.
    + destruct (truthy_str (cr_output_text check_run)); simpl.
      * split; [discriminate|]. intros [_ Hf]. discriminate.
      * split; [|reflexivity]. intros _. split; [apply Hdetails, Hd|reflexivity].
    + simpl. split; [discriminate|]. intros [Hnil _]. apply Hdetails in Hnil. contradiction.
  - intros Hnil Htruthy. apply Hdetails in Hnil. rewrite Hnil, Htruthy. reflexivity.
Qed.

Lemma report_text_omitted_witness :
  let check_run := {| cr_url := "https://api.github.com/repos/theforeman/foo/check-runs/1";
                      cr_status := "completed";
                      cr_output_text := Some "### details of an earlier run" |} in
  let issue_results := {| valid_issues := []; invalid_project_issues := [];
                          missing_issue_ids := [];
                          iv_project := example_project 1 "foo" |} in
  text (snd (report check_run issue_results [])) = Some "".
Proof.
  cbv zeta.
  exact (proj2 (report_text_omitted
                  {| cr_url := "https://api.github.com/repos/theforeman/foo/check-runs/1";
                     cr_status := "completed";
                     cr_output_text := Some "### details of an earlier run" |}
                  {| valid_issues := []; invalid_project_issues := [];
                     missing_issue_ids := [];
                     iv_project := example_project 1 "foo" |} [])
           eq_refl eq_refl).
Defined.

(** ** The findings of a pull request *)

Lemma fold_findings (required : bool) commits : forall (ids0 : gset Z) inv0,
  let found :=
    fold_left (fun (acc : gset Z * list Commit) commit =>
      let issue_ids := fst acc ∪ fixes commit ∪ refs commit in
      if required && bool_decide (fixes commit = ∅) && bool_decide (refs commit = ∅)
      then (issue_ids, snd acc ++ [commit])
      else (issue_ids, snd acc))
      commits (ids0, inv0) in
  (forall z, z ∈ fst found <->
             z ∈ ids0 \/ exists commit, commit ∈ commits /\
                                        (z ∈ fixes commit \/ z ∈ refs commit)) /\
  snd found = inv0 ++ (if required then List.filter no_reference commits else []).
Proof.
  induction commits as [|c commits IH]; intros ids0 inv0; cbv zeta.
  - simpl. split.
    + intros z. split; [auto|]. intros [Hz|(c & Hc & _)]; [exact Hz|].
      apply elem_of_nil in Hc. contradiction.
    + destruct required; rewrite app_nil_r; reflexivity.
  - cbv zeta in IH. cbn [fold_left fst snd]. cbv zeta.
    assert (Hids : forall z : Z,
               (z ∈ ids0 ∪ fixes c ∪ refs c \/
                exists commit, commit ∈ commits /\ (z ∈ fixes commit \/ z ∈ refs commit))
               <-> (z ∈ ids0 \/
                    exists commit, commit ∈ c :: commits /\
                                   (z ∈ fixes commit \/ z ∈ refs commit))).
    { intros z. rewrite !elem_of_union. split.
      - intros [[[Hz|Hz]|Hz]|(c' & Hc' & Hz)]; [auto| | |].
        + right. exists c. split; [left|auto].
        + right. exists c. split; [left|auto].
        + right. exists c'. split; [right; exact Hc'|exact Hz].
      - intros [Hz|(c' & Hc' & Hz)]; [auto|].
        apply elem_of_cons in Hc' as [->|Hc']; [destruct Hz; auto|].
        right. exists c'. auto. }
    destruct (required && bool_decide (fixes c = ∅) && bool_decide (refs c = ∅)) eqn:Hc.
    + destruct (IH (ids0 ∪ fixes c ∪ refs c) (inv0 ++ [c])) as [IHids IHinv].
      split.
      * intros z. rewrite IHids. apply (Hids z).
      * rewrite IHinv. destruct required; [|discriminate Hc].
        cbn [andb] in Hc. cbn [List.filter]. unfold no_reference at 2. rewrite Hc.
        rewrite <- app_assoc. reflexivity.
    + destruct (IH (ids0 ∪ fixes c ∪ refs c) inv0) as [IHids IHinv].
      split.
      * intros z. rewrite IHids. apply (Hids z).
      * rewrite IHinv. destruct required; [|reflexivity].
        cbn [andb] in Hc. cbn [List.filter]. unfold no_reference at 2. rewrite Hc.
        reflexivity.
Qed.

Section FindingFacts.
Context {W : Type} (env : Env W).
Variable CONFIG : gmap string Config.

(** X11: when the policy is found and the commits are fetched and parsed,
    the verification is asked for exactly the numbers of the [fixes] and
    [refs] sets of the commits; the invalid commits are the commits without
    a reference, in their order, when the policy requires one, and none
    when it does not; what the verification raises is raised. *)
Theorem get_issues_from_pr_findings pull_request w config w0 t0 items w1 commits :
  get_config CONFIG (pr_base_repo_full_name pull_request) w = (Ok config, w0, t0) ->
  api_getitem env (pr_commits_url pull_request) w0 = (Ok items, w1) ->
  rmapM (fun item => parse_commit (fst item) (snd item)) items = Ok commits ->
  exists issue_ids : gset Z,
    (forall z, z ∈ issue_ids <->
               exists commit, commit ∈ commits /\
                              (z ∈ fixes commit \/ z ∈ refs commit)) /\
    get_issues_from_pr env CONFIG pull_request w =
    (match fst (redmine_verify_issues env config issue_ids w1) with
     | Ok issue_results =>
         Ok (issue_results,
             if cfg_required config then List.filter no_reference commits else [])
     | Raise e => Raise e
     end,
     snd (redmine_verify_issues env config issue_ids w1),
     t0 ++ [GetItem (pr_commits_url pull_request); VerifyIssues config issue_ids]).
Proof.
  intros Hconfig Hitems Hcommits.
  destruct (fold_findings (cfg_required config) commits ∅ []) as [Hids Hinv].
  cbv zeta in Hids, Hinv.
  eexists. split.
  - intros z. rewrite (Hids z). split; [|auto].
    intros [Hz|Hz]; [apply elem_of_empty in Hz; contradiction|exact Hz].
  - unfold get_issues_from_pr, get_commits_from_pull_request. unfold_monad.
    rewrite Hconfig, Hitems. cbn [fst snd]. rewrite Hcommits.
    cbv beta iota zeta. rewrite Hinv.
    destruct (redmine_verify_issues env config _ w1) as [[issue_results|e] w2];
      cbn [fst snd]; rewrite ?app_nil_r, <- ?app_assoc; reflexivity.
Qed.

End FindingFacts.

Lemma get_issues_from_pr_findings_witness :
  let pull_request := example_pr "theforeman/foo" "Fix crash" "develop" false in
  let items := [("abc", codes "fixes #10: crash"); ("abd", codes "tidy up")] in
  let config := {| cfg_project := Some "foo"; cfg_required := true; cfg_refs := ∅;
                   cfg_version_prefix := None |} in
  get_config (example_config true) (pr_base_repo_full_name pull_request) example_tracker
  = (Ok config, example_tracker, []) /\
  exists commits (issue_ids : gset Z) issue_results,
    rmapM (fun item => parse_commit (fst item) (snd item)) items = Ok commits /\
    outcome (get_issues_from_pr (Tracker.env items) (example_config true) pull_request
               example_tracker)
    = Ok (issue_results, List.filter no_reference commits) /\
    (forall z, z ∈ issue_ids <->
               exists commit, commit ∈ commits /\
                              (z ∈ fixes commit \/ z ∈ refs commit)).
Proof.
  cbv zeta.
  assert (Hconfig :
    get_config (example_config true)
      (pr_base_repo_full_name (example_pr "theforeman/foo" "Fix crash" "develop" false))
      example_tracker
    = (Ok {| cfg_project := Some "foo"; cfg_required := true; cfg_refs := ∅;
             cfg_version_prefix := None |}, example_tracker, []))
    by (vm_compute; reflexivity).
  split; [exact Hconfig|].
  destruct (rmapM (fun item => parse_commit (fst item) (snd item))
              [("abc", codes "fixes #10: crash"); ("abd", codes "tidy up")]) as [commits|e] eqn:Hcommits;
    [|vm_compute in Hcommits; discriminate].
  destruct (get_issues_from_pr_findings
              (Tracker.env [("abc", codes "fixes #10: crash"); ("abd", codes "tidy up")])
              (example_config true)
              (example_pr "theforeman/foo" "Fix crash" "develop" false)
              example_tracker _ _ _ _ example_tracker commits Hconfig eq_refl Hcommits)
    as (issue_ids & Hids & Hrun).
  exists commits, issue_ids.
  destruct (Tracker.verify_issues example_tracker
              {| cfg_project := Some "foo"; cfg_required := true; cfg_refs := ∅;
                 cfg_version_prefix := None |} issue_ids) as [issue_results|e] eqn:Hverify.
  - exists issue_results. split; [reflexivity|]. split; [|exact Hids].
    rewrite Hrun. unfold outcome. cbn [fst snd Tracker.env redmine_verify_issues].
    rewrite Hverify. reflexivity.
  - vm_compute in Hverify. discriminate.
Defined.

(** ** The check over its calls *)

Section CheckFacts.
Context `{StatusEnum}.
Context {W : Type} (env : Env W).
Variable CONFIG : gmap string Config.
Variable USERS : gmap string Z.
Variable PULL_REQUEST : Z.

Lemma get_issues_from_pr_reads pull_request w :
  Forall (fun ev => tracker_write ev = false)
         (events (get_issues_from_pr env CONFIG pull_request w)).
Proof.
  unfold get_issues_from_pr, get_commits_from_pull_request.
  assert (Hc : Forall (fun ev => tracker_write ev = false)
                 (events (get_config CONFIG (pr_base_repo_full_name pull_request) w))).
  { eapply Forall_impl; [apply get_config_logs|].
    intros ev (level & msg & ->). reflexivity. }
  unfold_monad.
  destruct (get_config CONFIG _ w) as [[[config|e] w1] t1]; simpl in *; [|done].
  destruct (api_getitem env _ w1) as [[items|e] w2]; simpl.
  - destruct (rmapM _ items) as [commits|e]; simpl.
    + destruct (redmine_verify_issues env _ _ w2) as [[iv|e] w3]; simpl;
        rewrite ?app_nil_r; apply Forall_app; split; auto; repeat constructor.
    + rewrite ?app_nil_r. apply Forall_app; split; auto; repeat constructor.
  - apply Forall_app; split; auto; repeat constructor.
Qed.

Lemma attempt_loop_reads pull_request w :
  Forall (fun ev => tracker_write ev = false)
         (events (attempt_loop env CONFIG pull_request 3 (range 1 (3 + 1)) w)).
Proof.
  rewrite attempt_loop_rounds.
  pose proof (get_issues_from_pr_reads pull_request w) as H1.
  destruct (get_issues_from_pr env CONFIG pull_request w) as [[[found|e] w1] t1];
    simpl in *; [exact H1|].
  pose proof (get_issues_from_pr_reads pull_request (sleep_for env 1 w1)) as H2.
  destruct (get_issues_from_pr env CONFIG pull_request (sleep_for env 1 w1))
    as [[[found|e2] w2] t2]; simpl in *.
  { apply Forall_app; split; [exact H1|]. repeat constructor. exact H2. }
  pose proof (get_issues_from_pr_reads pull_request (sleep_for env 2 w2)) as H3.
  destruct (get_issues_from_pr env CONFIG pull_request (sleep_for env 2 w2))
    as [[r w3] t3]; simpl in *.
  apply Forall_app; split; [exact H1|]. repeat constructor.
  apply Forall_app; split; [exact H2|]. repeat constructor. exact H3.
Qed.

Lemma set_check_in_progress_reads pull_request check_run w :
  Forall (fun ev => tracker_write ev = false)
         (events (set_check_in_progress env pull_request check_run w)).
Proof.
  unfold set_check_in_progress. unfold_monad.
  destruct (clock_now env w) as [now w1]. simpl.
  destruct check_run as [cr|].
  - destruct (negb _); simpl.
    + destruct (api_patch env _ _ w1) as [[[]|e] w2]; simpl; repeat constructor.
    + constructor.
  - destruct (api_post env _ _ w1) as [r w2]; simpl. repeat constructor.
Qed.

(** The calls of a reconciliation: a log line, or the save of an issue of
    the list with the changes computed for it. *)
Lemma update_redmine_on_issues_trace pull_request issues w :
  Forall (fun ev =>
            (exists level msg, ev = Log level msg) \/
            (exists issue status updates,
               issue ∈ issues /\
               Status_of_id (issue_status_id issue) = Some status /\
               is_rejected status = false /\
               issue_updates USERS PULL_REQUEST pull_request issue status = Ok updates /\
               updates_nonempty updates = true /\
               ev = IssueSave (issue_id issue) updates))
         (events (update_redmine_on_issues env USERS PULL_REQUEST pull_request issues w)).
Proof.
  revert w. induction issues as [|issue issues IH]; intros w; [constructor|].
  assert (Hlift : forall w',
    Forall (fun ev =>
            (exists level msg, ev = Log level msg) \/
            (exists issue' status updates,
               issue' ∈ issue :: issues /\
               Status_of_id (issue_status_id issue') = Some status /\
               is_rejected status = false /\
               issue_updates USERS PULL_REQUEST pull_request issue' status = Ok updates /\
               updates_nonempty updates = true /\
               ev = IssueSave (issue_id issue') updates))
      (events (update_redmine_on_issues env USERS PULL_REQUEST pull_request issues w'))).
  { intros w'. eapply Forall_impl; [apply IH|].
    intros ev [Hlog|(issue' & status & updates & Hin & Hrest)]; [left; exact Hlog|].
    right. exists issue', status, updates. split; [right; exact Hin|exact Hrest]. }
  rewrite update_redmine_on_issues_cons.
  destruct (Status_of_id _) as [status|] eqn:Hstatus; [|constructor].
  destruct (is_rejected status) eqn:Hrejected; [apply Hlift|].
  destruct (issue_updates _ _ _ _ _) as [updates|e] eqn:Hupdates; [|constructor].
  destruct (updates_nonempty updates) eqn:Hne.
  - assert (Hsave : (exists level msg, IssueSave (issue_id issue) updates = Log level msg) \/
            (exists issue' status updates',
               issue' ∈ issue :: issues /\
               Status_of_id (issue_status_id issue') = Some status /\
               is_rejected status = false /\
               issue_updates USERS PULL_REQUEST pull_request issue' status = Ok updates' /\
               updates_nonempty updates' = true /\
               IssueSave (issue_id issue) updates = IssueSave (issue_id issue') updates')).
    { right. exists issue, status, updates. split; [left|]. auto. }
    destruct (redmine_issue_save env issue updates w) as [[[]|e] w1].
    + specialize (Hlift w1).
      destruct (update_redmine_on_issues env _ _ _ issues w1) as [[r w2] t].
      unfold events in *. cbn [fst snd] in *.
      constructor; [left; eauto|]. constructor; [exact Hsave|exact Hlift].
    + unfold events. cbn [fst snd].
      constructor; [left; eauto|]. constructor; [exact Hsave|constructor].
  - specialize (Hlift w).
    destruct (update_redmine_on_issues env _ _ _ issues w) as [[r w2] t].
    unfold events in *. cbn [fst snd] in *.
    constructor; [left; eauto|exact Hlift].
Qed.

(** X12: a check writes to the tracker only after the validation has
    returned, and only by saving an issue that the validation found
    valid, whose status is not rejected, with the changes computed for
    it.  When the validation fails, the check writes nothing to the
    tracker. *)
Theorem run_pull_request_check_tracker_writes pull_request check_run w ev :
  ev ∈ events (run_pull_request_check env CONFIG USERS PULL_REQUEST
                 pull_request check_run w) ->
  tracker_write ev = true ->
  exists cr w1 t1 found w2 t2 issue status updates,
    set_check_in_progress env pull_request check_run w = (Ok cr, w1, t1) /\
    attempt_loop env CONFIG pull_request 3 (range 1 (3 + 1)) w1 = (Ok found, w2, t2) /\
    issue ∈ valid_issues (fst found) /\
    Status_of_id (issue_status_id issue) = Some status /\
    is_rejected status = false /\
    issue_updates USERS PULL_REQUEST pull_request issue status = Ok updates /\
    updates_nonempty updates = true /\
    ev = IssueSave (issue_id issue) updates.
Proof.
  intros Hev Hwrite. rewrite run_pull_request_check_steps in Hev.
  pose proof (set_check_in_progress_reads pull_request check_run w) as Hstart.
  destruct (set_check_in_progress env pull_request check_run w)
    as [[[cr|e] w1] t1] eqn:Hset; unfold events in Hstart, Hev; cbn [fst snd] in Hstart, Hev.
  2:{ rewrite Forall_forall in Hstart. rewrite (Hstart _ Hev) in Hwrite. discriminate. }
  pose proof (attempt_loop_reads pull_request w1) as Hloop.
  destruct (attempt_loop env CONFIG pull_request 3 (range 1 (3 + 1)) w1)
    as [[[found|e] w2] t2] eqn:Hattempts; unfold events in Hloop; cbn [fst snd] in Hloop.
  - pose proof (update_redmine_on_issues_trace pull_request (valid_issues (fst found)) w2)
      as Hsync.
    assert (Hmid : forall t3 : list event,
              t3 = snd (update_redmine_on_issues env USERS PULL_REQUEST pull_request
                          (valid_issues (fst found)) w2) ->
              forall data more,
              ev ∈ t1 ++ (t2 ++ t3 ++ more) ++ [Patch (cr_url cr) data] ->
              Forall (fun ev => tracker_write ev = false) more ->
              exists issue status updates,
                issue ∈ valid_issues (fst found) /\
                Status_of_id (issue_status_id issue) = Some status /\
                is_rejected status = false /\
                issue_updates USERS PULL_REQUEST pull_request issue status = Ok updates /\
                updates_nonempty updates = true /\
                ev = IssueSave (issue_id issue) updates).
    { intros t3 Ht3 data more Hin Hmore. unfold events in Hsync. rewrite <- Ht3 in Hsync.
      rewrite Forall_forall in Hstart, Hloop, Hsync, Hmore.
      apply elem_of_app in Hin as [Hin|Hin];
        [rewrite (Hstart _ Hin) in Hwrite; discriminate|].
      apply elem_of_app in Hin as [Hin|Hin].
      - apply elem_of_app in Hin as [Hin|Hin];
          [rewrite (Hloop _ Hin) in Hwrite; discriminate|].
        apply elem_of_app in Hin as [Hin|Hin];
          [|rewrite (Hmore _ Hin) in Hwrite; discriminate].
        destruct (Hsync _ Hin) as [(level & msg & ->)|Hsave]; [discriminate|exact Hsave].
      - apply list_elem_of_singleton in Hin. subst ev. discriminate. }
    destruct (update_redmine_on_issues env USERS PULL_REQUEST pull_request
                (valid_issues (fst found)) w2) as [[[[]|e] w3] t3] eqn:Hrun;
      cbn [fst snd] in Hmid.
    + destruct (clock_now env w3) as [completed_at w4].
      destruct (api_patch env _ _ w4) as [r w5].
      cbn [fst snd] in Hev.
      destruct (Hmid t3 eq_refl _ [] ltac:(rewrite app_nil_r; exact Hev)
                  ltac:(constructor)) as (issue & status & updates & Hfound).
      exists cr, w1, t1, found, w2, t2, issue, status, updates. auto.
    + destruct (clock_now env w3) as [completed_at w4].
      destruct (api_patch env _ _ w4) as [r w5].
      cbn [fst snd] in Hev.
      destruct (Hmid t3 eq_refl _ [Log "exception" "Failed to update Redmine issues"]
                  Hev ltac:(repeat constructor)) as (issue & status & updates & Hfound).
      exists cr, w1, t1, found, w2, t2, issue, status, updates. auto.
  - exfalso. rewrite Forall_forall in Hstart, Hloop.
    destruct (is_UnconfiguredRepository e).
    + destruct (clock_now env w2) as [completed_at w4].
      destruct (api_patch env _ _ w4) as [r w5].
      apply elem_of_app in Hev as [Hev|Hev];
        [rewrite (Hstart _ Hev) in Hwrite; discriminate|].
      apply elem_of_app in Hev as [Hev|Hev];
        [rewrite (Hloop _ Hev) in Hwrite; discriminate|].
      apply list_elem_of_singleton in Hev. subst ev. discriminate.
    + destruct (clock_now env w2) as [completed_at w4].
      destruct (api_patch env _ _ w4) as [r w5].
      apply elem_of_app in Hev as [Hev|Hev];
        [rewrite (Hstart _ Hev) in Hwrite; discriminate|].
      apply elem_of_app in Hev as [Hev|Hev].
      * apply elem_of_app in Hev as [Hev|Hev];
          [rewrite (Hloop _ Hev) in Hwrite; discriminate|].
        apply list_elem_of_singleton in Hev. subst ev. discriminate.
      * apply list_elem_of_singleton in Hev. subst ev. discriminate.
Qed.

(** X13: a repository name without a slash that the policy table does
    not hold makes every round of the validation fail with a
    [ValueError], not with [UnconfiguredRepository]: the check sleeps
    twice, fetches nothing and closes with the internal-error output. *)
Theorem run_pull_request_check_no_slash pull_request check_run w :
  "/"%char ∉ chars (pr_base_repo_full_name pull_request) ->
  CONFIG !! pr_base_repo_full_name pull_request = None ->
  (forall w1, get_issues_from_pr env CONFIG pull_request w1
              = (Raise (ValueError "not enough values to unpack (expected 2, got 1)"),
                 w1, [])) /\
  match set_check_in_progress env pull_request check_run w with
  | (Ok cr, _, t1) =>
      exists completed_at,
        events (run_pull_request_check env CONFIG USERS PULL_REQUEST
                  pull_request check_run w)
        = t1 ++ [Log "exception" "Failure during validation of PR (attempt %s)"; Sleep 1;
                 Log "exception" "Failure during validation of PR (attempt %s)"; Sleep 2;
                 Log "exception" "Failure during validation of PR";
                 Patch (cr_url cr)
                   (completion pull_request completed_at "failure" internal_error_output)]
  | (Raise _, _, _) => True
  end.
Proof.
  intros Hslash Hnone.
  assert (Hround : forall w1, get_issues_from_pr env CONFIG pull_request w1
              = (Raise (ValueError "not enough values to unpack (expected 2, got 1)"),
                 w1, [])).
  { intros w1. unfold get_issues_from_pr. unfold bind at 1.
    rewrite (get_config_no_slash CONFIG _ w1 Hslash Hnone). reflexivity. }
  split; [exact Hround|].
  rewrite run_pull_request_check_steps.
  destruct (set_check_in_progress env pull_request check_run w) as [[[cr|e] w1] t1];
    [|exact I].
  rewrite attempt_loop_rounds. rewrite !Hround. cbv beta iota zeta.
  cbn [is_UnconfiguredRepository].
  destruct (clock_now env _) as [completed_at w4].
  destruct (api_patch env _ _ w4) as [r w5].
  exists completed_at. unfold events. cbn [fst snd app]. reflexivity.
Qed.

(** X14: when the policy of the repository is in the table and the
    platform lists a commit with an empty message after commits that
    parse, every round of the validation fetches the commits and fails
    on that commit; the tracker is never asked, and the check closes with
    the internal-error output. *)
Theorem run_pull_request_check_empty_message pull_request check_run config w :
  CONFIG !! pr_base_repo_full_name pull_request = Some config ->
  (forall w1, exists before item_sha after parsed w2,
     api_getitem env (pr_commits_url pull_request) w1
     = (Ok (before ++ (item_sha, []) :: after), w2) /\
     rmapM (fun item => parse_commit (fst item) (snd item)) before = Ok parsed) ->
  (forall w1, outcome (get_issues_from_pr env CONFIG pull_request w1) = Raise IndexError) /\
  match set_check_in_progress env pull_request check_run w with
  | (Ok cr, _, t1) =>
      let fetch := GetItem (pr_commits_url pull_request) in
      exists completed_at,
        events (run_pull_request_check env CONFIG USERS PULL_REQUEST
                  pull_request check_run w)
        = t1 ++ [fetch;
                 Log "exception" "Failure during validation of PR (attempt %s)"; Sleep 1;
                 fetch;
                 Log "exception" "Failure during validation of PR (attempt %s)"; Sleep 2;
                 fetch;
                 Log "exception" "Failure during validation of PR";
                 Patch (cr_url cr)
                   (completion pull_request completed_at "failure" internal_error_output)]
  | (Raise _, _, _) => True
  end.
Proof.
  intros Hconfig Hitems.
  assert (Hround : forall w1, exists w2,
             get_issues_from_pr env CONFIG pull_request w1
             = (Raise IndexError, w2, [GetItem (pr_commits_url pull_request)])).
  { intros w1.
    destruct (Hitems w1) as (before & item_sha & after & parsed & w2 & Hfetch & Hbefore).
    exists w2. unfold get_issues_from_pr, get_commits_from_pull_request, get_config.
    rewrite Hconfig. unfold_monad. rewrite Hfetch. cbn [fst snd].
    rewrite (rmapM_parse_empty _ _ _ _ Hbefore). reflexivity. }
  split.
  { intros w1. destruct (Hround w1) as [w2 ->]. reflexivity. }
  rewrite run_pull_request_check_steps.
  destruct (set_check_in_progress env pull_request check_run w) as [[[cr|e] w1] t1];
    [|exact I].
  rewrite attempt_loop_rounds.
  destruct (Hround w1) as [w2 ->]. cbv beta iota zeta.
  destruct (Hround (sleep_for env 1 w2)) as [w3 ->]. cbv beta iota zeta.
  destruct (Hround (sleep_for env 2 w3)) as [w4 ->]. cbv beta iota zeta.
  cbn [is_UnconfiguredRepository].
  destruct (clock_now env _) as [completed_at w5].
  destruct (api_patch env _ _ w5) as [r w6].
  exists completed_at. unfold events. cbn [fst snd app]. reflexivity.
Qed.

End CheckFacts.

Lemma run_pull_request_check_tracker_writes_witness :
  let pull_request := example_pr "theforeman/foo" "Fix crash" "develop" false in
  let env := Tracker.env [("abc", codes "fixes #10: crash")] in
  let run := run_pull_request_check env (example_config true) {[ "alice" := 3 ]} 7
               pull_request None example_tracker in
  let ev := IssueSave 10
              {| u_custom_fields :=
                   Some [ {| cf_id := 7;
                             cf_value := ["https://github.com/theforeman/foo/pull/42"] |} ];
                 u_assigned_to_id := Some 3;
                 u_status_id := Some 7 |} in
  ev ∈ events run /\ tracker_write ev = true /\
  exists found issue,
    outcome (attempt_loop env (example_config true) pull_request 3 (range 1 (3 + 1))
               example_tracker) = Ok found /\
    issue ∈ valid_issues (fst found) /\ issue_id issue = 10.
Proof.
  cbv zeta.
  assert (Hin : IssueSave 10
              {| u_custom_fields :=
                   Some [ {| cf_id := 7;
                             cf_value := ["https://github.com/theforeman/foo/pull/42"] |} ];
                 u_assigned_to_id := Some 3;
                 u_status_id := Some 7 |}
            ∈ events (run_pull_request_check (Tracker.env [("abc", codes "fixes #10: crash")])
                        (example_config true) {[ "alice" := 3 ]} 7
                        (example_pr "theforeman/foo" "Fix crash" "develop" false)
                        None example_tracker)).
  { apply list_elem_of_In. vm_compute. do 4 right. left. reflexivity. }
  split; [exact Hin|]. split; [reflexivity|].
  destruct (run_pull_request_check_tracker_writes _ _ _ _ _ _ _ _ Hin eq_refl)
    as (cr & w1 & t1 & found & w2 & t2 & issue & status & updates &
        Hset & Hloop & Hvalid & _ & _ & _ & _ & Hev).
  exists found, issue.
  assert (Hw1 : w1 = example_tracker).
  { pose proof (f_equal (fun x => snd (fst x)) Hset) as Hw. symmetry. exact Hw. }
  subst w1. unfold outcome. rewrite Hloop. split; [reflexivity|].
  split; [exact Hvalid|]. injection Hev as Hid _. symmetry. exact Hid.
Defined.

Lemma run_pull_request_check_no_slash_witness :
  let pull_request := example_pr "orphan" "Add a thing" "develop" false in
  ("/"%char ∉ chars (pr_base_repo_full_name pull_request)) /\
  (∅ : gmap string Config) !! pr_base_repo_full_name pull_request = None /\
  get_issues_from_pr (Tracker.env []) ∅ pull_request empty_tracker
  = (Raise (ValueError "not enough values to unpack (expected 2, got 1)"),
     empty_tracker, []).
Proof.
  cbv zeta.
  assert (Hslash : "/"%char ∉ chars (pr_base_repo_full_name
                                        (example_pr "orphan" "Add a thing" "develop" false)))
    by by_decision.
  split; [exact Hslash|]. split; [reflexivity|].
  exact (proj1 (run_pull_request_check_no_slash (Tracker.env []) ∅ ∅ 0
                  (example_pr "orphan" "Add a thing" "develop" false) None
                  empty_tracker Hslash eq_refl) empty_tracker).
Defined.

Lemma run_pull_request_check_empty_message_witness :
  let pull_request := example_pr "theforeman/foo" "Fix crash" "develop" false in
  let env := Tracker.env [("abc", codes "fixes #10: crash"); ("abd", [])] in
  outcome (get_issues_from_pr env (example_config true) pull_request example_tracker)
  = Raise IndexError.
Proof.
  cbv zeta.
  destruct (parse_commit "abc" (codes "fixes #10: crash")) as [commit|e] eqn:Hparse;
    [|vm_compute in Hparse; discriminate].
  refine (proj1 (run_pull_request_check_empty_message
                   (Tracker.env [("abc", codes "fixes #10: crash"); ("abd", [])])
                   (example_config true) ∅ 0
                   (example_pr "theforeman/foo" "Fix crash" "develop" false) None
                   _ example_tracker eq_refl _) example_tracker).
  intros w1. exists [("abc", codes "fixes #10: crash")], "abd", [], [commit], w1.
  split; [reflexivity|]. cbn [rmapM fst snd]. rewrite Hparse. reflexivity.
Defined.

(** ** The sections of the report *)

Lemma sections_of_lists (a b c d : list line) :
  let summary := [("Invalid commits", a); ("Invalid project", b);
                  ("Issues not found in redmine", c); ("Valid issues", d)] in
  let non_empty := non_empty_titles summary in
  let multiple_sections := negb (Nat.eqb (length non_empty) 1) in
  let the_title := if multiple_sections then "Redmine Issue Report"
                   else default "" (head non_empty) in
  let the_summary := join nl (summarize summary multiple_sections) in
  let bullets (lines : list line) := join nl (map (fun l => "* " +:+ str_line l) lines) in
  match a, b, c, d with
  | [], [], [], [] => the_title = "Redmine Issue Report" /\ the_summary = ""
  | _ :: _, [], [], [] => the_title = "Invalid commits" /\ the_summary = bullets a
  | [], _ :: _, [], [] => the_title = "Invalid project" /\ the_summary = bullets b
  | [], [], _ :: _, [] =>
      the_title = "Issues not found in redmine" /\ the_summary = bullets c
  | [], [], [], _ :: _ => the_title = "Valid issues" /\ the_summary = bullets d
  | _, _, _, _ => the_title = "Redmine Issue Report"
  end.
Proof.
  destruct a, b, c, d; cbv zeta; try reflexivity;
    (split; [reflexivity|]); unfold summarize; cbn [flat_map snd fst app];
    rewrite ?app_nil_r; reflexivity.
Qed.

Ltac section_cases source formatted Hiff :=
  destruct source;
  [pose proof (proj2 Hiff eq_refl); subst formatted
  |destruct formatted; [discriminate (proj1 Hiff eq_refl)|]].

(** X15: a report with findings of one kind only is titled by that kind
    and lists the findings as bullets without a header; a report with no
    finding at all has the general title and an empty summary; a report
    with findings of several kinds has the general title. *)
Theorem report_sections check_run issue_results invalid_commits :
  let output := snd (report check_run issue_results invalid_commits) in
  let bullets (lines : list line) := join nl (map (fun l => "* " +:+ str_line l) lines) in
  match invalid_commits, invalid_project_issues issue_results,
        missing_issue_ids issue_results, valid_issues issue_results with
  | [], [], [], [] => title output = "Redmine Issue Report" /\ summary output = ""
  | _ :: _, [], [], [] =>
      title output = "Invalid commits" /\
      summary output = bullets (format_invalid_commit_messages invalid_commits)
  | [], _ :: _, [], [] =>
      title output = "Invalid project" /\
      summary output
      = bullets (format_redmine_issues (invalid_project_issues issue_results))
  | [], [], _ :: _, [] =>
      title output = "Issues not found in redmine" /\
      summary output = bullets (map LInt (missing_issue_ids issue_results))
  | [], [], [], _ :: _ =>
      title output = "Valid issues" /\
      summary output = bullets (format_redmine_issues (valid_issues issue_results))
  | _, _, _, _ => title output = "Redmine Issue Report"
  end.
Proof.
  unfold report, make_summary. cbv zeta. cbn [snd title summary].
  set (fa := format_invalid_commit_messages invalid_commits).
  set (fb := format_redmine_issues (invalid_project_issues issue_results)).
  set (fc := map LInt (missing_issue_ids issue_results)).
  set (fd := format_redmine_issues (valid_issues issue_results)).
  pose proof (sections_of_lists fa fb fc fd) as Hs. cbv zeta in Hs.
  assert (Ha : fa = [] <-> invalid_commits = []) by apply map_nil_iff.
  assert (Hb : fb = [] <-> invalid_project_issues issue_results = [])
    by apply format_redmine_issues_nil.
  assert (Hc : fc = [] <-> missing_issue_ids issue_results = []) by apply map_nil_iff.
  assert (Hd : fd = [] <-> valid_issues issue_results = [])
    by apply format_redmine_issues_nil.
  clearbody fa fb fc fd.
  revert Hb Hc Hd.
  generalize (invalid_project_issues issue_results) as project_issues.
  generalize (missing_issue_ids issue_results) as missing.
  generalize (valid_issues issue_results) as valid.
  intros valid missing project_issues Hb Hc Hd.
  section_cases invalid_commits fa Ha; section_cases project_issues fb Hb;
    section_cases missing fc Hc; section_cases valid fd Hd; exact Hs.
Qed.

(** ** Reconciliation, issue by issue *)

Lemma for_each_app {W A} (body : A -> M W unit) l1 l2 w :
  for_each (l1 ++ l2) body w =
  match for_each l1 body w with
  | (Ok _, w1, t1) => let '(r, w2, t2) := for_each l2 body w1 in (r, w2, t1 ++ t2)
  | (Raise e, w1, t1) => (Raise e, w1, t1)
  end.
Proof.
  revert w. induction l1 as [|x l1 IH]; intros w.
  - cbn [app for_each]. unfold ret. destruct (for_each l2 body w) as [[r w2] t2].
    reflexivity.
  - cbn [app for_each]. unfold bind.
    destruct (body x w) as [[[[]|e] w1] t1]; [|reflexivity].
    rewrite IH. destruct (for_each l1 body w1) as [[[[]|e] w2] t2]; [|reflexivity].
    destruct (for_each l2 body w2) as [[r w3] t3]. rewrite app_assoc. reflexivity.
Qed.

Section ReconcilerSteps.
Context `{StatusEnum}.
Context {W : Type} (env : Env W).
Variable USERS : gmap string Z.
Variable PULL_REQUEST : Z.

Lemma issue_updates_fields pull_request issue status updates :
  issue_updates USERS PULL_REQUEST pull_request issue status = Ok updates ->
  (forall fields, u_custom_fields updates = Some fields ->
     pr_is_cherry_pick pull_request = false /\
     exists pr_field,
       find (fun f => cf_id f =? PULL_REQUEST) (custom_fields issue) = Some pr_field /\
       (pr_html_url pull_request ∉ cf_value pr_field) /\
       fields = [ {| cf_id := cf_id pr_field;
                     cf_value := cf_value pr_field ++ [pr_html_url pull_request] |} ]) /\
  (forall assignee, u_assigned_to_id updates = Some assignee ->
     USERS !! pr_user_login pull_request = Some assignee /\ assignee <> 0 /\
     assigned_to issue = None) /\
  (forall status_id, u_status_id updates = Some status_id ->
     status_id = Status_value READY_FOR_TESTING /\ is_closed status = false /\
     status <> READY_FOR_TESTING).
Proof.
  unfold issue_updates. intros Hupdates.
  destruct (negb (pr_is_cherry_pick pull_request)) eqn:Hcp.
  - destruct (find _ (custom_fields issue)) as [pr_field|] eqn:Hfield;
      [|discriminate Hupdates].
    destruct (bool_decide (pr_html_url pull_request ∈ cf_value pr_field)) eqn:Hin;
      cbn [rbind] in Hupdates; injection Hupdates as <-; cbn [u_custom_fields
        u_assigned_to_id u_status_id].
    + split; [discriminate|]. split.
      * intros assignee Ha.
        destruct (truthy_int _) eqn:Ht; [|discriminate Ha].
        destruct (bool_decide (assigned_to issue = None)) eqn:Hnone; [|discriminate Ha].
        cbn [andb] in Ha. split; [exact Ha|]. rewrite Ha in Ht. cbn in Ht.
        apply negb_true_iff, Z.eqb_neq in Ht.
        apply bool_decide_eq_true in Hnone. auto.
      * intros status_id Hs.
        destruct (is_closed status) eqn:Hclosed; [discriminate Hs|].
        destruct (bool_decide (status = READY_FOR_TESTING)) eqn:Hready;
          [discriminate Hs|].
        cbn in Hs. injection Hs as <-. apply bool_decide_eq_false in Hready. auto.
    + split; [|split].
      * intros fields Hf. injection Hf as <-.
        apply negb_true_iff in Hcp. split; [exact Hcp|].
        exists pr_field. apply bool_decide_eq_false in Hin. auto.
      * intros assignee Ha.
        destruct (truthy_int _) eqn:Ht; [|discriminate Ha].
        destruct (bool_decide (assigned_to issue = None)) eqn:Hnone; [|discriminate Ha].
        cbn [andb] in Ha. split; [exact Ha|]. rewrite Ha in Ht. cbn in Ht.
        apply negb_true_iff, Z.eqb_neq in Ht.
        apply bool_decide_eq_true in Hnone. auto.
      * intros status_id Hs.
        destruct (is_closed status) eqn:Hclosed; [discriminate Hs|].
        destruct (bool_decide (status = READY_FOR_TESTING)) eqn:Hready;
          [discriminate Hs|].
        cbn in Hs. injection Hs as <-. apply bool_decide_eq_false in Hready. auto.
  - cbn [rbind] in Hupdates. injection Hupdates as <-.
    cbn [u_custom_fields u_assigned_to_id u_status_id].
    split; [discriminate|]. split.
    + intros assignee Ha.
      destruct (truthy_int _) eqn:Ht; [|discriminate Ha].
      destruct (bool_decide (assigned_to issue = None)) eqn:Hnone; [|discriminate Ha].
      cbn [andb] in Ha. split; [exact Ha|]. rewrite Ha in Ht. cbn in Ht.
      apply negb_true_iff, Z.eqb_neq in Ht.
      apply bool_decide_eq_true in Hnone. auto.
    + intros status_id Hs.
      destruct (is_closed status) eqn:Hclosed; [discriminate Hs|].
      destruct (bool_decide (status = READY_FOR_TESTING)) eqn:Hready;
        [discriminate Hs|].
      cbn in Hs. injection Hs as <-. apply bool_decide_eq_false in Hready. auto.
Qed.

(** X16: whatever a reconciliation saves, it saves for an issue of its
    list whose status is not rejected, and it overwrites nothing: the
    linked pull requests are only extended, by the URL of a pull request
    that is no cherry-pick and is not yet listed; an assignee is set only
    on an issue without one, to the mapped non-zero account of the
    author; the status is set only to Ready For Testing, on an issue that
    is neither closed nor already there. *)
Theorem update_redmine_on_issues_no_clobber pull_request issues w i updates :
  IssueSave i updates
  ∈ events (update_redmine_on_issues env USERS PULL_REQUEST pull_request issues w) ->
  exists issue status,
    issue ∈ issues /\ i = issue_id issue /\
    Status_of_id (issue_status_id issue) = Some status /\
    is_rejected status = false /\
    (forall fields, u_custom_fields updates = Some fields ->
       pr_is_cherry_pick pull_request = false /\
       exists pr_field,
         find (fun f => cf_id f =? PULL_REQUEST) (custom_fields issue) = Some pr_field /\
         (pr_html_url pull_request ∉ cf_value pr_field) /\
         fields = [ {| cf_id := cf_id pr_field;
                       cf_value := cf_value pr_field ++ [pr_html_url pull_request] |} ]) /\
    (forall assignee, u_assigned_to_id updates = Some assignee ->
       USERS !! pr_user_login pull_request = Some assignee /\ assignee <> 0 /\
       assigned_to issue = None) /\
    (forall status_id, u_status_id updates = Some status_id ->
       status_id = Status_value READY_FOR_TESTING /\ is_closed status = false /\
       status <> READY_FOR_TESTING).
Proof.
  intros Hin.
  pose proof (update_redmine_on_issues_trace env USERS PULL_REQUEST pull_request issues w)
    as Htrace.
  rewrite Forall_forall in Htrace.
  destruct (Htrace _ Hin) as [(level & msg & Hlog)|
    (issue & status & updates' & Hissue & Hstatus & Hrejected & Hupdates & _ & Hev)];
    [discriminate Hlog|].
  injection Hev as -> ->.
  exists issue, status. repeat (split; [assumption || reflexivity|]).
  exact (issue_updates_fields _ _ _ _ Hupdates).
Qed.

(** X17: a reconciliation of a list in two parts is the reconciliation
    of the first part followed, from the world it leaves, by that of the
    second; when the first part fails, the second part is not looked
    at. *)
Theorem update_redmine_on_issues_app pull_request before after w :
  update_redmine_on_issues env USERS PULL_REQUEST pull_request (before ++ after) w =
  match update_redmine_on_issues env USERS PULL_REQUEST pull_request before w with
  | (Ok _, w1, t1) =>
      let '(r, w2, t2) :=
        update_redmine_on_issues env USERS PULL_REQUEST pull_request after w1 in
      (r, w2, t1 ++ t2)
  | (Raise e, w1, t1) => (Raise e, w1, t1)
  end.
Proof. unfold update_redmine_on_issues. apply for_each_app. Qed.

(** X18: an issue without the linked-pull-request field, met by the
    reconciliation for a pull request that is no cherry-pick, ends the
    reconciliation with an [AttributeError]: the issue and the issues
    after it are not saved. *)
Theorem update_redmine_on_issues_missing_field pull_request before issue after status w :
  pr_is_cherry_pick pull_request = false ->
  Status_of_id (issue_status_id issue) = Some status ->
  is_rejected status = false ->
  find (fun f => cf_id f =? PULL_REQUEST) (custom_fields issue) = None ->
  update_redmine_on_issues env USERS PULL_REQUEST pull_request
    (before ++ issue :: after) w =
  match update_redmine_on_issues env USERS PULL_REQUEST pull_request before w with
  | (Ok _, w1, t1) => (Raise (AttributeError "value"), w1, t1)
  | (Raise e, w1, t1) => (Raise e, w1, t1)
  end.
Proof.
  intros Hcp Hstatus Hrejected Hfield.
  unfold update_redmine_on_issues at 1. rewrite for_each_app.
  fold (update_redmine_on_issues env USERS PULL_REQUEST pull_request before).
  fold (update_redmine_on_issues env USERS PULL_REQUEST pull_request (issue :: after)).
  destruct (update_redmine_on_issues env USERS PULL_REQUEST pull_request before w)
    as [[[[]|e] w1] t1]; [|reflexivity].
  rewrite update_redmine_on_issues_cons. rewrite Hstatus, Hrejected.
  unfold issue_updates. rewrite Hcp, Hfield. cbn [negb rbind].
  rewrite app_nil_r. reflexivity.
Qed.

End ReconcilerSteps.

Lemma update_redmine_on_issues_no_clobber_witness :
  let pull_request := example_pr "theforeman/foo" "Fix crash" "develop" false in
  let issue := example_issue 10 (example_project 1 "foo") 1 in
  let updates :=
    {| u_custom_fields :=
         Some [ {| cf_id := 7; cf_value := ["https://github.com/theforeman/foo/pull/42"] |} ];
       u_assigned_to_id := Some 3;
       u_status_id := Some 7 |} in
  IssueSave 10 updates
  ∈ events (update_redmine_on_issues (Tracker.env []) {[ "alice" := 3 ]} 7 pull_request
              [issue] example_tracker) /\
  exists status, Status_of_id (issue_status_id issue) = Some status /\
                 is_rejected status = false /\ is_closed status = false.
Proof.
  cbv zeta.
  assert (Hin : IssueSave 10
    {| u_custom_fields :=
         Some [ {| cf_id := 7; cf_value := ["https://github.com/theforeman/foo/pull/42"] |} ];
       u_assigned_to_id := Some 3;
       u_status_id := Some 7 |}
    ∈ events (update_redmine_on_issues (Tracker.env []) {[ "alice" := 3 ]} 7
                (example_pr "theforeman/foo" "Fix crash" "develop" false)
                [example_issue 10 (example_project 1 "foo") 1] example_tracker)).
  { apply list_elem_of_In. vm_compute. right. left. reflexivity. }
  split; [exact Hin|].
  destruct (update_redmine_on_issues_no_clobber _ _ _ _ _ _ _ _ Hin)
    as (issue & status & Hissue & _ & Hstatus & Hrejected & _ & _ & Hset).
  apply list_elem_of_singleton in Hissue. subst issue.
  exists status. split; [exact Hstatus|]. split; [exact Hrejected|].
  exact (proj1 (proj2 (Hset 7 eq_refl))).
Defined.

Lemma update_redmine_on_issues_missing_field_witness :
  let pull_request := example_pr "theforeman/foo" "Fix crash" "develop" false in
  let bare :=
    {| issue_id := 11; issue_subject := "No fields"; issue_url := "";
       issue_project := example_project 1 "foo"; issue_status_id := 1;
       custom_fields := []; assigned_to := None |} in
  let issue := example_issue 10 (example_project 1 "foo") 1 in
  outcome (update_redmine_on_issues (Tracker.env []) {[ "alice" := 3 ]} 7 pull_request
             ([] ++ bare :: [issue]) example_tracker)
  = Raise (AttributeError "value").
Proof.
  cbv zeta.
  rewrite (@update_redmine_on_issues_missing_field example_statuses _
             (Tracker.env []) {[ "alice" := 3 ]} 7
             (example_pr "theforeman/foo" "Fix crash" "develop" false) []
             {| issue_id := 11; issue_subject := "No fields"; issue_url := "";
                issue_project := example_project 1 "foo"; issue_status_id := 1;
                custom_fields := []; assigned_to := None |}
             [example_issue 10 (example_project 1 "foo") 1] NEW example_tracker
             eq_refl eq_refl eq_refl eq_refl).
  reflexivity.
Defined.

(** ** The handlers that start a check, over their calls *)

Lemma quiet_writes_to url l :
  Forall (fun ev => check_write ev = false) l -> Forall (writes_to url) l.
Proof.
  intros Hl. eapply Forall_impl; [exact Hl|].
  intros ev Hquiet. destruct ev; try exact I; discriminate Hquiet.
Qed.

Lemma quiet_no_post l :
  Forall (fun ev => check_write ev = false) l ->
  filter (fun ev => is_post ev = true) l = [].
Proof.
  induction 1 as [|ev l Hquiet _ IH]; [reflexivity|].
  rewrite filter_cons_False; [exact IH|].
  destruct ev; solve [discriminate | discriminate Hquiet].
Qed.

Section TriggerFacts.
Context `{StatusEnum}.
Context {W : Type} (env : Env W).
Variable CONFIG : gmap string Config.
Variable USERS : gmap string Z.
Variable PULL_REQUEST : Z.
Variable api_get_pull_request : string -> W -> result PullRequest * W.
Variable api_get_check_runs : string -> W -> result (list (string * CheckRun)) * W.

(** A check after its first step: calls that write no check run, then the
    closing patch. *)
Lemma run_pull_request_check_tail pull_request check_run w :
  match set_check_in_progress env pull_request check_run w with
  | (Ok cr, _, t1) =>
      exists quiet data,
        events (run_pull_request_check env CONFIG USERS PULL_REQUEST
                  pull_request check_run w)
        = t1 ++ quiet ++ [Patch (cr_url cr) data] /\
        Forall (fun ev => check_write ev = false) quiet
  | (Raise e, w1, t1) =>
      run_pull_request_check env CONFIG USERS PULL_REQUEST pull_request check_run w
      = (Raise e, w1, t1)
  end.
Proof.
  rewrite run_pull_request_check_steps.
  destruct (set_check_in_progress env pull_request check_run w) as [[[cr|e] w1] t1];
    [|reflexivity].
  pose proof (attempt_loop_events env CONFIG pull_request w1) as Hloop.
  destruct (attempt_loop env CONFIG pull_request 3 (range 1 (3 + 1)) w1)
    as [[[found|e] w2] t2]; unfold events in Hloop; cbn [fst snd] in Hloop.
  - pose proof (update_redmine_on_issues_events env USERS PULL_REQUEST pull_request
                  (valid_issues (fst found)) w2) as Hsync.
    assert (Hquiet : Forall (fun ev => check_write ev = false)
                       (snd (update_redmine_on_issues env USERS PULL_REQUEST pull_request
                               (valid_issues (fst found)) w2))).
    { eapply Forall_impl; [exact Hsync|]. intros ev [Hw _]. exact Hw. }
    destruct (update_redmine_on_issues env USERS PULL_REQUEST pull_request
                (valid_issues (fst found)) w2) as [[[[]|e] w3] t3];
      cbn [fst snd] in Hquiet |- *;
      destruct (clock_now env w3) as [completed_at w4]; cbn [fst snd];
      destruct (api_patch env _ _ w4) as [r w5]; unfold events; cbn [fst snd].
    + exists (t2 ++ t3), (completion pull_request completed_at
                            (fst (report cr (fst found) (snd found)))
                            (snd (report cr (fst found) (snd found)))).
      split; [reflexivity|]. apply Forall_app; auto.
    + exists (t2 ++ t3 ++ [Log "exception" "Failed to update Redmine issues"]),
             (completion pull_request completed_at
                (fst (report cr (fst found) (snd found)))
                (snd (report cr (fst found) (snd found)))).
      split; [reflexivity|]. apply Forall_app; split; [exact Hloop|].
      apply Forall_app; split; [exact Hquiet|]. repeat constructor.
  - destruct (is_UnconfiguredRepository e); cbn [fst snd];
      destruct (clock_now env w2) as [completed_at w4]; cbn [fst snd];
      destruct (api_patch env _ _ w4) as [r w5]; unfold events; cbn [fst snd].
    + exists t2, (completion pull_request completed_at "failure" unknown_repository_output).
      split; [reflexivity|exact Hloop].
    + exists (t2 ++ [Log "exception" "Failure during validation of PR"]),
             (completion pull_request completed_at "failure" internal_error_output).
      split; [reflexivity|]. apply Forall_app; split; [exact Hloop|].
      repeat constructor.
Qed.

Lemma set_check_in_progress_given pull_request cr w :
  let run := set_check_in_progress env pull_request (Some cr) w in
  Forall (writes_to (cr_url cr)) (events run) /\
  match outcome run with
  | Ok cr' => cr' = cr
  | Raise _ => True
  end.
Proof.
  cbv zeta. unfold set_check_in_progress. unfold_monad.
  destruct (clock_now env w) as [now w1]. cbn [fst snd].
  destruct (negb _); cbn [fst snd].
  - destruct (api_patch env _ _ w1) as [[[]|e] w2]; cbn [fst snd app];
      split; repeat constructor.
  - split; [constructor|reflexivity].
Qed.

Lemma run_pull_request_check_given pull_request cr w :
  Forall (writes_to (cr_url cr))
         (events (run_pull_request_check env CONFIG USERS PULL_REQUEST
                    pull_request (Some cr) w)).
Proof.
  pose proof (run_pull_request_check_tail pull_request (Some cr) w) as Htail.
  destruct (set_check_in_progress_given pull_request cr w) as [Hstart Hsame].
  destruct (set_check_in_progress env pull_request (Some cr) w) as [[[cr'|e] w1] t1];
    unfold outcome, events in Hstart, Hsame; cbn [fst snd] in Hstart, Hsame.
  - subst cr'. destruct Htail as (quiet & data & -> & Hquiet).
    apply Forall_app; split; [exact Hstart|].
    apply Forall_app; split; [apply quiet_writes_to, Hquiet|].
    repeat constructor.
  - rewrite Htail. exact Hstart.
Qed.

Lemma check_pull_requests_given cr pull_requests w :
  Forall (writes_to (cr_url cr))
         (events (check_pull_requests env CONFIG USERS PULL_REQUEST api_get_pull_request
                    pull_requests (Some cr) w)).
Proof.
  unfold check_pull_requests. revert w.
  induction pull_requests as [|url pull_requests IH]; intros w; [constructor|].
  cbn [for_each]. unfold bind at 1. unfold bind at 1. unfold call at 1.
  destruct (api_get_pull_request url w) as [[pull_request|e] w1];
    [|repeat constructor].
  pose proof (run_pull_request_check_given pull_request cr w1) as Hrun.
  destruct (run_pull_request_check env CONFIG USERS PULL_REQUEST pull_request (Some cr) w1)
    as [[[[]|e] w2] t2]; unfold events in Hrun |- *; cbn [fst snd] in Hrun |- *.
  - specialize (IH w2).
    destruct (for_each pull_requests _ w2) as [[r w3] t3].
    unfold events in IH. cbn [fst snd] in IH |- *.
    constructor; [exact I|]. apply Forall_app; split; assumption.
  - constructor; [exact I|exact Hrun].
Qed.

Lemma no_completion l :
  Forall (fun ev => is_completion ev = false) l ->
  filter (fun ev => is_completion ev = true) l = [].
Proof.
  induction 1 as [|ev l Hev _ IH]; [reflexivity|].
  rewrite filter_cons_False by congruence. exact IH.
Qed.

Lemma quiet_no_completion l :
  Forall (fun ev => check_write ev = false) l ->
  filter (fun ev => is_completion ev = true) l = [].
Proof.
  intros Hl. apply no_completion. eapply Forall_impl; [exact Hl|].
  intros ev. apply check_write_completion.
Qed.

(** The one completion of a check that returns: a patch of the run that
    the check was given, or of the run it created, with the head of its
    pull request. *)
Lemma run_pull_request_check_completion pull_request check_run w :
  let run := run_pull_request_check env CONFIG USERS PULL_REQUEST
               pull_request check_run w in
  match outcome run with
  | Ok _ =>
      exists handle completed_at conclusion output,
        filter (fun ev => is_completion ev = true) (events run)
        = [Patch handle (completion pull_request completed_at conclusion output)] /\
        match check_run with
        | Some cr => handle = cr_url cr
        | None => True
        end
  | Raise _ => True
  end.
Proof.
  cbv zeta. rewrite run_pull_request_check_steps.
  pose proof (set_check_in_progress_events env pull_request check_run w) as Hstart.
  assert (Hhandle :
    match outcome (set_check_in_progress env pull_request check_run w) with
    | Ok cr' => match check_run with
                | Some cr => cr_url cr' = cr_url cr
                | None => True
                end
    | Raise _ => True
    end).
  { destruct check_run as [cr|]; [|destruct (outcome _); exact I].
    destruct (set_check_in_progress_given pull_request cr w) as [_ Hsame].
    cbv zeta in Hsame. destruct (outcome _); [subst; reflexivity|exact I]. }
  destruct (set_check_in_progress env pull_request check_run w) as [[[cr'|e] w1] t1];
    unfold outcome, events in Hstart, Hhandle |- *; cbn [fst snd] in Hstart, Hhandle |- *;
    [|exact I].
  assert (Hfin : forall (verdict : string * Output) w3 t2,
    Forall (fun ev => check_write ev = false) t2 ->
    match fst (fst (let '(completed_at, w4) := clock_now env w3 in
                    let data := completion pull_request completed_at
                                  (fst verdict) (snd verdict) in
                    let '(r, w5) := api_patch env (cr_url cr') data w4 in
                    (r, w5, t1 ++ t2 ++ [Patch (cr_url cr') data]))) with
    | Ok _ =>
        exists handle completed_at conclusion output,
          filter (fun ev => is_completion ev = true)
            (snd (let '(completed_at, w4) := clock_now env w3 in
                  let data := completion pull_request completed_at
                                (fst verdict) (snd verdict) in
                  let '(r, w5) := api_patch env (cr_url cr') data w4 in
                  (r, w5, t1 ++ t2 ++ [Patch (cr_url cr') data])))
          = [Patch handle (completion pull_request completed_at conclusion output)] /\
          match check_run with
          | Some cr => handle = cr_url cr
          | None => True
          end
    | Raise _ => True
    end).
  { intros verdict w3 t2 Hquiet.
    destruct (clock_now env w3) as [completed_at w4]. cbv zeta.
    destruct (api_patch env _ _ w4) as [[[]|e] w5]; cbn [fst snd]; [|exact I].
    exists (cr_url cr'), completed_at, (fst verdict), (snd verdict). split.
    - rewrite !filter_app, (no_completion _ Hstart), (quiet_no_completion _ Hquiet).
      reflexivity.
    - destruct check_run; [exact Hhandle|exact I]. }
  pose proof (attempt_loop_events env CONFIG pull_request w1) as Hloop.
  destruct (attempt_loop env CONFIG pull_request 3 (range 1 (3 + 1)) w1)
    as [[[found|e] w2] t2]; unfold events in Hloop; cbn [fst snd] in Hloop.
  - pose proof (update_redmine_on_issues_events env USERS PULL_REQUEST pull_request
                  (valid_issues (fst found)) w2) as Hsync.
    assert (Hquiet : Forall (fun ev => check_write ev = false)
                       (snd (update_redmine_on_issues env USERS PULL_REQUEST pull_request
                               (valid_issues (fst found)) w2))).
    { eapply Forall_impl; [exact Hsync|]. intros ev [Hw _]. exact Hw. }
    destruct (update_redmine_on_issues env USERS PULL_REQUEST pull_request
                (valid_issues (fst found)) w2) as [[[[]|e] w3] t3];
      cbn [fst snd] in Hquiet.
    + apply (Hfin (report cr' (fst found) (snd found)) w3 (t2 ++ t3)).
      apply Forall_app; auto.
    + apply (Hfin (report cr' (fst found) (snd found)) w3
               (t2 ++ t3 ++ [Log "exception" "Failed to update Redmine issues"])).
      apply Forall_app; split; [exact Hloop|].
      apply Forall_app; split; [exact Hquiet|]. repeat constructor.
  - destruct (is_UnconfiguredRepository e).
    + apply (Hfin ("failure", unknown_repository_output) w2 t2). exact Hloop.
    + apply (Hfin ("failure", internal_error_output) w2
               (t2 ++ [Log "exception" "Failure during validation of PR"])).
      apply Forall_app; split; [exact Hloop|]. repeat constructor.
Qed.

Lemma check_pull_requests_cons url pull_requests check_run w :
  check_pull_requests env CONFIG USERS PULL_REQUEST api_get_pull_request
    (url :: pull_requests) check_run w =
  match api_get_pull_request url w with
  | (Raise e, w1) => (Raise e, w1, [GetItem url])
  | (Ok pull_request, w1) =>
      match run_pull_request_check env CONFIG USERS PULL_REQUEST
              pull_request check_run w1 with
      | (Raise e, w2, t2) => (Raise e, w2, GetItem url :: t2)
      | (Ok _, w2, t2) =>
          let '(r, w3, t3) :=
            check_pull_requests env CONFIG USERS PULL_REQUEST api_get_pull_request
              pull_requests check_run w2 in
          (r, w3, GetItem url :: t2 ++ t3)
      end
  end.
Proof.
  unfold check_pull_requests. cbn [for_each].
  unfold bind at 1. unfold bind at 1. unfold call at 1.
  destruct (api_get_pull_request url w) as [[pull_request|e] w1]; [|reflexivity].
  destruct (run_pull_request_check env CONFIG USERS PULL_REQUEST pull_request check_run w1)
    as [[[[]|e] w2] t2]; [|reflexivity].
  destruct (for_each pull_requests _ w2) as [[r w3] t3]. reflexivity.
Qed.

(** The completions of a loop over pull requests that returns: one for
    each pull request, in their order, each with the head of the pull
    request that the platform gave for the URL. *)
Lemma check_pull_requests_completions check_run pull_requests : forall w,
  let run := check_pull_requests env CONFIG USERS PULL_REQUEST api_get_pull_request
               pull_requests check_run w in
  match outcome run with
  | Ok _ =>
      Forall2 (fun url ev =>
                 exists pull_request w1 handle completed_at conclusion output,
                   fst (api_get_pull_request url w1) = Ok pull_request /\
                   ev = Patch handle
                          (completion pull_request completed_at conclusion output) /\
                   match check_run with
                   | Some cr => handle = cr_url cr
                   | None => True
                   end)
              pull_requests
              (filter (fun ev => is_completion ev = true) (events run))
  | Raise _ => True
  end.
Proof.
  cbv zeta.
  induction pull_requests as [|url pull_requests IH]; intros w; [constructor|].
  rewrite check_pull_requests_cons.
  destruct (api_get_pull_request url w) as [[pull_request|e] w1] eqn:Hfetch;
    [|exact I].
  pose proof (run_pull_request_check_completion pull_request check_run w1) as Hrun.
  cbv zeta in Hrun.
  destruct (run_pull_request_check env CONFIG USERS PULL_REQUEST pull_request check_run w1)
    as [[[[]|e] w2] t2]; unfold outcome, events in Hrun |- *;
    cbn [fst snd] in Hrun |- *; [|exact I].
  specialize (IH w2).
  destruct (check_pull_requests _ _ _ _ _ pull_requests check_run w2)
    as [[[[]|e] w3] t3];
    unfold outcome, events in IH |- *; cbn [fst snd] in IH |- *; [|exact I].
  destruct Hrun as (handle & completed_at & conclusion & output & Hone & Hhandle).
  rewrite filter_cons_False by (cbn; congruence).
  rewrite filter_app, Hone. cbn [app].
  constructor; [|exact IH].
  exists pull_request, w, handle, completed_at, conclusion, output.
  rewrite Hfetch. auto.
Qed.

Lemma on_check_run_steps check_run pull_requests w :
  on_check_run env CONFIG USERS PULL_REQUEST api_get_pull_request
    check_run pull_requests w =
  let '(r, w1, t) :=
    check_pull_requests env CONFIG USERS PULL_REQUEST api_get_pull_request
      pull_requests (Some check_run) w in
  (r, w1,
   match pull_requests with
   | [] => [Log "warning" "Received check_run without PRs"]
   | _ :: _ => []
   end ++ t).
Proof.
  unfold on_check_run. unfold bind at 1.
  destruct pull_requests as [|url pull_requests].
  - unfold log. cbv beta iota.
    destruct (check_pull_requests _ _ _ _ _ [] _ w) as [[r w1] t]. reflexivity.
  - unfold ret at 1. cbv beta iota.
    destruct (check_pull_requests _ _ _ _ _ (url :: pull_requests) _ w) as [[r w1] t].
    reflexivity.
Qed.

Lemma on_suite_run_steps check_runs_url pull_requests w :
  on_suite_run env CONFIG USERS PULL_REQUEST api_get_pull_request api_get_check_runs
    check_runs_url pull_requests w =
  match api_get_check_runs check_runs_url w with
  | (Ok check_runs, w1) =>
      let '(r, w2, t) :=
        check_pull_requests env CONFIG USERS PULL_REQUEST api_get_pull_request
          pull_requests
          (option_map snd
             (find (fun run => bool_decide (fst run = CHECK_NAME)) check_runs)) w1 in
      (r, w2,
       GetItem check_runs_url ::
       match pull_requests with
       | [] => [Log "warning" "Received check_suite without PRs"]
       | _ :: _ => []
       end ++ t)
  | (Raise e, w1) => (Raise e, w1, [GetItem check_runs_url])
  end.
Proof.
  unfold on_suite_run. unfold bind at 1. unfold call at 1.
  destruct (api_get_check_runs check_runs_url w) as [[check_runs|e] w1]; [|reflexivity].
  cbv beta iota zeta. unfold bind at 1.
  destruct pull_requests as [|url pull_requests].
  - unfold log. cbv beta iota.
    destruct (check_pull_requests _ _ _ _ _ [] _ w1) as [[r w2] t]. reflexivity.
  - unfold ret at 1. cbv beta iota.
    destruct (check_pull_requests _ _ _ _ _ (url :: pull_requests) _ w1) as [[r w2] t].
    reflexivity.
Qed.

(** X19: a re-requested check run is reused for every pull request it
    names: the handler creates no check run, and every patch it sends
    goes to the URL of the run it was given; when the handler returns,
    it has completed that run once for each pull request, in their
    order, each time with the head of the pull request that the
    platform gave for the URL.  Without pull requests it logs a warning
    and does nothing else. *)
Theorem on_check_run_reuses_check_run check_run pull_requests w :
  let run := on_check_run env CONFIG USERS PULL_REQUEST api_get_pull_request
               check_run pull_requests w in
  Forall (writes_to (cr_url check_run)) (events run) /\
  match outcome run with
  | Ok _ =>
      Forall2 (fun url ev =>
                 exists pull_request w1 completed_at conclusion output,
                   fst (api_get_pull_request url w1) = Ok pull_request /\
                   ev = Patch (cr_url check_run)
                          (completion pull_request completed_at conclusion output))
              pull_requests
              (filter (fun ev => is_completion ev = true) (events run))
  | Raise _ => True
  end /\
  on_check_run env CONFIG USERS PULL_REQUEST api_get_pull_request check_run [] w
  = (Ok tt, w, [Log "warning" "Received check_run without PRs"]).
Proof.
  cbv zeta. split; [|split; [|reflexivity]].
  - rewrite on_check_run_steps.
    pose proof (check_pull_requests_given check_run pull_requests w) as Hloop.
    destruct (check_pull_requests _ _ _ _ _ pull_requests _ w) as [[r w1] t1].
    unfold events in *. cbn [fst snd] in *.
    apply Forall_app. split; [|exact Hloop].
    destruct pull_requests; repeat constructor.
  - rewrite on_check_run_steps.
    pose proof (check_pull_requests_completions (Some check_run) pull_requests w)
      as Hloop.
    cbv zeta in Hloop.
    destruct (check_pull_requests _ _ _ _ _ pull_requests _ w) as [[[[]|e] w1] t1];
      unfold outcome, events in *; cbn [fst snd] in *; [|exact I].
    rewrite filter_app.
    replace (filter (fun ev => is_completion ev = true)
               match pull_requests with
               | [] => [Log "warning" "Received check_run without PRs"]
               | _ :: _ => []
               end) with (@nil event) by (destruct pull_requests; reflexivity).
    cbn [app]. eapply Forall2_impl; [exact Hloop|].
    intros url ev (pull_request & w2 & handle & completed_at & conclusion & output
                   & Hfetch & -> & ->).
    exists pull_request, w2, completed_at, conclusion, output. auto.
Qed.

(** X20: a check suite whose runs include one named as the check of this
    application has that run, the first of that name, reused for every
    pull request of the suite: no check run is created and every patch
    goes to its URL.  Whether there is such a run or not, a handler that
    returns has completed one check run for each pull request of the
    suite, in their order, each time with the head of the pull request
    that the platform gave for the URL.  When the list of runs cannot be
    fetched, nothing else is done. *)
Theorem on_suite_run_reuses_named_run check_runs_url pull_requests w :
  let run := on_suite_run env CONFIG USERS PULL_REQUEST api_get_pull_request
               api_get_check_runs check_runs_url pull_requests w in
  match api_get_check_runs check_runs_url w with
  | (Ok check_runs, _) =>
      let named := find (fun run => bool_decide (fst run = CHECK_NAME)) check_runs in
      match named with
      | Some named_run =>
          Forall (fun ev => ev = GetItem check_runs_url \/
                            writes_to (cr_url (snd named_run)) ev)
                 (events run)
      | None =>
          on_suite_run env CONFIG USERS PULL_REQUEST api_get_pull_request
            api_get_check_runs check_runs_url [] w
          = (Ok tt, snd (api_get_check_runs check_runs_url w),
             [GetItem check_runs_url; Log "warning" "Received check_suite without PRs"])
      end /\
      match outcome run with
      | Ok _ =>
          Forall2 (fun url ev =>
                     exists pull_request w1 handle completed_at conclusion output,
                       fst (api_get_pull_request url w1) = Ok pull_request /\
                       ev = Patch handle
                              (completion pull_request completed_at conclusion output) /\
                       match named with
                       | Some named_run => handle = cr_url (snd named_run)
                       | None => True
                       end)
                  pull_requests
                  (filter (fun ev => is_completion ev = true) (events run))
      | Raise _ => True
      end
  | (Raise e, w1) => run = (Raise e, w1, [GetItem check_runs_url])
  end.
Proof.
  cbv zeta. rewrite !on_suite_run_steps.
  destruct (api_get_check_runs check_runs_url w) as [[check_runs|e] w1]; [|reflexivity].
  cbn [snd]. split.
  - destruct (find _ check_runs) as [named_run|] eqn:Hfind; cbn [option_map];
      [|reflexivity].
    pose proof (check_pull_requests_given (snd named_run) pull_requests w1) as Hloop.
    destruct (check_pull_requests _ _ _ _ _ pull_requests _ w1) as [[r w2] t2].
    unfold events in *. cbn [fst snd] in *.
    constructor; [left; reflexivity|].
    apply Forall_app. split.
    + destruct pull_requests; [constructor; [right; exact I|constructor]|constructor].
    + eapply Forall_impl; [exact Hloop|]. intros ev Hev. right. exact Hev.
  - pose proof (check_pull_requests_completions
                  (option_map snd
                     (find (fun run => bool_decide (fst run = CHECK_NAME)) check_runs))
                  pull_requests w1) as Hloop.
    cbv zeta in Hloop.
    destruct (check_pull_requests _ _ _ _ _ pull_requests _ w1) as [[[[]|e] w2] t2];
      unfold outcome, events in *; cbn [fst snd] in *; [|exact I].
    rewrite filter_cons_False by (cbn; congruence).
    rewrite filter_app.
    replace (filter (fun ev => is_completion ev = true)
               match pull_requests with
               | [] => [Log "warning" "Received check_suite without PRs"]
               | _ :: _ => []
               end) with (@nil event) by (destruct pull_requests; reflexivity).
    cbn [app]. eapply Forall2_impl; [exact Hloop|].
    intros url ev (pull_request & w3 & handle & completed_at & conclusion & output
                   & Hfetch & -> & Hhandle).
    exists pull_request, w3, handle, completed_at, conclusion, output.
    split; [exact Hfetch|]. split; [reflexivity|].
    destruct (find _ check_runs); exact Hhandle.
Qed.

(** X21: a modified pull request gets a new check run: the first call of
    the handler is the post that creates it, with the head of the pull
    request and the status in progress, and the handler posts nothing
    else. *)
Theorem on_pr_modified_posts_once pull_request w :
  let run := on_pr_modified env CONFIG USERS PULL_REQUEST pull_request w in
  exists data rest,
    events run = Post (pr_base_repo_url pull_request +:+ "/check-runs") data :: rest /\
    payload_status data = "in_progress" /\
    data = PInProgress {| d_name := CHECK_NAME;
                          d_head_branch := pr_head_ref pull_request;
                          d_head_sha := pr_head_sha pull_request;
                          d_status := "in_progress";
                          d_started_at := fst (clock_now env w) |} /\
    filter (fun ev => is_post ev = true) rest = [].
Proof.
  cbv zeta. unfold on_pr_modified.
  pose proof (run_pull_request_check_tail pull_request None w) as Htail.
  unfold set_check_in_progress in Htail. unfold bind at 1, ask at 1, call at 1 in Htail.
  destruct (clock_now env w) as [started_at w1]. cbn [fst snd] in *.
  destruct (api_post env _ _ w1) as [[cr|e] w2].
  - destruct Htail as (quiet & data & -> & Hquiet).
    eexists _, _. split; [reflexivity|]. split; [reflexivity|]. split; [reflexivity|].
    rewrite filter_app, (quiet_no_post _ Hquiet). reflexivity.
  - rewrite Htail. eexists _, _. split; [reflexivity|]. repeat split; reflexivity.
Qed.

End TriggerFacts.

(** A re-requested check run that names one pull request, on the
    example tracker: the handler returns, and the run is completed
    once. *)
Example on_check_run_example :
  let check_run :=
    {| cr_url := "https://api.github.com/repos/theforeman/foo/check-runs/9";
       cr_status := "completed"; cr_output_text := None |} in
  let get_pull_request := fun (_ : string) (tr : Tracker.t) =>
    (Ok (example_pr "theforeman/foo" "Fix crash" "develop" false), tr) in
  let run := on_check_run (Tracker.env [("abc", codes "fixes #10: crash")])
               (example_config true) {[ "alice" := 3 ]} 7 get_pull_request check_run
               ["https://api.github.com/repos/theforeman/foo/pulls/42"] example_tracker in
  outcome run = Ok tt /\
  filter (fun ev => is_completion ev = true) (events run)
  = [Patch "https://api.github.com/repos/theforeman/foo/check-runs/9"
       (completion (example_pr "theforeman/foo" "Fix crash" "develop" false)
          "2020-02-02T02:02:02+00:00" "success"
          {| title := "Valid issues";
             summary := "* [#10: Crash on start](https://projects.theforeman.org/issues/10)";
             text := None |})].
Proof. cbv zeta. split; vm_compute; reflexivity. Qed.

(** ** The merge handler, continued *)

Section MergeSteps.
Context {W : Type} (env : Env W).
Variable CONFIG : gmap string Config.
Variable strip_suffix : string -> string -> string.

(** X22: the merge of a pull request none of whose commits fixes an
    issue asks the tracker nothing: after the commits are fetched the
    handler is done, whatever the commits only refer to. *)
Theorem on_pr_merge_without_fixes pull_request w branch_prefix config w0 t0 items w1 commits :
  pr_merged pull_request = true ->
  branch_version_prefix strip_suffix (pr_base_ref pull_request) = Some branch_prefix ->
  get_config CONFIG (pr_base_repo_full_name pull_request) w = (Ok config, w0, t0) ->
  truthy_str (cfg_project config) = true ->
  api_getitem env (pr_commits_url pull_request) w0 = (Ok items, w1) ->
  rmapM (fun item => parse_commit (fst item) (snd item)) items = Ok commits ->
  Forall (fun commit => fixes commit = ∅) commits ->
  on_pr_merge env CONFIG strip_suffix pull_request w
  = (Ok tt, w1, t0 ++ [GetItem (pr_commits_url pull_request)]).
Proof.
  intros Hmerged Hbranch Hconfig Hproject Hitems Hcommits Hnone.
  rewrite on_pr_merge_steps. rewrite Hmerged, Hbranch, Hconfig, Hproject. cbn [negb].
  cbv zeta. rewrite Hitems, Hcommits.
  assert (Hempty : fixes_of commits = ∅).
  { apply set_eq. intros x. rewrite fixes_of_spec. split.
    - intros (commit & Hin & Hx). rewrite Forall_forall in Hnone.
      rewrite (Hnone _ Hin) in Hx. exact Hx.
    - intros Hx. apply elem_of_empty in Hx. contradiction. }
  rewrite bool_decide_eq_true_2 by exact Hempty. reflexivity.
Qed.

(** X23: the merge handler does not catch what the parsing of the
    commits raises: when the platform lists a commit with an empty
    message after commits that parse, the handler fails with an
    [IndexError] right after the fetch, and the tracker is not asked. *)
Theorem on_pr_merge_empty_message pull_request w branch_prefix config w0 t0 before
    item_sha after parsed w1 :
  pr_merged pull_request = true ->
  branch_version_prefix strip_suffix (pr_base_ref pull_request) = Some branch_prefix ->
  get_config CONFIG (pr_base_repo_full_name pull_request) w = (Ok config, w0, t0) ->
  truthy_str (cfg_project config) = true ->
  api_getitem env (pr_commits_url pull_request) w0
  = (Ok (before ++ (item_sha, []) :: after), w1) ->
  rmapM (fun item => parse_commit (fst item) (snd item)) before = Ok parsed ->
  on_pr_merge env CONFIG strip_suffix pull_request w
  = (Raise IndexError, w1, t0 ++ [GetItem (pr_commits_url pull_request)]).
Proof.
  intros Hmerged Hbranch Hconfig Hproject Hitems Hbefore.
  rewrite on_pr_merge_steps. rewrite Hmerged, Hbranch, Hconfig, Hproject. cbn [negb].
  cbv zeta. rewrite Hitems, (rmapM_parse_empty _ _ _ _ Hbefore). reflexivity.
Qed.

End MergeSteps.

Lemma on_pr_merge_without_fixes_witness :
  let pull_request := example_pr "theforeman/foo" "Fix crash" "3.0-stable" true in
  let items := [("abc", codes "refs #10: crash"); ("abd", codes "tidy up")] in
  on_pr_merge (Tracker.env items) (example_config true) Tracker.strip_suffix pull_request
    example_tracker
  = (Ok tt, example_tracker, [GetItem (pr_commits_url pull_request)]).
Proof.
  cbv zeta.
  destruct (rmapM (fun item => parse_commit (fst item) (snd item))
              [("abc", codes "refs #10: crash"); ("abd", codes "tidy up")]) as [commits|e] eqn:Hcommits;
    [|vm_compute in Hcommits; discriminate].
  refine (on_pr_merge_without_fixes
            (Tracker.env [("abc", codes "refs #10: crash"); ("abd", codes "tidy up")])
            (example_config true) Tracker.strip_suffix
            (example_pr "theforeman/foo" "Fix crash" "3.0-stable" true) example_tracker
            "3.0."
            {| cfg_project := Some "foo"; cfg_required := true; cfg_refs := ∅;
               cfg_version_prefix := None |}
            example_tracker [] _ example_tracker commits
            eq_refl _ _ eq_refl eq_refl Hcommits _).
  - vm_compute. reflexivity.
  - vm_compute. reflexivity.
  - apply rmapM_Ok in Hcommits.
    inversion Hcommits as [|x1 c1 l1 r1 Hc1 Hrest1]; subst.
    inversion Hrest1 as [|x2 c2 l2 r2 Hc2 Hrest2]; subst.
    inversion Hrest2; subst.
    cbn [fst snd] in Hc1, Hc2.
    repeat constructor.
    + vm_compute in Hc1. injection Hc1 as <-. reflexivity.
    + vm_compute in Hc2. injection Hc2 as <-. reflexivity.
Defined.

Lemma on_pr_merge_empty_message_witness :
  let pull_request := example_pr "theforeman/foo" "Fix crash" "3.0-stable" true in
  let items := [("abc", codes "fixes #10: crash"); ("abd", [])] in
  on_pr_merge (Tracker.env items) (example_config true) Tracker.strip_suffix pull_request
    example_tracker
  = (Raise IndexError, example_tracker, [GetItem (pr_commits_url pull_request)]).
Proof.
  cbv zeta.
  destruct (parse_commit "abc" (codes "fixes #10: crash")) as [commit|e] eqn:Hparse;
    [|vm_compute in Hparse; discriminate].
  refine (on_pr_merge_empty_message
            (Tracker.env [("abc", codes "fixes #10: crash"); ("abd", [])])
            (example_config true) Tracker.strip_suffix
            (example_pr "theforeman/foo" "Fix crash" "3.0-stable" true) example_tracker
            "3.0."
            {| cfg_project := Some "foo"; cfg_required := true; cfg_refs := ∅;
               cfg_version_prefix := None |}
            example_tracker [] [("abc", codes "fixes #10: crash")] "abd" [] [commit]
            example_tracker eq_refl _ _ eq_refl eq_refl _).
  - vm_compute. reflexivity.
  - vm_compute. reflexivity.
  - cbn [rmapM fst snd]. rewrite Hparse. reflexivity.
Defined.
